(** * Verification of the ai-pathfinder search engine

    A shallow embedding of [js/algorithms.js] (the [PriorityQueue] binary
    heap and the five strategies of [SearchAlgorithms]) and of the query
    surface of [Graph], followed by the properties stated about them.

    Conventions of the embedding:
    - JavaScript numbers that the engine computes with (edge costs,
      heuristic values, priorities, accumulated costs) are integers [Z];
      the code holds them in doubles, which add integers without
      rounding as long as the magnitudes stay within [2 ^ 53]: the
      theorems that conclude about the value of a cost on an arbitrary
      graph assume [small_numbers], which keeps every sum in that range;
    - a [Map] with string keys is a [gmap string _], a [Set] a [gset string];
    - a JavaScript array is a [list]; [a[i]] is [a !! i], [a[i] = v] is
      [<[i:=v]> a], [a.push(v)] is [a ++ [v]];
    - reading a property of [undefined] or [null] raises a [TypeError]:
      the heap operations return [None] in that case and the strategies
      return [Fail TypeError];
    - [while] loops whose bound is not syntactic take a [fuel] argument and
      return [OutOfFuel] when it is exhausted;
    - [performance.now()] and the [timeTaken] field are not modelled. *)

From Equations Require Import Equations.
From stdpp Require Import gmap strings list fin_maps sorting.

Set Default Proof Using "Type".
Local Open Scope Z_scope.
#[local] Set Warnings "-clear-no-such-hyp".

(** ** Outcomes of a JavaScript computation *)

(** [TypeError]: a property of [undefined] or [null] is read.
    [Unmodelled]: the run leaves the fragment that the embedding covers
    (arithmetic on [undefined], or [null] used as a vertex id). *)
Inductive error := TypeError | Unmodelled.

Inductive outcome (A : Type) : Type :=
  | Done (a : A)
  | Fail (e : error)
  | OutOfFuel.
Arguments Done {A} a.
Arguments Fail {A} e.
Arguments OutOfFuel {A}.

Definition obind {A B} (m : outcome A) (f : A → outcome B) : outcome B :=
  match m with
  | Done a => f a
  | Fail e => Fail e
  | OutOfFuel => OutOfFuel
  end.

#[global] Instance outcome_mbind : MBind outcome := λ A B f m, obind m f.
#[global] Instance outcome_mret : MRet outcome := λ A a, Done a.
#[global] Instance outcome_fmap : FMap outcome :=
  λ A B f m, obind m (λ a, Done (f a)).

(** [o ?? e] turns an absent value into the failure [e]. *)
Definition or_fail {A} (o : option A) (e : error) : outcome A :=
  match o with Some a => Done a | None => Fail e end.

(** [for (let x of xs) body], for a body that may fail. *)
Fixpoint for_each {S X} (body : S → X → outcome S) (xs : list X) (s : S)
  : outcome S :=
  match xs with
  | [] => Done s
  | x :: xs' => s' ← body s x; for_each body xs' s'
  end.

(** A [while] loop: [step] runs one iteration and either continues with a
    new state ([inl]) or returns ([inr]). *)
Fixpoint run {S R} (step : S → outcome (S + R)) (fuel : nat) (s : S)
  : outcome R :=
  match fuel with
  | O => OutOfFuel
  | S n =>
      match step s with
      | Done (inl s') => run step n s'
      | Done (inr r) => Done r
      | Fail e => Fail e
      | OutOfFuel => OutOfFuel
      end
  end.

(** ** PriorityQueue *)

(** An entry [{ element, priority }] of [this.items]. *)
Record Item := mkItem { element : string; priority : Z }.

Abbreviation PriorityQueue := (list Item).

(** [new PriorityQueue()] *)
Definition newPriorityQueue : PriorityQueue := [].

(** [isEmpty()] *)
Definition isEmpty (items : PriorityQueue) : bool :=
  bool_decide (length items = 0%nat).

(** The loop of [bubbleUp]: [item] is held aside while parents that are
    strictly larger move one level down. *)
Equations? bubbleUp_loop (items : list Item) (item : Item) (index : nat)
  : option (list Item) by wf index lt :=
bubbleUp_loop items item index with decide (0 < index)%nat := {
  | right _ => Some (<[index := item]> items)
  | left _ with items !! ((index - 1) / 2)%nat := {
      | None => None
      | Some parent with decide (priority item >= priority parent) := {
          | left _ => Some (<[index := item]> items)
          | right _ =>
              bubbleUp_loop (<[index := parent]> items) item
                            ((index - 1) / 2)%nat } } }.
Proof. apply Nat.Div0.div_lt_upper_bound; lia. Qed.

(** [bubbleUp(index)] *)
Definition bubbleUp (items : list Item) (index : nat) : option (list Item) :=
  item ← items !! index; bubbleUp_loop items item index.

(** [enqueue(element, priority)] *)
Definition enqueue (items : PriorityQueue) (e : string) (p : Z)
  : option PriorityQueue :=
  let item := mkItem e p in
  let items := items ++ [item] in
  bubbleUp items (length items - 1).

(** One pass of the body of [sinkDown]'s loop up to the test of
    [swapIndex]: the left child is considered first, then the right one. *)
Definition swapIndex_left (items : list Item) (item : Item) (index : nat)
  : option (option nat) :=
  let leftChildIndex := (2 * index + 1)%nat in
  if decide (leftChildIndex < length items)%nat then
    leftChild ← items !! leftChildIndex;
    if decide (priority leftChild < priority item)
    then Some (Some leftChildIndex) else Some None
  else Some None.

Definition swapIndex_right (items : list Item) (item : Item) (index : nat)
    (swapIndex : option nat) : option (option nat) :=
  let rightChildIndex := (2 * index + 2)%nat in
  if decide (rightChildIndex < length items)%nat then
    rightChild ← items !! rightChildIndex;
    match swapIndex with
    | None =>
        if decide (priority rightChild < priority item)
        then Some (Some rightChildIndex) else Some None
    | Some s =>
        other ← items !! s;
        if decide (priority rightChild < priority other)
        then Some (Some rightChildIndex) else Some (Some s)
    end
  else Some swapIndex.

Definition swapIndex_of (items : list Item) (item : Item) (index : nat)
  : option (option nat) :=
  swapIndex_left items item index ≫= swapIndex_right items item index.

Lemma swapIndex_of_bound items item index s :
  swapIndex_of items item index = Some (Some s) →
  (index < s < length items)%nat.
Proof.
  unfold swapIndex_of, swapIndex_left, swapIndex_right.
  intros H.
  repeat (case_decide || case_match || simplify_option_eq); lia.
Qed.

(** The loop of [sinkDown]. *)
Equations? sinkDown_loop (items : list Item) (item : Item) (index : nat)
  : option (list Item) by wf (length items - index)%nat lt :=
sinkDown_loop items item index
  with Logic.inspect (swapIndex_of items item index) := {
  | exist _ None _ => None
  | exist _ (Some None) _ => Some (<[index := item]> items)
  | exist _ (Some (Some s)) Hs with items !! s := {
      | None => None
      | Some child => sinkDown_loop (<[index := child]> items) item s } }.
Proof.
  apply swapIndex_of_bound in Hs. rewrite length_insert. lia.
Qed.

(** [sinkDown(index)] *)
Definition sinkDown (items : list Item) (index : nat) : option (list Item) :=
  item ← items !! index; sinkDown_loop items item index.

(** [dequeue()]: the returned element is [None] for JavaScript's [null]. *)
Definition dequeue (items : PriorityQueue)
  : option (option string * PriorityQueue) :=
  if isEmpty items then Some (None, items)
  else
    min ← items !! 0%nat;
    end_ ← last items;
    let items := removelast items in
    if decide (0 < length items)%nat then
      items ← sinkDown (<[0%nat := end_]> items) 0;
      Some (Some (element min), items)
    else Some (Some (element min), items).

(** ** Graph *)

(** A vertex [{ name, x, y, h }]. *)
Record Node := mkNode
  { node_name : string; node_x : Z; node_y : Z; node_h : Z }.

(** An entry [{ to, cost }] of an adjacency array. *)
Record Edge := mkEdge { edge_to : string; edge_cost : Z }.

(** [this.nodes] and [this.edges]. *)
Record Graph := mkGraph
  { nodes : gmap string Node; edges : gmap string (list Edge) }.

(** An element [{ node, cost }] of the array returned by [getNeighbors];
    [nb_node] is [None] when [this.nodes.get(edge.to)] is [undefined]. *)
Record Neighbor := mkNeighbor { nb_node : option Node; nb_cost : Z }.

Definition emptyGraph : Graph := mkGraph ∅ ∅.

(** [addNode(name, x, y, h)] *)
Definition addNode (g : Graph) (name : string) (x y h : Z) : Graph :=
  mkGraph (<[name := mkNode name x y h]> (nodes g))
          (match edges g !! name with
           | Some _ => edges g
           | None => <[name := []]> (edges g)
           end).

(** The body shared by both directions of [addEdge]: the first entry to
    [to] gets the new cost, or a new entry is pushed. *)
Fixpoint putEdge (es : list Edge) (to : string) (cost : Z) : list Edge :=
  match es with
  | [] => [mkEdge to cost]
  | e :: es' =>
      if decide (edge_to e = to) then mkEdge (edge_to e) cost :: es'
      else e :: putEdge es' to cost
  end.

(** [addEdge(from, to, cost, bidirectional)] with its returned flag. *)
Definition addEdge (g : Graph) (from to : string) (cost : Z)
    (bidirectional : bool) : option (bool * Graph) :=
  if decide (nodes g !! from = None ∨ nodes g !! to = None) then
    Some (false, g)
  else
    fromEdges ← edges g !! from;
    let g := mkGraph (nodes g) (<[from := putEdge fromEdges to cost]> (edges g)) in
    if bidirectional then
      toEdges ← edges g !! to;
      Some (true,
            mkGraph (nodes g) (<[to := putEdge toEdges from cost]> (edges g)))
    else Some (true, g).

(** [removeNode(name)] *)
Definition removeNode (g : Graph) (name : string) : bool * Graph :=
  match nodes g !! name with
  | None => (false, g)
  | Some _ =>
      let es :=
        (λ l : list Edge,
           filter (λ edge, edge_to edge ≠ name) l) <$> edges g in
      (true, mkGraph (delete name (nodes g)) (delete name es))
  end.

(** [getNeighbors(nodeName)] *)
Definition getNeighbors (g : Graph) (nodeName : string) : list Neighbor :=
  match edges g !! nodeName with
  | None => []
  | Some es =>
      map (λ edge, mkNeighbor (nodes g !! edge_to edge) (edge_cost edge)) es
  end.

(** [getNode(name)]; [None] is [null]. *)
Definition getNode (g : Graph) (name : string) : option Node :=
  nodes g !! name.

(** [initializeDefaultGraph()] *)
Definition defaultNodes : list (string * Z * Z * Z) :=
  [ ("A", 100, 100, 7); ("B", 250, 80, 6); ("C", 150, 200, 5);
    ("D", 300, 200, 4); ("E", 400, 150, 2); ("F", 200, 300, 3);
    ("G", 350, 320, 1); ("Goal", 450, 280, 0) ].

Definition defaultEdges : list (string * string * Z) :=
  [ ("A", "B", 2); ("A", "C", 3); ("B", "D", 3); ("B", "E", 4);
    ("C", "D", 2); ("C", "F", 4); ("D", "E", 1); ("D", "G", 3);
    ("E", "Goal", 2); ("F", "G", 2); ("G", "Goal", 3) ].

Definition initializeDefaultGraph (g : Graph) : option Graph :=
  let g :=
    foldl (λ g '(name, x, y, h), addNode g name x y h) g defaultNodes in
  foldl (λ og '(from, to, cost),
           g ← og; snd <$> addEdge g from to cost true)
        (Some g) defaultEdges.

(** [new Graph()] *)
Definition newGraph : option Graph := initializeDefaultGraph emptyGraph.

(** ** SearchAlgorithms *)

(** The object returned by every strategy, without [timeTaken]. *)
Record Result := mkResult
  { found : bool;
    path : list string;
    pathCost : Z;
    nodesExplored : nat;
    exploredOrder : list string }.

(** The [parent] map: [Some None] is the entry [null] of the start. *)
Abbreviation ParentMap := (gmap string (option string)).

(** The loop [while (current !== null) { path.unshift(current); current =
    parent.get(current); }] of [buildResult]. When [parent.get] answers
    [undefined] the JavaScript loop never exits ([undefined !== null]
    and [parent.get(undefined)] is [undefined] again): no amount of fuel
    returns. *)
Fixpoint reconstruct (fuel : nat) (parent : ParentMap) (current : string)
    (path : list string) : outcome (list string) :=
  match fuel with
  | O => OutOfFuel
  | S n =>
      let path := current :: path in
      match parent !! current with
      | Some None => Done path
      | Some (Some p) => reconstruct n parent p path
      | None => OutOfFuel
      end
  end.

(** [neighbors.find(n => n.node.name === target)] *)
Fixpoint find_neighbor (neighbors : list Neighbor) (target : string)
  : outcome (option Neighbor) :=
  match neighbors with
  | [] => Done None
  | n :: rest =>
      nd ← or_fail (nb_node n) TypeError;
      if decide (node_name nd = target) then Done (Some n)
      else find_neighbor rest target
  end.

(** The loop [for (let i = 0; i < path.length - 1; i++)] of
    [buildResult], started at [path[i]] with the cost summed so far. *)
Fixpoint manualCost (g : Graph) (path : list string) (pathCost : Z)
  : outcome Z :=
  match path with
  | a :: (b :: _) as rest =>
      neighbor ← find_neighbor (getNeighbors g a) b;
      manualCost g rest
        (match neighbor with
         | Some n => pathCost + nb_cost n
         | None => pathCost
         end)
  | _ => Done pathCost
  end.

(** [buildResult(start, goal, parent, exploredOrder, timeTaken, found,
    costMap)]; [costMap.get(goal) || 0] is [default 0 (costMap !! goal)]. *)
Definition buildResult (g : Graph) (fuel : nat) (start goal : string)
    (parent : ParentMap) (exploredOrder : list string) (found : bool)
    (costMap : option (gmap string Z)) : outcome Result :=
  '(path, pathCost) ←
    (if found && bool_decide (is_Some (parent !! goal)) then
       path ← reconstruct fuel parent goal [];
       pathCost ←
         match costMap with
         | Some costMap => Done (default 0 (costMap !! goal))
         | None => manualCost g path 0
         end;
       Done (path, pathCost)
     else Done ([], 0));
  Done (mkResult found path pathCost (length exploredOrder) exploredOrder).

(** *** bfs *)

Record bfs_state := BfsState
  { bfs_queue : list string;
    bfs_visited : gset string;
    bfs_parent : ParentMap;
    bfs_exploredOrder : list string }.

Definition bfs_init (start : string) : bfs_state :=
  BfsState [start] {[start]} {[start := None]} [].

(** Body of [for (let neighbor of neighbors)]. *)
Definition bfs_neighbor (current : string) (st : bfs_state)
    (neighbor : Neighbor) : outcome bfs_state :=
  nd ← or_fail (nb_node neighbor) TypeError;
  let neighborName := node_name nd in
  if decide (neighborName ∈ bfs_visited st) then Done st
  else
    Done (BfsState (bfs_queue st ++ [neighborName])
                   ({[neighborName]} ∪ bfs_visited st)
                   (<[neighborName := Some current]> (bfs_parent st))
                   (bfs_exploredOrder st)).

(** Body of [while (queue.length > 0)], and the code after the loop. *)
Definition bfs_step (g : Graph) (fuel : nat) (start goal : string)
    (st : bfs_state) : outcome (bfs_state + Result) :=
  match bfs_queue st with
  | [] =>
      inr <$> buildResult g fuel start goal (bfs_parent st)
                (bfs_exploredOrder st) false None
  | current :: queue =>
      let exploredOrder := bfs_exploredOrder st ++ [current] in
      if decide (current = goal) then
        inr <$> buildResult g fuel start goal (bfs_parent st)
                  exploredOrder true None
      else
        inl <$> for_each (bfs_neighbor current) (getNeighbors g current)
                  (BfsState queue (bfs_visited st) (bfs_parent st)
                            exploredOrder)
  end.

Definition bfs (g : Graph) (fuel : nat) (start goal : string)
  : outcome Result :=
  run (bfs_step g fuel start goal) fuel (bfs_init start).

(** *** dfs *)

(** [dfs_stack] has the top of the JavaScript array (its last element)
    at its head. *)
Record dfs_state := DfsState
  { dfs_stack : list string;
    dfs_visited : gset string;
    dfs_parent : ParentMap;
    dfs_exploredOrder : list string }.

Definition dfs_init (start : string) : dfs_state :=
  DfsState [start] ∅ {[start := None]} [].

(** Body of [for (let i = neighbors.length - 1; i >= 0; i--)]. *)
Definition dfs_neighbor (current : string) (st : dfs_state)
    (neighbor : Neighbor) : outcome dfs_state :=
  nd ← or_fail (nb_node neighbor) TypeError;
  let neighborName := node_name nd in
  if decide (neighborName ∈ dfs_visited st) then Done st
  else
    Done (DfsState (neighborName :: dfs_stack st)
                   (dfs_visited st)
                   (match dfs_parent st !! neighborName with
                    | Some _ => dfs_parent st
                    | None => <[neighborName := Some current]> (dfs_parent st)
                    end)
                   (dfs_exploredOrder st)).

Definition dfs_step (g : Graph) (fuel : nat) (start goal : string)
    (st : dfs_state) : outcome (dfs_state + Result) :=
  match dfs_stack st with
  | [] =>
      inr <$> buildResult g fuel start goal (dfs_parent st)
                (dfs_exploredOrder st) false None
  | current :: stack =>
      if decide (current ∈ dfs_visited st) then
        Done (inl (DfsState stack (dfs_visited st) (dfs_parent st)
                            (dfs_exploredOrder st)))
      else
        let visited := {[current]} ∪ dfs_visited st in
        let exploredOrder := dfs_exploredOrder st ++ [current] in
        if decide (current = goal) then
          inr <$> buildResult g fuel start goal (dfs_parent st)
                    exploredOrder true None
        else
          inl <$> for_each (dfs_neighbor current)
                    (reverse (getNeighbors g current))
                    (DfsState stack visited (dfs_parent st) exploredOrder)
  end.

Definition dfs (g : Graph) (fuel : nat) (start goal : string)
  : outcome Result :=
  run (dfs_step g fuel start goal) fuel (dfs_init start).

(** *** ucs *)

Record ucs_state := UcsState
  { ucs_pQueue : PriorityQueue;
    ucs_visited : gset string;
    ucs_parent : ParentMap;
    ucs_cost : gmap string Z;
    ucs_exploredOrder : list string }.

Definition ucs_init (start : string) : outcome ucs_state :=
  pQueue ← or_fail (enqueue newPriorityQueue start 0) TypeError;
  Done (UcsState pQueue ∅ {[start := None]} {[start := 0]} []).

(** Body of [for (let neighbor of neighbors)]. *)
Definition ucs_neighbor (current : string) (st : ucs_state)
    (neighbor : Neighbor) : outcome ucs_state :=
  nd ← or_fail (nb_node neighbor) TypeError;
  let neighborName := node_name nd in
  costCurrent ← or_fail (ucs_cost st !! current) Unmodelled;
  let newCost := costCurrent + nb_cost neighbor in
  if match ucs_cost st !! neighborName with
     | None => true
     | Some known => bool_decide (newCost < known)
     end
  then
    pQueue ← or_fail (enqueue (ucs_pQueue st) neighborName newCost) TypeError;
    Done (UcsState pQueue (ucs_visited st)
                   (<[neighborName := Some current]> (ucs_parent st))
                   (<[neighborName := newCost]> (ucs_cost st))
                   (ucs_exploredOrder st))
  else Done st.

(** Body of [while (!pQueue.isEmpty())], and the code after the loop. *)
Definition ucs_step (g : Graph) (fuel : nat) (start goal : string)
    (st : ucs_state) : outcome (ucs_state + Result) :=
  if isEmpty (ucs_pQueue st) then
    inr <$> buildResult g fuel start goal (ucs_parent st)
              (ucs_exploredOrder st) false None
  else
    '(popped, pQueue) ← or_fail (dequeue (ucs_pQueue st)) TypeError;
    current ← or_fail popped Unmodelled;
    if decide (current ∈ ucs_visited st) then
      Done (inl (UcsState pQueue (ucs_visited st) (ucs_parent st)
                          (ucs_cost st) (ucs_exploredOrder st)))
    else
      let visited := {[current]} ∪ ucs_visited st in
      let exploredOrder := ucs_exploredOrder st ++ [current] in
      if decide (current = goal) then
        inr <$> buildResult g fuel start goal (ucs_parent st)
                  exploredOrder true (Some (ucs_cost st))
      else
        inl <$> for_each (ucs_neighbor current) (getNeighbors g current)
                  (UcsState pQueue visited (ucs_parent st) (ucs_cost st)
                            exploredOrder).

Definition ucs (g : Graph) (fuel : nat) (start goal : string)
  : outcome Result :=
  st ← ucs_init start; run (ucs_step g fuel start goal) fuel st.

(** *** astar *)

Record astar_state := AstarState
  { astar_pQueue : PriorityQueue;
    astar_visited : gset string;
    astar_parent : ParentMap;
    astar_gScore : gmap string Z;
    astar_fScore : gmap string Z;
    astar_exploredOrder : list string }.

Definition astar_init (g : Graph) (start : string) : outcome astar_state :=
  let gScore : gmap string Z := {[start := 0]} in
  startNode ← or_fail (getNode g start) TypeError;
  let fScore : gmap string Z := {[start := node_h startNode]} in
  f ← or_fail (fScore !! start) Unmodelled;
  pQueue ← or_fail (enqueue newPriorityQueue start f) TypeError;
  Done (AstarState pQueue ∅ {[start := None]} gScore fScore []).

Definition astar_neighbor (current : string) (st : astar_state)
    (neighbor : Neighbor) : outcome astar_state :=
  nd ← or_fail (nb_node neighbor) TypeError;
  let neighborName := node_name nd in
  gCurrent ← or_fail (astar_gScore st !! current) Unmodelled;
  let tentativeGScore := gCurrent + nb_cost neighbor in
  if match astar_gScore st !! neighborName with
     | None => true
     | Some known => bool_decide (tentativeGScore < known)
     end
  then
    let hScore := node_h nd in
    let fScoreValue := tentativeGScore + hScore in
    pQueue ←
      or_fail (enqueue (astar_pQueue st) neighborName fScoreValue) TypeError;
    Done (AstarState pQueue (astar_visited st)
                     (<[neighborName := Some current]> (astar_parent st))
                     (<[neighborName := tentativeGScore]> (astar_gScore st))
                     (<[neighborName := fScoreValue]> (astar_fScore st))
                     (astar_exploredOrder st))
  else Done st.

Definition astar_step (g : Graph) (fuel : nat) (start goal : string)
    (st : astar_state) : outcome (astar_state + Result) :=
  if isEmpty (astar_pQueue st) then
    inr <$> buildResult g fuel start goal (astar_parent st)
              (astar_exploredOrder st) false None
  else
    '(popped, pQueue) ← or_fail (dequeue (astar_pQueue st)) TypeError;
    current ← or_fail popped Unmodelled;
    if decide (current ∈ astar_visited st) then
      Done (inl (AstarState pQueue (astar_visited st) (astar_parent st)
                            (astar_gScore st) (astar_fScore st)
                            (astar_exploredOrder st)))
    else
      let visited := {[current]} ∪ astar_visited st in
      let exploredOrder := astar_exploredOrder st ++ [current] in
      if decide (current = goal) then
        inr <$> buildResult g fuel start goal (astar_parent st)
                  exploredOrder true (Some (astar_gScore st))
      else
        inl <$> for_each (astar_neighbor current) (getNeighbors g current)
                  (AstarState pQueue visited (astar_parent st)
                              (astar_gScore st) (astar_fScore st)
                              exploredOrder).

Definition astar (g : Graph) (fuel : nat) (start goal : string)
  : outcome Result :=
  st ← astar_init g start; run (astar_step g fuel start goal) fuel st.

(** *** greedy *)

Record greedy_state := GreedyState
  { greedy_pQueue : PriorityQueue;
    greedy_visited : gset string;
    greedy_parent : ParentMap;
    greedy_cost : gmap string Z;
    greedy_exploredOrder : list string }.

Definition greedy_init (g : Graph) (start : string) : outcome greedy_state :=
  startNode ← or_fail (getNode g start) TypeError;
  pQueue ←
    or_fail (enqueue newPriorityQueue start (node_h startNode)) TypeError;
  Done (GreedyState pQueue ∅ {[start := None]} {[start := 0]} []).

Definition greedy_neighbor (current : string) (st : greedy_state)
    (neighbor : Neighbor) : outcome greedy_state :=
  nd ← or_fail (nb_node neighbor) TypeError;
  let neighborName := node_name nd in
  if decide (neighborName ∈ greedy_visited st) then Done st
  else
    '(parent, cost) ←
      match greedy_parent st !! neighborName with
      | Some _ => Done (greedy_parent st, greedy_cost st)
      | None =>
          costCurrent ← or_fail (greedy_cost st !! current) Unmodelled;
          Done (<[neighborName := Some current]> (greedy_parent st),
                <[neighborName := costCurrent + nb_cost neighbor]>
                  (greedy_cost st))
      end;
    let hScore := node_h nd in
    pQueue ← or_fail (enqueue (greedy_pQueue st) neighborName hScore) TypeError;
    Done (GreedyState pQueue (greedy_visited st) parent cost
                      (greedy_exploredOrder st)).

Definition greedy_step (g : Graph) (fuel : nat) (start goal : string)
    (st : greedy_state) : outcome (greedy_state + Result) :=
  if isEmpty (greedy_pQueue st) then
    inr <$> buildResult g fuel start goal (greedy_parent st)
              (greedy_exploredOrder st) false None
  else
    '(popped, pQueue) ← or_fail (dequeue (greedy_pQueue st)) TypeError;
    current ← or_fail popped Unmodelled;
    if decide (current ∈ greedy_visited st) then
      Done (inl (GreedyState pQueue (greedy_visited st) (greedy_parent st)
                             (greedy_cost st) (greedy_exploredOrder st)))
    else
      let visited := {[current]} ∪ greedy_visited st in
      let exploredOrder := greedy_exploredOrder st ++ [current] in
      if decide (current = goal) then
        inr <$> buildResult g fuel start goal (greedy_parent st)
                  exploredOrder true (Some (greedy_cost st))
      else
        inl <$> for_each (greedy_neighbor current) (getNeighbors g current)
                  (GreedyState pQueue visited (greedy_parent st)
                               (greedy_cost st) exploredOrder).

Definition greedy (g : Graph) (fuel : nat) (start goal : string)
  : outcome Result :=
  st ← greedy_init g start; run (greedy_step g fuel start goal) fuel st.

(** [runAlgorithm(algoType, start, goal)] of the application: the
    selector is one of the five strings of its [switch]. *)
Inductive strategy := Bfs | Dfs | Ucs | Astar | Greedy.

Definition runAlgorithm (g : Graph) (fuel : nat) (algoType : strategy)
    (start goal : string) : outcome Result :=
  match algoType with
  | Bfs => bfs g fuel start goal
  | Dfs => dfs g fuel start goal
  | Ucs => ucs g fuel start goal
  | Astar => astar g fuel start goal
  | Greedy => greedy g fuel start goal
  end.
(** ** The binary heap *)

Lemma bubbleUp_loop_eq items item index :
  bubbleUp_loop items item index =
    if decide (0 < index)%nat then
      match items !! ((index - 1) / 2)%nat with
      | None => None
      | Some parent =>
          if decide (priority item >= priority parent)
          then Some (<[index := item]> items)
          else bubbleUp_loop (<[index := parent]> items) item
                 ((index - 1) / 2)%nat
      end
    else Some (<[index := item]> items).
Proof.
  rewrite bubbleUp_loop_unfold_eq at 1.
  Local Transparent bubbleUp_loop_unfold. unfold bubbleUp_loop_unfold.
  destruct (decide (0 < index)%nat); simpl; [|done].
  destruct (items !! _); simpl; [|done].
  destruct (decide _); simpl; done.
Qed.

Lemma sinkDown_loop_eq items item index :
  sinkDown_loop items item index =
    match swapIndex_of items item index with
    | None => None
    | Some None => Some (<[index := item]> items)
    | Some (Some s) =>
        match items !! s with
        | None => None
        | Some child => sinkDown_loop (<[index := child]> items) item s
        end
    end.
Proof.
  rewrite sinkDown_loop_unfold_eq at 1.
  Local Transparent sinkDown_loop_unfold. unfold sinkDown_loop_unfold.
  generalize (Logic.inspect (swapIndex_of items item index)).
  intros [[[s|]|] Hs]; simpl.
  - destruct (items !! s) eqn:E; simpl; by rewrite Hs, E.
  - by rewrite Hs.
  - by rewrite Hs.
Qed.

(** [c] is the index of a child of the entry at index [i]. *)
Definition child_of (i c : nat) : Prop :=
  c = (2 * i + 1)%nat ∨ c = (2 * i + 2)%nat.

Lemma child_of_parent c : (0 < c)%nat → child_of ((c - 1) / 2) c.
Proof.
  intros Hc. unfold child_of.
  pose proof (Nat.div_mod_eq (c - 1) 2) as Hd.
  pose proof (Nat.mod_upper_bound (c - 1) 2). lia.
Qed.

Lemma child_of_inj i j c : child_of i c → child_of j c → i = j.
Proof. unfold child_of. lia. Qed.

Lemma child_of_lt i c : child_of i c → (i < c)%nat.
Proof. unfold child_of. lia. Qed.

(** The entry at [i] is no larger than the one at [c]. *)
Definition le_at (items : list Item) (i c : nat) : Prop :=
  ∀ x y, items !! i = Some x → items !! c = Some y →
         priority x ≤ priority y.

(** The min-heap ordering of [this.items]. *)
Definition heap_ok (items : list Item) : Prop :=
  ∀ i c, child_of i c → le_at items i c.

Lemma heap_ok_nil : heap_ok [].
Proof. intros i c _ x y Hx. by rewrite lookup_nil in Hx. Qed.

Lemma heap_ok_root items m :
  heap_ok items → items !! 0%nat = Some m →
  ∀ y, y ∈ items → priority m ≤ priority y.
Proof.
  intros Hh Hm y [j Hj]%list_elem_of_lookup. revert y Hj.
  induction j as [j IH] using lt_wf_ind. intros y Hj.
  destruct (decide (j = 0%nat)) as [->|Hne].
  { rewrite Hm in Hj. injection Hj as ->. lia. }
  assert (0 < j)%nat as Hpos by lia.
  pose proof (child_of_parent j Hpos) as Hc.
  pose proof (child_of_lt _ _ Hc) as Hlt.
  destruct (lookup_lt_is_Some_2 items ((j - 1) / 2)) as [x Hx].
  { apply lookup_lt_Some in Hj. lia. }
  specialize (IH _ Hlt x Hx). specialize (Hh _ _ Hc x y Hx Hj). lia.
Qed.

(** Exchanging the hole with an entry keeps the contents. *)
Lemma insert_cons_Permutation (l : list Item) j a b :
  l !! j = Some b → b :: <[j := a]> l ≡ₚ a :: l.
Proof.
  revert j. induction l as [|c l IH]; intros [|j] Hj; simplify_eq/=.
  - apply perm_swap.
  - rewrite perm_swap, (IH j Hj). apply perm_swap.
Qed.

Lemma hole_move_Permutation (l : list Item) i p a b :
  (i < length l)%nat → i ≠ p → l !! p = Some b →
  <[p := a]> (<[i := b]> l) ≡ₚ <[i := a]> l.
Proof.
  intros Hi Hne Hp.
  destruct (lookup_lt_is_Some_2 l i Hi) as [old Hold].
  apply (Permutation_cons_inv (a := old)), (Permutation_cons_inv (a := b)).
  assert (<[i := b]> l !! p = Some b) as Hp'.
  { by rewrite list_lookup_insert_ne. }
  trans (a :: b :: l).
  - etrans; [apply perm_swap|].
    rewrite (insert_cons_Permutation _ p a b Hp').
    etrans; [apply perm_swap|].
    by rewrite (insert_cons_Permutation _ i b old Hold).
  - rewrite (insert_cons_Permutation _ i a old Hold). apply perm_swap.
Qed.

(** *** bubbleUp *)

Record up_inv (items : list Item) (item : Item) (index : nat) : Prop :=
  { up_range : (index < length items)%nat;
    up_rest : ∀ i c, child_of i c → c ≠ index → le_at items i c;
    up_below : ∀ c y, child_of index c → items !! c = Some y →
                      priority item ≤ priority y;
    up_skip : ∀ p c, child_of p index → child_of index c →
                     le_at items p c }.

Lemma bubbleUp_loop_ok items item index :
  up_inv items item index →
  ∃ items', bubbleUp_loop items item index = Some items'
            ∧ heap_ok items' ∧ items' ≡ₚ <[index := item]> items.
Proof.
  revert items. induction index as [index IH] using lt_wf_ind.
  intros items [Hr HA HB HC]. rewrite bubbleUp_loop_eq.
  assert (∀ p x, child_of p index → items !! p = Some x →
                 priority x ≤ priority item →
                 heap_ok (<[index := item]> items)) as Hstop.
  { intros p x Hp Hx Hle i c Hic a b Ha Hb.
    pose proof (child_of_lt _ _ Hic).
    destruct (decide (c = index)) as [->|Hc].
    - assert (i = p) as -> by eauto using child_of_inj.
      rewrite list_lookup_insert_ne in Ha by lia.
      rewrite list_lookup_insert_eq in Hb by done. simplify_eq. lia.
    - rewrite list_lookup_insert_ne in Hb by done.
      destruct (decide (i = index)) as [->|Hi].
      + rewrite list_lookup_insert_eq in Ha by done. simplify_eq. eauto.
      + rewrite list_lookup_insert_ne in Ha by done. by eapply HA. }
  case_decide as Hpos.
  - pose proof (child_of_parent index Hpos) as Hp.
    pose proof (child_of_lt _ _ Hp) as Hlt.
    set (p := ((index - 1) / 2)%nat) in *.
    destruct (lookup_lt_is_Some_2 items p) as [parent Hparent]; [lia|].
    rewrite Hparent. case_decide as Hcmp.
    + eexists; split_and!; [done| |done]. eapply Hstop; [done..|lia].
    + destruct (IH p Hlt (<[index := parent]> items)) as (items' & -> & ? & Hperm).
      { split.
        - rewrite length_insert. lia.
        - intros i c Hic Hcp a b Ha Hb.
          pose proof (child_of_lt _ _ Hic).
          destruct (decide (c = index)) as [->|Hc].
          { assert (i = p) as -> by eauto using child_of_inj.
            rewrite list_lookup_insert_ne in Ha by lia.
            rewrite list_lookup_insert_eq in Hb by done. simplify_eq. lia. }
          rewrite list_lookup_insert_ne in Hb by done.
          destruct (decide (i = index)) as [->|Hi].
          { rewrite list_lookup_insert_eq in Ha by done. simplify_eq.
            by eapply (HC p c). }
          rewrite list_lookup_insert_ne in Ha by done. by eapply HA.
        - intros c y Hc Hy.
          destruct (decide (c = index)) as [->|Hci].
          { rewrite list_lookup_insert_eq in Hy by done. simplify_eq. lia. }
          rewrite list_lookup_insert_ne in Hy by done.
          pose proof (HA p c Hc Hci parent y Hparent Hy). lia.
        - intros q c Hq Hc a b Ha Hb.
          pose proof (child_of_lt _ _ Hq).
          rewrite list_lookup_insert_ne in Ha by lia.
          assert (priority a ≤ priority parent).
          { eapply (HA q p); [done|lia|done..]. }
          destruct (decide (c = index)) as [->|Hci].
          { rewrite list_lookup_insert_eq in Hb by done. by simplify_eq. }
          rewrite list_lookup_insert_ne in Hb by done.
          pose proof (HA p c Hc Hci parent b Hparent Hb). lia. }
      eexists; split_and!; [done..|].
      rewrite Hperm. apply hole_move_Permutation; [done|lia|done].
  - assert (index = 0%nat) as -> by lia.
    eexists; split_and!; [done| |done].
    intros i c Hic a b Ha Hb. pose proof (child_of_lt _ _ Hic).
    rewrite list_lookup_insert_ne in Hb by lia.
    destruct (decide (i = 0%nat)) as [->|Hi].
    + rewrite list_lookup_insert_eq in Ha by done. simplify_eq. eauto.
    + rewrite list_lookup_insert_ne in Ha by done. eapply HA; [done|lia|done..].
Qed.

Lemma enqueue_ok items e p :
  heap_ok items →
  ∃ items', enqueue items e p = Some items'
            ∧ heap_ok items' ∧ items' ≡ₚ mkItem e p :: items.
Proof.
  intros Hh. unfold enqueue, bubbleUp. rewrite length_app. simpl.
  replace (length items + 1 - 1)%nat with (length items) by lia.
  rewrite lookup_app_r, Nat.sub_diag by done. simpl.
  destruct (bubbleUp_loop_ok (items ++ [mkItem e p]) (mkItem e p)
              (length items)) as (items' & -> & ? & Hperm).
  { split.
    - rewrite length_app. simpl. lia.
    - intros i c Hic Hc a b Ha Hb. pose proof (child_of_lt _ _ Hic).
      assert (c < length items)%nat.
      { apply lookup_lt_Some in Hb. rewrite length_app in Hb. simpl in Hb. lia. }
      rewrite lookup_app_l in Ha, Hb by lia. by eapply Hh.
    - intros c y Hc Hy. apply lookup_lt_Some in Hy.
      rewrite length_app in Hy. simpl in Hy. unfold child_of in Hc. lia.
    - intros q c Hq Hc a b Ha Hb. apply lookup_lt_Some in Hb.
      rewrite length_app in Hb. simpl in Hb. unfold child_of in Hc. lia. }
  eexists; split_and!; [done..|].
  rewrite Hperm, list_insert_id.
  - by rewrite Permutation_app_comm.
  - by rewrite lookup_app_r, Nat.sub_diag.
Qed.

(** *** sinkDown *)

Lemma swapIndex_of_ok items item index :
  ∃ r, swapIndex_of items item index = Some r ∧
    match r with
    | None =>
        ∀ c y, child_of index c → items !! c = Some y →
               priority item ≤ priority y
    | Some s =>
        child_of index s ∧
        ∃ ys, items !! s = Some ys ∧ priority ys < priority item ∧
          ∀ c y, child_of index c → items !! c = Some y →
                 priority ys ≤ priority y
    end.
Proof.
  unfold swapIndex_of, swapIndex_left, swapIndex_right, child_of.
  remember (2 * index + 1)%nat as li eqn:Hli.
  remember (2 * index + 2)%nat as ri eqn:Hri.
  destruct (decide (li < length items)%nat) as [Hl|Hl].
  - destruct (lookup_lt_is_Some_2 items _ Hl) as [yl Hyl]. rewrite Hyl. simpl.
    destruct (decide (ri < length items)%nat) as [Hr|Hr].
    + destruct (lookup_lt_is_Some_2 items _ Hr) as [yr Hyr].
      destruct (decide (priority yl < priority item)); simpl;
        rewrite Hyr; simpl; rewrite ?Hyl; simpl; case_decide;
        eexists; (split; [done|]); simpl;
        repeat first [split; [lia|] | eexists; split; [done|] ];
        intros c y [->| ->] Hy; simplify_eq; lia.
    + destruct (decide (priority yl < priority item)); simpl;
        eexists; (split; [done|]); simpl;
        repeat first [split; [lia|] | eexists; split; [done|] ];
        intros c y [->| ->] Hy; simplify_eq; try lia;
        apply lookup_lt_Some in Hy; lia.
  - simpl. rewrite decide_False by lia.
    eexists; split; [done|]. intros c y Hc Hy.
    apply lookup_lt_Some in Hy. lia.
Qed.

Record down_inv (items : list Item) (item : Item) (index : nat) : Prop :=
  { down_range : (index < length items)%nat;
    down_rest : ∀ i c, child_of i c → i ≠ index → le_at items i c;
    down_skip : ∀ p c, child_of p index → child_of index c →
                       le_at items p c;
    down_above : ∀ p x, child_of p index → items !! p = Some x →
                        priority x ≤ priority item }.

Lemma sinkDown_loop_ok items item index :
  down_inv items item index →
  ∃ items', sinkDown_loop items item index = Some items'
            ∧ heap_ok items' ∧ items' ≡ₚ <[index := item]> items.
Proof.
  remember (length items - index)%nat as n eqn:Hn.
  revert items index Hn. induction n as [n IH] using lt_wf_ind.
  intros items index -> [Hr HA HC HD]. rewrite sinkDown_loop_eq.
  destruct (swapIndex_of_ok items item index) as (r & -> & Hspec).
  destruct r as [s|].
  - destruct Hspec as (Hs & ys & Hys & Hlt & Hmin). rewrite Hys.
    pose proof (child_of_lt _ _ Hs) as Hlts.
    pose proof (lookup_lt_Some _ _ _ Hys) as Hsr.
    destruct (IH (length items - s)%nat ltac:(lia)
                 (<[index := ys]> items) s) as (items' & -> & ? & Hperm).
    { by rewrite length_insert. }
    { split.
      - by rewrite length_insert.
      - intros i c Hic Hi a b Ha Hb. pose proof (child_of_lt _ _ Hic).
        destruct (decide (i = index)) as [->|Hii].
        { rewrite list_lookup_insert_eq in Ha by done.
          rewrite list_lookup_insert_ne in Hb by lia. simplify_eq. eauto. }
        rewrite list_lookup_insert_ne in Ha by done.
        destruct (decide (c = index)) as [->|Hci].
        { rewrite list_lookup_insert_eq in Hb by done. simplify_eq.
          by eapply (HC i s). }
        rewrite list_lookup_insert_ne in Hb by done. by eapply HA.
      - intros q c Hq Hc a b Ha Hb.
        assert (q = index) as -> by eauto using child_of_inj.
        pose proof (child_of_lt _ _ Hc).
        rewrite list_lookup_insert_eq in Ha by done.
        rewrite list_lookup_insert_ne in Hb by lia. simplify_eq.
        eapply (HA s c); [done|lia|done..].
      - intros q x Hq Hx.
        assert (q = index) as -> by eauto using child_of_inj.
        rewrite list_lookup_insert_eq in Hx by done. simplify_eq. lia. }
    eexists; split_and!; [done..|].
    rewrite Hperm. apply hole_move_Permutation; [done|lia|done].
  - eexists; split_and!; [done| |done].
    intros i c Hic a b Ha Hb. pose proof (child_of_lt _ _ Hic).
    destruct (decide (i = index)) as [->|Hi].
    + rewrite list_lookup_insert_eq in Ha by done.
      rewrite list_lookup_insert_ne in Hb by lia. simplify_eq. eauto.
    + rewrite list_lookup_insert_ne in Ha by done.
      destruct (decide (c = index)) as [->|Hci].
      * rewrite list_lookup_insert_eq in Hb by done. simplify_eq. eauto.
      * rewrite list_lookup_insert_ne in Hb by done. by eapply HA.
Qed.

Lemma dequeue_nil : dequeue [] = Some (None, []).
Proof. done. Qed.

Lemma dequeue_ok items :
  heap_ok items → items ≠ [] →
  ∃ m items', dequeue items = Some (Some (element m), items')
              ∧ heap_ok items' ∧ items ≡ₚ m :: items'
              ∧ ∀ y, y ∈ items → priority m ≤ priority y.
Proof.
  intros Hh Hne. destruct items as [|m t]; [done|].
  assert (∀ y, y ∈ m :: t → priority m ≤ priority y) as Hmin.
  { by apply heap_ok_root. }
  exists m. unfold dequeue.
  assert (isEmpty (m :: t) = false) as -> by done.
  change ((m :: t) !! 0%nat) with (Some m). cbn [mbind option_bind].
  destruct (exists_last Hne) as (front & end_ & Heq).
  assert (last (m :: t) = Some end_) as -> by (by rewrite Heq, last_snoc).
  assert (removelast (m :: t) = front) as ->
    by (by rewrite Heq, removelast_last).
  cbn [mbind option_bind].
  destruct front as [|m' front].
  - simpl in *. simplify_eq. eexists; split_and!; eauto using heap_ok_nil.
  - simpl in Heq. injection Heq as <- ->.
    rewrite decide_True by (simpl; lia).
    unfold sinkDown. simpl.
    destruct (sinkDown_loop_ok (end_ :: front) end_ 0)
      as (items' & -> & ? & Hperm).
    { split.
      - simpl. lia.
      - intros i c Hic Hi a b Ha Hb. pose proof (child_of_lt _ _ Hic).
        destruct i as [|i]; [done|]. destruct c as [|c]; [lia|].
        simpl in Ha, Hb. eapply (Hh (S i) (S c)); [done|..]; simpl.
        + by apply lookup_app_l_Some.
        + by apply lookup_app_l_Some.
      - intros q c Hq. apply child_of_lt in Hq. lia.
      - intros q x Hq. apply child_of_lt in Hq. lia. }
    simpl. eexists; split_and!; [done..| |done].
    simpl in Hperm. rewrite Hperm. f_equiv. by rewrite Permutation_app_comm.
Qed.

(** *** Sequences of operations *)

(** [xs.forEach(([e, p]) => pq.enqueue(e, p))] *)
Fixpoint enqueue_all (xs : list (string * Z)) (items : PriorityQueue)
  : option PriorityQueue :=
  match xs with
  | [] => Some items
  | (e, p) :: xs' => items ← enqueue items e p; enqueue_all xs' items
  end.

(** [n] calls of [dequeue()], with the values they return. *)
Fixpoint dequeue_n (n : nat) (items : PriorityQueue)
  : option (list (option string) * PriorityQueue) :=
  match n with
  | O => Some ([], items)
  | S n' =>
      '(x, items) ← dequeue items;
      '(xs, items) ← dequeue_n n' items;
      Some (x :: xs, items)
  end.

Definition priority_le (a b : Item) : Prop := priority a ≤ priority b.

Lemma enqueue_all_ok xs items :
  heap_ok items →
  ∃ items', enqueue_all xs items = Some items' ∧ heap_ok items'
            ∧ items' ≡ₚ (uncurry mkItem <$> xs) ++ items.
Proof.
  revert items. induction xs as [|[e p] xs IH]; intros items Hh; simpl.
  - eauto.
  - destruct (enqueue_ok items e p Hh) as (items1 & -> & Hh1 & Hp1). simpl.
    destruct (IH items1 Hh1) as (items2 & -> & Hh2 & Hp2).
    eexists; split_and!; [done..|].
    rewrite Hp2, Hp1. by rewrite Permutation_middle.
Qed.

Lemma dequeue_n_ok n items :
  heap_ok items → length items = n →
  ∃ out, dequeue_n n items = Some ((λ i, Some (element i)) <$> out, [])
         ∧ out ≡ₚ items ∧ StronglySorted priority_le out.
Proof.
  revert items. induction n as [|n IH]; intros items Hh Hlen; simpl.
  - destruct items; [|done]. exists []. split_and!; [done..|constructor].
  - destruct (dequeue_ok items Hh) as (m & items1 & -> & Hh1 & Hp & Hmin).
    { by destruct items. }
    simpl. destruct (IH items1 Hh1) as (out & -> & Hpo & Hs).
    { apply Permutation_length in Hp. simpl in Hp. lia. }
    simpl. exists (m :: out). split_and!; [done|by rewrite Hp, Hpo|].
    constructor; [done|]. apply Forall_forall. intros y Hy.
    apply Hmin. rewrite Hp, <- Hpo. by right.
Qed.

(** The elements held by the queue, as a frontier of vertex ids. *)
Definition pq_elements (items : PriorityQueue) : list string :=
  element <$> items.

Lemma enqueue_elements items e p :
  heap_ok items →
  ∃ items', enqueue items e p = Some items' ∧ heap_ok items'
            ∧ items' ≡ₚ mkItem e p :: items
            ∧ pq_elements items' ≡ₚ e :: pq_elements items.
Proof.
  intros Hh. destruct (enqueue_ok items e p Hh) as (items' & ? & ? & Hp).
  exists items'. split_and!; [done..|].
  unfold pq_elements. by rewrite Hp.
Qed.

(** ** Loops *)

Lemma fmap_Done {A B} (f : A → B) (m : outcome A) (b : B) :
  f <$> m = Done b ↔ ∃ a, m = Done a ∧ b = f a.
Proof.
  destruct m; simpl; split; try naive_solver.
Qed.

(** A loop whose iterations keep [Inv] and decrease [μ] returns within
    [μ] iterations, in a result described by [Post]. *)
Lemma run_returns {S R} (step : S → outcome (S + R)) (Inv : S → Prop)
    (μ : S → nat) (Post : R → Prop) :
  (∀ s, Inv s →
        (∃ s', step s = Done (inl s') ∧ Inv s' ∧ (μ s' < μ s)%nat)
        ∨ (∃ r, step s = Done (inr r) ∧ Post r)) →
  ∀ fuel s, Inv s → (μ s < fuel)%nat →
            ∃ r, run step fuel s = Done r ∧ Post r.
Proof.
  intros Hstep fuel. induction fuel as [|fuel IH]; intros s Hs Hlt; [lia|].
  simpl. destruct (Hstep s Hs) as [(s' & -> & Hs' & Hμ)|(r & -> & Hr)].
  - apply IH; [done|lia].
  - eauto.
Qed.

(** [for_each] with an invariant that depends on the elements done. *)
Lemma for_each_inv {S X} (body : S → X → outcome S)
    (I : list X → S → Prop) (xs : list X) (s : S) (P : X → Prop) :
  Forall P xs → I [] s →
  (∀ done x s, P x → I done s →
               ∃ s', body s x = Done s' ∧ I (done ++ [x]) s') →
  ∃ s', for_each body xs s = Done s' ∧ I xs s'.
Proof.
  intros HP Hs Hbody.
  assert (∀ done s, Forall P xs → I done s →
            ∃ s', for_each body xs s = Done s' ∧ I (done ++ xs) s') as Hgen.
  { clear HP Hs s. induction xs as [|x xs IH]; intros done s HP Hs; simpl.
    - rewrite app_nil_r. eauto.
    - apply Forall_cons in HP as [Hx HP].
      destruct (Hbody done x s Hx Hs) as (s1 & -> & Hs1). simpl.
      destruct (IH (done ++ [x]) s1 HP Hs1) as (s2 & -> & Hs2).
      rewrite <- app_assoc in Hs2. eauto. }
  by apply (Hgen [] s).
Qed.

(** ** Graphs, paths and reachability *)

(** The store holds an edge from [u] to [v] of cost [c]. *)
Definition edge_in (g : Graph) (u v : string) (c : Z) : Prop :=
  ∃ es, edges g !! u = Some es ∧ mkEdge v c ∈ es.

(** The invariants that [addNode], [addEdge] and [removeNode] keep: a
    vertex is stored under its own name and every edge leads to a stored
    vertex. *)
Definition wf_graph (g : Graph) : Prop :=
  map_Forall (λ k n, node_name n = k) (nodes g)
  ∧ map_Forall (λ _ es, Forall (λ e, is_Some (nodes g !! edge_to e)) es)
               (edges g).

Definition nonneg_costs (g : Graph) : Prop :=
  map_Forall (λ _ es, Forall (λ e, 0 ≤ edge_cost e) es) (edges g).

#[global] Instance wf_graph_dec g : Decision (wf_graph g).
Proof. unfold wf_graph. apply _. Defined.
#[global] Instance nonneg_costs_dec g : Decision (nonneg_costs g).
Proof. unfold nonneg_costs. apply _. Defined.

Lemma wf_graph_name g k n :
  wf_graph g → nodes g !! k = Some n → node_name n = k.
Proof. intros [H _]. apply H. Qed.

Lemma wf_graph_target g u v c :
  wf_graph g → edge_in g u v c → is_Some (nodes g !! v).
Proof.
  intros [_ H] (es & Hes & Hin). specialize (H _ _ Hes).
  rewrite Forall_forall in H. apply (H _ Hin).
Qed.

Lemma nonneg_costs_edge g u v c : nonneg_costs g → edge_in g u v c → 0 ≤ c.
Proof.
  intros H (es & Hes & Hin). specialize (H _ _ Hes).
  rewrite Forall_forall in H. apply (H _ Hin).
Qed.

(** There is a path from [s] to [v] of total cost [c]. *)
Inductive reach (g : Graph) (s : string) : string → Z → Prop :=
  | reach_here : reach g s s 0
  | reach_edge u v c w :
      reach g s u c → edge_in g u v w → reach g s v (c + w).

Definition reachable (g : Graph) (s v : string) : Prop := ∃ c, reach g s v c.

(** [l] is the vertex sequence of a path of total cost [c]. *)
Inductive is_path (g : Graph) : list string → Z → Prop :=
  | is_path_one v : is_path g [v] 0
  | is_path_cons u v l w c :
      edge_in g u v w → is_path g (v :: l) c →
      is_path g (u :: v :: l) (w + c).

Definition path_between (g : Graph) (s t : string) (l : list string)
    (c : Z) : Prop :=
  is_path g l c ∧ head l = Some s ∧ last l = Some t.

Lemma is_path_snoc g l u v c w :
  is_path g (l ++ [u]) c → edge_in g u v w →
  is_path g ((l ++ [u]) ++ [v]) (c + w).
Proof.
  revert c. induction l as [|a l IH]; intros c Hp He; simpl in *.
  - inversion Hp; subst.
    replace (0 + w) with (w + 0) by lia. repeat constructor. done.
  - inversion Hp as [|? b l' w' c' He' Hp' [Ha Hl]]; subst.
    { by destruct l. }
    specialize (IH c'). rewrite <- Hl in IH. simpl in *.
    replace (w' + c' + w) with (w' + (c' + w)) by lia.
    constructor; [done|]. by apply IH.
Qed.

Lemma reach_cons g u x t w c :
  edge_in g u x w → reach g x t c → reach g u t (w + c).
Proof.
  intros He. induction 1 as [|t' t c w2 _ IH He2].
  - replace (w + 0) with (0 + w) by lia. eapply reach_edge; [constructor|done].
  - replace (w + (c + w2)) with (w + c + w2) by lia. by econstructor.
Qed.

Lemma reach_trans g s u v c1 c2 :
  reach g s u c1 → reach g u v c2 → reach g s v (c1 + c2).
Proof.
  intros H1. induction 1 as [|t' t c w2 _ IH He2].
  - by replace (c1 + 0) with c1 by lia.
  - replace (c1 + (c + w2)) with (c1 + c + w2) by lia. by econstructor.
Qed.

Lemma reach_path g s t c :
  reach g s t c ↔ ∃ l, path_between g s t l c.
Proof.
  split.
  - induction 1 as [|u v c w _ (l & Hp & Hh & Hl) He].
    + exists [s]. split_and!; [constructor|done..].
    + apply last_Some in Hl as [l' ->].
      exists ((l' ++ [u]) ++ [v]). split_and!.
      * by apply is_path_snoc.
      * by destruct l'.
      * by rewrite last_snoc.
  - intros (l & Hp & Hh & Hl). revert s Hh Hl.
    induction Hp as [x|u x l w c He Hp IH]; intros s Hh Hl; simplify_eq/=.
    + constructor.
    + eapply reach_cons; [done|]. by apply IH.
Qed.

Lemma reachable_refl g s : reachable g s s.
Proof. exists 0. constructor. Qed.

Lemma reachable_edge g s u v w :
  reachable g s u → edge_in g u v w → reachable g s v.
Proof. intros [c Hc] He. exists (c + w). by econstructor. Qed.

Lemma reach_nonneg g s v c : nonneg_costs g → reach g s v c → 0 ≤ c.
Proof.
  intros Hn. induction 1 as [|u v c w _ IH He]; [done|].
  pose proof (nonneg_costs_edge _ _ _ _ Hn He). lia.
Qed.

Lemma reachable_in_graph g s v :
  wf_graph g → is_Some (nodes g !! s) → reachable g s v →
  is_Some (nodes g !! v).
Proof.
  intros Hwf Hs [c Hc]. destruct Hc; [done|].
  by eapply wf_graph_target.
Qed.

(** *** Neighbours of a well-formed graph *)

(** The vertex id read by [neighbor.node.name]. *)
Definition nb_target (nb : Neighbor) : string :=
  from_option node_name "" (nb_node nb).

Definition good_nb (g : Graph) (u : string) (nb : Neighbor) : Prop :=
  ∃ nd, nb_node nb = Some nd ∧ nodes g !! node_name nd = Some nd
        ∧ edge_in g u (node_name nd) (nb_cost nb).

Lemma getNeighbors_good g u :
  wf_graph g → Forall (good_nb g u) (getNeighbors g u).
Proof.
  intros Hwf. unfold getNeighbors.
  destruct (edges g !! u) as [es|] eqn:Hes; [|constructor].
  apply Forall_forall. intros nb [e [-> He]]%list_elem_of_fmap.
  assert (edge_in g u (edge_to e) (edge_cost e)) as Hin.
  { exists es. split; [done|]. by destruct e. }
  destruct (wf_graph_target _ _ _ _ Hwf Hin) as [nd Hnd].
  pose proof (wf_graph_name _ _ _ Hwf Hnd) as Hname.
  exists nd. simpl. rewrite Hname. done.
Qed.

Lemma getNeighbors_edge g u v c :
  wf_graph g → edge_in g u v c →
  ∃ nb, nb ∈ getNeighbors g u ∧ nb_target nb = v ∧ nb_cost nb = c.
Proof.
  intros Hwf He. pose proof He as (es & Hes & Hin).
  destruct (wf_graph_target _ _ _ _ Hwf He) as [nd Hnd].
  pose proof (wf_graph_name _ _ _ Hwf Hnd) as Hname.
  exists (mkNeighbor (Some nd) c). unfold getNeighbors. rewrite Hes.
  split_and!; [|done..].
  apply list_elem_of_fmap. exists (mkEdge v c). simpl. by rewrite Hnd.
Qed.

Lemma good_nb_target g u nb :
  good_nb g u nb → edge_in g u (nb_target nb) (nb_cost nb).
Proof. intros (nd & Hnd & _ & He). unfold nb_target. by rewrite Hnd. Qed.

(** *** The fuel that suffices for a search *)

Definition outdeg (g : Graph) (u : string) : nat :=
  length (getNeighbors g u).

Definition weight (g : Graph) (X : gset string) : nat :=
  sum_list ((λ u, S (outdeg g u)) <$> elements X).

(** One more than the number of vertices plus the number of edges. *)
Definition search_bound (g : Graph) : nat :=
  S (S (weight g (dom (nodes g)))).

Lemma weight_remove g X u :
  u ∈ X → weight g X = (S (outdeg g u) + weight g (X ∖ {[u]}))%nat.
Proof.
  intros Hu. unfold weight.
  assert (elements X ≡ₚ u :: elements (X ∖ {[u]})) as ->; [|done].
  rewrite <- elements_union_singleton by set_solver.
  apply elements_proper. intros x. destruct (decide (x = u)); set_solver.
Qed.

Lemma weight_size g X : (size X ≤ weight g X)%nat.
Proof.
  unfold weight. change (size X) with (length (elements X)).
  generalize (elements X). intros l.
  induction l as [|x l IH]; csimpl; lia.
Qed.

Lemma NoDup_length_size (l : list string) (X : gset string) :
  NoDup l → (∀ x, x ∈ l → x ∈ X) → (length l ≤ size X)%nat.
Proof.
  intros Hnd Hsub. change (size X) with (length (elements X)).
  apply submseteq_length, NoDup_submseteq; [done|].
  intros x Hx. apply elem_of_elements. auto.
Qed.

(** ** Predecessor chains and [buildResult] *)

(** [chain parent v l]: following [parent] backwards from [v] ends at an
    entry [null], and [l] lists the vertices met, root first. *)
Inductive chain (parent : ParentMap) : string → list string → Prop :=
  | chain_root v : parent !! v = Some None → chain parent v [v]
  | chain_next v p l :
      parent !! v = Some (Some p) → chain parent p l →
      chain parent v (l ++ [v]).

Lemma chain_last parent v l : chain parent v l → last l = Some v.
Proof. destruct 1; [done|]. by rewrite last_snoc. Qed.

Lemma chain_functional parent v l1 l2 :
  chain parent v l1 → chain parent v l2 → l1 = l2.
Proof.
  intros H1. revert l2. induction H1 as [v Hv|v p l Hv _ IH]; intros l2 H2.
  - destruct H2; congruence.
  - destruct H2 as [|v p' l' Hv' H2]; [congruence|].
    assert (p' = p) as -> by congruence. by rewrite (IH _ H2).
Qed.

Lemma chain_prefix parent v l x :
  chain parent v l → x ∈ l →
  ∃ l', chain parent x l' ∧ (length l' ≤ length l)%nat.
Proof.
  induction 1 as [v Hv|v p l Hv Hc IH]; intros Hx.
  - apply list_elem_of_singleton in Hx as ->.
    exists [v]. split; [by constructor|done].
  - rewrite length_app. simpl.
    apply elem_of_app in Hx as [Hx|Hx].
    + destruct (IH Hx) as (l' & ? & ?). exists l'. split; [done|lia].
    + apply list_elem_of_singleton in Hx as ->.
      exists (l ++ [v]). split; [by econstructor|].
      rewrite length_app. simpl. lia.
Qed.

Lemma chain_NoDup parent v l : chain parent v l → NoDup l.
Proof.
  induction 1 as [v Hv|v p l Hv Hc IH].
  - apply NoDup_singleton.
  - apply NoDup_app. split_and!; [done| |apply NoDup_singleton].
    intros x Hx ->%list_elem_of_singleton.
    destruct (chain_prefix _ _ _ _ Hc Hx) as (l' & Hl' & Hlen).
    assert (l' = l ++ [v]) as ->.
    { eapply chain_functional; [done|by econstructor]. }
    rewrite length_app in Hlen. simpl in Hlen. lia.
Qed.

Lemma chain_is_Some parent v l x :
  chain parent v l → x ∈ l → is_Some (parent !! x).
Proof.
  intros Hc Hx. destruct (chain_prefix _ _ _ _ Hc Hx) as (l' & Hl' & _).
  destruct Hl'; eauto.
Qed.

Lemma chain_insert parent v l x o :
  chain parent v l → x ∉ l → chain (<[x := o]> parent) v l.
Proof.
  induction 1 as [v Hv|v p l Hv Hc IH]; intros Hx.
  - constructor. rewrite lookup_insert_ne; [done|]. set_solver.
  - econstructor.
    + rewrite lookup_insert_ne; [done|]. set_solver.
    + apply IH. set_solver.
Qed.

Lemma reconstruct_chain parent v l fuel acc :
  chain parent v l → (length l ≤ fuel)%nat →
  reconstruct fuel parent v acc = Done (l ++ acc).
Proof.
  intros Hc. revert fuel acc.
  induction Hc as [v Hv|v p l Hv Hc IH]; intros fuel acc Hlen.
  - destruct fuel; simpl in *; [lia|]. by rewrite Hv.
  - rewrite length_app in Hlen. simpl in Hlen.
    destruct fuel; simpl in *; [lia|]. rewrite Hv.
    rewrite IH by lia. by rewrite <- app_assoc.
Qed.

(** The predecessor map leads every vertex it holds back to [start],
    along edges of the store. *)
Record parent_ok (g : Graph) (start : string) (parent : ParentMap) : Prop :=
  { po_chain : ∀ v, is_Some (parent !! v) → ∃ l, chain parent v l;
    po_root : ∀ v, parent !! v = Some None → v = start;
    po_edge : ∀ v p, parent !! v = Some (Some p) → ∃ w, edge_in g p v w }.

Lemma chain_path g start parent v l :
  parent_ok g start parent → chain parent v l →
  ∃ c, path_between g start v l c.
Proof.
  intros [_ Hroot Hedge]. induction 1 as [v Hv|v p l Hv Hc IH].
  - apply Hroot in Hv as ->. exists 0. split_and!; [constructor|done..].
  - destruct IH as (c & Hp & Hh & Hl).
    destruct (Hedge _ _ Hv) as [w Hw].
    apply last_Some in Hl as [l' ->].
    exists (c + w). split_and!.
    + by apply is_path_snoc.
    + by destruct l'.
    + by rewrite last_snoc.
Qed.

Lemma parent_ok_reachable g start parent v :
  parent_ok g start parent → is_Some (parent !! v) → reachable g start v.
Proof.
  intros Hok Hv. destruct (po_chain _ _ _ Hok v Hv) as [l Hl].
  destruct (chain_path _ _ _ _ _ Hok Hl) as [c Hc].
  exists c. apply reach_path. eauto.
Qed.

Lemma parent_ok_init g start : parent_ok g start {[start := None]}.
Proof.
  split.
  - intros v [o Hv]. apply lookup_singleton_Some in Hv as [<- <-].
    exists [start]. constructor. apply lookup_singleton_eq.
  - intros v Hv. by apply lookup_singleton_Some in Hv as [<- _].
  - intros v p Hv. by apply lookup_singleton_Some in Hv as [_ ?].
Qed.

(** A vertex that has no entry yet gets the expanded vertex as parent. *)
Lemma parent_ok_fresh g start parent v cur w :
  parent_ok g start parent → parent !! v = None →
  is_Some (parent !! cur) → edge_in g cur v w →
  parent_ok g start (<[v := Some cur]> parent).
Proof.
  intros Hok Hv Hcur He.
  assert (∀ x l, chain parent x l → chain (<[v := Some cur]> parent) x l)
    as Hkeep.
  { intros x l Hc. apply chain_insert; [done|]. intros Hx.
    destruct (chain_is_Some _ _ _ _ Hc Hx) as [? ?]. congruence. }
  split.
  - intros x Hx. destruct (decide (x = v)) as [->|Hne].
    + destruct (po_chain _ _ _ Hok cur Hcur) as [l Hl].
      exists (l ++ [v]). econstructor; [apply lookup_insert_eq|eauto].
    + rewrite lookup_insert_ne in Hx by done.
      destruct (po_chain _ _ _ Hok x Hx) as [l Hl]. eauto.
  - intros x Hx. destruct (decide (x = v)) as [->|Hne].
    + by rewrite lookup_insert_eq in Hx.
    + rewrite lookup_insert_ne in Hx by done. by eapply po_root.
  - intros x p Hx. destruct (decide (x = v)) as [->|Hne].
    + rewrite lookup_insert_eq in Hx. simplify_eq. eauto.
    + rewrite lookup_insert_ne in Hx by done. by eapply po_edge.
Qed.

(** [find] succeeds on the neighbours of a well-formed graph. *)
Lemma find_neighbor_good g u nbs target :
  Forall (good_nb g u) nbs →
  ∃ r, find_neighbor nbs target = Done r ∧
    match r with
    | Some nb => nb ∈ nbs ∧ nb_target nb = target
    | None => ∀ nb, nb ∈ nbs → nb_target nb ≠ target
    end.
Proof.
  induction 1 as [|nb nbs (nd & Hnd & _) _ IH]; simpl.
  - eexists; split; [done|]. intros nb Hnb. by apply elem_of_nil in Hnb.
  - rewrite Hnd. simpl. case_decide as Hname.
    + eexists; split; [done|]. split; [by left|].
      unfold nb_target. by rewrite Hnd.
    + destruct IH as (r & -> & Hr). eexists; split; [done|].
      destruct r as [nb'|].
      * destruct Hr. split; [by right|done].
      * intros nb' [->|Hin]%elem_of_cons; [|by apply Hr].
        unfold nb_target. by rewrite Hnd.
Qed.

Lemma manualCost_cons g a b l acc :
  manualCost g (a :: b :: l) acc =
    neighbor ← find_neighbor (getNeighbors g a) b;
    manualCost g (b :: l)
      (match neighbor with
       | Some n => acc + nb_cost n
       | None => acc
       end).
Proof. done. Qed.

(** The cost summed by [buildResult] is the cost of the path, edge by
    edge. *)
Lemma manualCost_path g l c0 acc :
  wf_graph g → is_path g l c0 →
  ∃ c, manualCost g l acc = Done (acc + c) ∧ is_path g l c.
Proof.
  intros Hwf Hp. revert acc.
  induction Hp as [v|u v l w c He Hp IH]; intros acc.
  - exists 0. simpl. split; [f_equal; lia|constructor].
  - rewrite manualCost_cons.
    destruct (find_neighbor_good g u (getNeighbors g u) v
                (getNeighbors_good g u Hwf)) as (r & -> & Hr).
    unfold mbind, outcome_mbind, obind. destruct r as [nb|].
    + destruct Hr as [Hin Ht].
      destruct (IH (acc + nb_cost nb)) as (c' & -> & Hp').
      exists (nb_cost nb + c'). split; [f_equal; lia|].
      constructor; [|done]. rewrite <- Ht. apply good_nb_target.
      pose proof (getNeighbors_good g u Hwf) as Hall.
      rewrite Forall_forall in Hall. by apply Hall.
    + destruct (getNeighbors_edge g u v w Hwf He) as (nb & Hin & Ht & _).
      by destruct (Hr nb Hin).
Qed.

(** ** The invariant shared by the five strategies *)

(** [F] is the frontier (queue, stack or heap contents), [V] the set of
    vertices explored so far, [E] the explored order and [P] the
    predecessor map. *)
Record SInv (g : Graph) (start goal : string) (F : list string)
    (V : gset string) (E : list string) (P : ParentMap) : Prop :=
  { si_nodup : NoDup E;
    si_set : ∀ v, v ∈ V ↔ v ∈ E;
    si_reach : ∀ v, v ∈ F ∨ v ∈ V → reachable g start v;
    si_start : start ∈ V ∨ start ∈ F;
    si_closed : ∀ u v w, u ∈ V → edge_in g u v w → v ∈ V ∨ v ∈ F;
    si_goal : goal ∉ V;
    si_parent : ∀ v, v ∈ F ∨ v ∈ V → is_Some (P !! v) }.

Definition measure (g : Graph) (F : list string) (V : gset string) : nat :=
  (length F + weight g (dom (nodes g) ∖ V))%nat.

Lemma SInv_init g start goal :
  SInv g start goal [start] ∅ [] {[start := None]}.
Proof.
  split.
  - constructor.
  - intros v. set_solver.
  - intros v [->%list_elem_of_singleton|Hv]; [apply reachable_refl|set_solver].
  - right. by left.
  - set_solver.
  - set_solver.
  - intros v [->%list_elem_of_singleton|Hv]; [|set_solver].
    rewrite lookup_singleton_eq. eauto.
Qed.

Lemma measure_init g start :
  (measure g [start] ∅ < search_bound g)%nat.
Proof.
  unfold measure, search_bound. simpl.
  replace (dom (nodes g) ∖ ∅) with (dom (nodes g)) by set_solver. lia.
Qed.

Lemma SInv_skip g start goal F V E P cur F' :
  SInv g start goal F V E P → F ≡ₚ cur :: F' → cur ∈ V →
  SInv g start goal F' V E P ∧ (measure g F' V < measure g F V)%nat.
Proof.
  intros [H1 H2 H3 H4 H5 H6 H7] HF Hcur. split; [split|]; try done.
  - intros v [Hv|Hv]; apply H3; [left|by right].
    rewrite HF. by right.
  - destruct H4 as [?|Hs]; [by left|].
    rewrite HF in Hs. apply elem_of_cons in Hs as [->|?]; eauto.
  - intros u v w Hu He. destruct (H5 u v w Hu He) as [?|Hv]; [by left|].
    rewrite HF in Hv. apply elem_of_cons in Hv as [->|?]; eauto.
  - intros v [Hv|Hv]; apply H7; [left|by right].
    rewrite HF. by right.
  - unfold measure. apply Permutation_length in HF. simpl in HF. lia.
Qed.

Lemma SInv_expand g start goal F V E P cur F0 F' P' :
  wf_graph g → is_Some (nodes g !! start) →
  SInv g start goal F V E P → F ≡ₚ cur :: F0 → cur ∉ V → cur ≠ goal →
  (∀ v, v ∈ F0 → v ∈ F') →
  (∀ v, v ∈ F' → v ∈ F0 ∨ ∃ w, edge_in g cur v w) →
  (∀ v w, edge_in g cur v w → v ∈ V ∨ v = cur ∨ v ∈ F') →
  (length F' ≤ length F0 + outdeg g cur)%nat →
  (∀ v, v ∈ F' ∨ v ∈ V ∨ v = cur → is_Some (P' !! v)) →
  SInv g start goal F' ({[cur]} ∪ V) (E ++ [cur]) P'
  ∧ (measure g F' ({[cur]} ∪ V) < measure g F V)%nat.
Proof.
  intros Hwf Hstart [H1 H2 H3 H4 H5 H6 H7] HF Hcur Hgoal Hkeep Hnew Hcov
    Hlen HP.
  assert (reachable g start cur) as Hrc.
  { apply H3. left. rewrite HF. by left. }
  split; [split|].
  - apply NoDup_app. split_and!; [done| |apply NoDup_singleton].
    intros x Hx ->%list_elem_of_singleton. apply Hcur. by apply H2.
  - intros v. rewrite elem_of_union, elem_of_singleton, elem_of_app,
      list_elem_of_singleton, H2. tauto.
  - intros v [Hv|Hv].
    + destruct (Hnew v Hv) as [?|[w Hw]].
      * apply H3. left. rewrite HF. by right.
      * by eapply reachable_edge.
    + apply elem_of_union in Hv as [->%elem_of_singleton|?]; [done|].
      apply H3. by right.
  - destruct H4 as [?|Hs]; [left; set_solver|].
    rewrite HF in Hs. apply elem_of_cons in Hs as [->|?]; [left; set_solver|].
    right. by apply Hkeep.
  - intros u v w Hu He.
    apply elem_of_union in Hu as [->%elem_of_singleton|Hu].
    + destruct (Hcov v w He) as [?|[->|?]]; [left; set_solver..|by right].
    + destruct (H5 u v w Hu He) as [?|Hv]; [left; set_solver|].
      rewrite HF in Hv. apply elem_of_cons in Hv as [->|?].
      * left; set_solver.
      * right. by apply Hkeep.
  - set_solver.
  - intros v [Hv|Hv]; apply HP; [by left|].
    apply elem_of_union in Hv as [->%elem_of_singleton|?]; eauto.
  - unfold measure.
    assert (cur ∈ dom (nodes g) ∖ V) as Hin.
    { apply elem_of_difference. split; [|done]. apply elem_of_dom.
      by eapply reachable_in_graph. }
    rewrite (weight_remove g _ cur Hin).
    replace (dom (nodes g) ∖ ({[cur]} ∪ V))
      with (dom (nodes g) ∖ V ∖ {[cur]}) by set_solver.
    apply Permutation_length in HF. simpl in HF. lia.
Qed.

Lemma SInv_exhausted g start goal V E P :
  SInv g start goal [] V E P →
  ¬ reachable g start goal ∧ ∀ v, reachable g start v → v ∈ E.
Proof.
  intros [H1 H2 H3 H4 H5 H6 H7].
  assert (∀ v, reachable g start v → v ∈ V) as Hall.
  { intros v [c Hc]. induction Hc as [|u v c w _ IH He].
    - destruct H4 as [?|Hs]; [done|]. by apply elem_of_nil in Hs.
    - destruct (H5 u v w IH He) as [?|Hv]; [done|].
      by apply elem_of_nil in Hv. }
  split.
  - intros Hr. by apply H6, Hall.
  - intros v Hv. by apply H2, Hall.
Qed.

(** What every strategy promises about the [Result] it returns. *)
Record search_post (g : Graph) (start goal : string) (r : Result) : Prop :=
  { sp_nodup : NoDup (exploredOrder r);
    sp_count : nodesExplored r = length (exploredOrder r);
    sp_sound : ∀ v, v ∈ exploredOrder r → reachable g start v;
    sp_found :
      found r = true →
      last (exploredOrder r) = Some goal
      ∧ ∃ c, path_between g start goal (path r) c;
    sp_missing :
      found r = false →
      path r = [] ∧ pathCost r = 0 ∧ ¬ reachable g start goal
      ∧ ∀ v, reachable g start v → v ∈ exploredOrder r }.

Lemma buildResult_missing g fuel start goal F V E P :
  SInv g start goal F V E P → F = [] →
  ∃ r, buildResult g fuel start goal P E false None = Done r
       ∧ search_post g start goal r ∧ found r = false.
Proof.
  intros HI ->. eexists. split; [done|].
  destruct (SInv_exhausted _ _ _ _ _ _ HI) as [Hg Hall].
  split; [split|done]; simpl; try done.
  - apply HI.
  - intros v Hv. apply (si_reach _ _ _ _ _ _ _ HI). right.
    by apply (si_set _ _ _ _ _ _ _ HI).
Qed.

Lemma chain_length_bound g start parent v l :
  wf_graph g → is_Some (nodes g !! start) → parent_ok g start parent →
  chain parent v l → (length l < search_bound g)%nat.
Proof.
  intros Hwf Hs Hok Hc.
  assert (length l ≤ size (dom (nodes g)))%nat.
  { apply NoDup_length_size; [by eapply chain_NoDup|].
    intros x Hx. apply elem_of_dom.
    eapply reachable_in_graph; [done..|].
    eapply parent_ok_reachable; [done|]. by eapply chain_is_Some. }
  pose proof (weight_size g (dom (nodes g))). unfold search_bound. lia.
Qed.

(** The exit taken when the goal is popped. *)
Lemma buildResult_found g fuel start goal F V E P F' costMap :
  wf_graph g → is_Some (nodes g !! start) → (search_bound g ≤ fuel)%nat →
  SInv g start goal F V E P → parent_ok g start P →
  F ≡ₚ goal :: F' → goal ∉ V →
  ∃ r l, buildResult g fuel start goal P (E ++ [goal]) true costMap = Done r
    ∧ search_post g start goal r ∧ found r = true
    ∧ chain P goal l ∧ path r = l
    ∧ match costMap with
      | Some m => pathCost r = default 0 (m !! goal)
      | None => is_path g l (pathCost r)
      end.
Proof.
  intros Hwf Hs Hfuel HI Hok HF Hgoal.
  assert (goal ∈ F) as HgF by (rewrite HF; by left).
  assert (is_Some (P !! goal)) as HPg.
  { apply (si_parent _ _ _ _ _ _ _ HI). by left. }
  destruct (po_chain _ _ _ Hok goal HPg) as [l Hl].
  destruct (chain_path _ _ _ _ _ Hok Hl) as [c Hc].
  pose proof (chain_length_bound _ _ _ _ _ Hwf Hs Hok Hl) as Hlen.
  assert (∃ pc, (match costMap with
                 | Some costMap => Done (default 0 (costMap !! goal))
                 | None => manualCost g l 0
                 end) = Done pc
                ∧ match costMap with
                  | Some m => pc = default 0 (m !! goal)
                  | None => is_path g l pc
                  end) as (pc & Hpc & Hpc').
  { destruct costMap as [m|]; [eauto|].
    destruct (manualCost_path g l c 0 Hwf) as (c' & Hc' & Hp'); [apply Hc|].
    exists c'. by rewrite Hc', Z.add_0_l. }
  exists (mkResult true l pc (length (E ++ [goal])) (E ++ [goal])), l.
  split.
  { unfold buildResult. rewrite bool_decide_true by done. simpl.
    rewrite (reconstruct_chain _ _ l) by (done || lia). rewrite app_nil_r.
    simpl. rewrite Hpc. done. }
  split_and!; try done.
  split; simpl; try done.
  - apply NoDup_app. split_and!; [apply HI| |apply NoDup_singleton].
    intros x Hx ->%list_elem_of_singleton. apply Hgoal.
    by apply (si_set _ _ _ _ _ _ _ HI).
  - intros v [Hv| ->%list_elem_of_singleton]%elem_of_app.
    + apply (si_reach _ _ _ _ _ _ _ HI). right.
      by apply (si_set _ _ _ _ _ _ _ HI).
    + apply (si_reach _ _ _ _ _ _ _ HI). by left.
  - intros _. rewrite last_snoc. split; [done|].
    destruct costMap; eauto.
Qed.

(** ** bfs *)

Lemma list_to_set_snoc (E : list string) (x : string) :
  list_to_set (E ++ [x]) =@{gset string} {[x]} ∪ list_to_set E.
Proof. rewrite list_to_set_app_L. set_solver. Qed.

Record BInv (g : Graph) (start goal : string) (st : bfs_state) : Prop :=
  { bi_core :
      SInv g start goal (bfs_queue st)
           (list_to_set (bfs_exploredOrder st)) (bfs_exploredOrder st)
           (bfs_parent st);
    bi_parent : parent_ok g start (bfs_parent st);
    bi_nodup : NoDup (bfs_exploredOrder st ++ bfs_queue st);
    bi_visited :
      ∀ v, v ∈ bfs_visited st ↔
           v ∈ bfs_exploredOrder st ∨ v ∈ bfs_queue st;
    bi_dom : ∀ v, is_Some (bfs_parent st !! v) ↔ v ∈ bfs_visited st }.

Lemma bfs_neighbor_good g cur st nb :
  good_nb g cur nb →
  bfs_neighbor cur st nb =
    if decide (nb_target nb ∈ bfs_visited st) then Done st
    else Done (BfsState (bfs_queue st ++ [nb_target nb])
                        ({[nb_target nb]} ∪ bfs_visited st)
                        (<[nb_target nb := Some cur]> (bfs_parent st))
                        (bfs_exploredOrder st)).
Proof.
  intros (nd & Hnd & _). unfold bfs_neighbor, nb_target. by rewrite Hnd.
Qed.

Lemma bfs_neighbors_ok g start cur nbs st :
  Forall (good_nb g cur) nbs →
  parent_ok g start (bfs_parent st) →
  cur ∈ bfs_visited st →
  (∀ v, is_Some (bfs_parent st !! v) ↔ v ∈ bfs_visited st) →
  ∃ st' pushed,
    for_each (bfs_neighbor cur) nbs st = Done st'
    ∧ bfs_queue st' = bfs_queue st ++ pushed
    ∧ bfs_exploredOrder st' = bfs_exploredOrder st
    ∧ NoDup pushed
    ∧ (∀ v, v ∈ pushed →
            v ∉ bfs_visited st ∧ ∃ nb, nb ∈ nbs ∧ nb_target nb = v)
    ∧ (length pushed ≤ length nbs)%nat
    ∧ (∀ v, v ∈ bfs_visited st' ↔ v ∈ bfs_visited st ∨ v ∈ pushed)
    ∧ (∀ nb, nb ∈ nbs → nb_target nb ∈ bfs_visited st')
    ∧ parent_ok g start (bfs_parent st')
    ∧ (∀ v, is_Some (bfs_parent st' !! v) ↔ v ∈ bfs_visited st').
Proof.
  intros Hnbs. revert st.
  induction Hnbs as [|nb nbs Hnb _ IH]; intros st Hok Hcur Hdom.
  { exists st, []. simpl. rewrite app_nil_r.
    split_and!; try done; try constructor; set_solver. }
  pose proof (good_nb_target _ _ _ Hnb) as Hedge.
  cbn [for_each]. rewrite (bfs_neighbor_good g) by done.
  set (t := nb_target nb) in *.
  case_decide as Hvis; cbn [mbind outcome_mbind obind].
  - destruct (IH st Hok Hcur Hdom)
      as (st' & pushed & -> & ? & ? & ? & Hp & ? & Hv & Hcov & ? & ?).
    exists st', pushed. split_and!; try done.
    + intros v Hv'. destruct (Hp v Hv') as [? (nb' & ? & ?)].
      split; [done|]. exists nb'. split; [by right|done].
    + simpl. lia.
    + intros nb' [->|?]%elem_of_cons; [|by apply Hcov].
      apply Hv. by left.
  - set (st1 := BfsState _ _ _ _).
    destruct (IH st1) as (st' & pushed & -> & Hq & HE & Hnd' & Hp & ? & Hv
                          & Hcov & ? & ?).
    { simpl. eapply parent_ok_fresh; [done| | |done].
      - apply eq_None_not_Some. by rewrite Hdom.
      - by apply Hdom. }
    { simpl. set_solver. }
    { intros v. simpl. rewrite elem_of_union, elem_of_singleton, <- Hdom.
      destruct (decide (v = t)) as [->|Hne].
      - rewrite lookup_insert_eq. naive_solver.
      - rewrite lookup_insert_ne by done. naive_solver. }
    exists st', (t :: pushed). simpl in *. split_and!; try done.
    + by rewrite Hq, <- app_assoc.
    + constructor; [|done]. intros Hin. destruct (Hp _ Hin) as [Hn _].
      set_solver.
    + intros v [->|Hin]%elem_of_cons.
      * split; [done|]. exists nb. split; [by left|done].
      * destruct (Hp v Hin) as [Hn (nb' & ? & ?)]. split; [set_solver|].
        exists nb'. split; [by right|done].
    + lia.
    + intros v. rewrite Hv, elem_of_cons. set_solver.
    + intros nb' [->|?]%elem_of_cons; [|by apply Hcov].
      apply Hv. left. set_solver.
Qed.

Lemma BInv_init g start goal : BInv g start goal (bfs_init start).
Proof.
  split; simpl.
  - apply SInv_init.
  - apply parent_ok_init.
  - apply NoDup_singleton.
  - set_solver.
  - intros v. rewrite elem_of_singleton. split.
    + intros [o Ho]. by apply lookup_singleton_Some in Ho as [<- _].
    + intros ->. rewrite lookup_singleton_eq. eauto.
Qed.

Definition bfs_measure (g : Graph) (st : bfs_state) : nat :=
  measure g (bfs_queue st) (list_to_set (bfs_exploredOrder st)).

(** What [bfs] and [dfs] add to [search_post]: the cost they sum is the
    cost of the returned path. *)
Definition path_post (g : Graph) (start goal : string) (r : Result) : Prop :=
  search_post g start goal r
  ∧ (found r = true → is_path g (path r) (pathCost r)).

Lemma bfs_step_ok g fuel start goal st :
  wf_graph g → is_Some (nodes g !! start) → (search_bound g ≤ fuel)%nat →
  BInv g start goal st →
  (∃ st', bfs_step g fuel start goal st = Done (inl st')
          ∧ BInv g start goal st'
          ∧ (bfs_measure g st' < bfs_measure g st)%nat)
  ∨ (∃ r, bfs_step g fuel start goal st = Done (inr r)
          ∧ path_post g start goal r).
Proof.
  intros Hwf Hs Hfuel [Hcore Hok Hnd Hvis Hdom].
  unfold bfs_step, bfs_measure.
  destruct st as [queue visited parent E].
  cbn [bfs_queue bfs_visited bfs_parent bfs_exploredOrder] in *.
  destruct queue as [|cur queue].
  { right.
    destruct (buildResult_missing g fuel start goal _ _ _ _ Hcore eq_refl)
      as (r & -> & Hp & Hf).
    exists r. split; [done|]. split; [done|]. by rewrite Hf. }
  assert (cur ∉ (list_to_set E : gset string)) as HcurE.
  { rewrite elem_of_list_to_set. intros Hin.
    apply NoDup_app in Hnd as (_ & Hnd & _). apply (Hnd _ Hin). by left. }
  case_decide as Hgoal.
  { right. subst cur.
    destruct (buildResult_found g fuel start goal _ _ _ _ queue None
                Hwf Hs Hfuel Hcore Hok) as (r & l & -> & Hp & Hf & _ & <- & Hc);
      [done..|].
    exists r. split; [done|]. by split. }
  left.
  destruct (bfs_neighbors_ok g start cur (getNeighbors g cur)
              (BfsState queue visited parent (E ++ [cur])))
    as (st' & pushed & -> & Hq & HE & Hndp & Hp & Hlen & Hv & Hcov & Hok'
        & Hdom'); simpl; try done.
  { by apply getNeighbors_good. }
  { apply Hvis. right. by left. }
  exists st'. split; [done|].
  destruct st' as [queue' visited' parent' E']. simpl in *. subst queue' E'.
  assert (∀ v, v ∈ pushed → ∃ w, edge_in g cur v w) as Hpe.
  { intros v Hin. destruct (Hp v Hin) as [_ (nb & Hnb & <-)].
    eexists. apply good_nb_target.
    pose proof (getNeighbors_good g cur Hwf) as Hall.
    rewrite Forall_forall in Hall. by apply Hall. }
  destruct (SInv_expand g start goal (cur :: queue) (list_to_set E) E parent
              cur queue (queue ++ pushed) parent' Hwf Hs Hcore)
    as [Hcore' Hμ]; try done.
  { intros v Hin. apply elem_of_app. by left. }
  { intros v [?|Hin]%elem_of_app; [by left|right; by apply Hpe]. }
  { intros v w He.
    destruct (getNeighbors_edge g cur v w Hwf He) as (nb & Hnb & <- & _).
    specialize (Hcov nb Hnb). apply Hv in Hcov as [Hcov|Hcov].
    - apply Hvis in Hcov as [?|[->|?]%elem_of_cons].
      + left. by apply elem_of_list_to_set.
      + by right; left.
      + right; right. apply elem_of_app. by left.
    - right; right. apply elem_of_app. by right. }
  { rewrite length_app. unfold outdeg. lia. }
  { intros v Hin. apply Hdom', Hv.
    destruct Hin as [[?|?]%elem_of_app|[Hin| ->]].
    - left. apply Hvis. right. by right.
    - by right.
    - left. apply Hvis. left. by apply elem_of_list_to_set in Hin.
    - left. apply Hvis. right. by left. }
  split; [|by rewrite list_to_set_snoc].
  split; cbn [bfs_queue bfs_visited bfs_parent bfs_exploredOrder]; try done.
  - by rewrite list_to_set_snoc.
  - rewrite <- app_assoc. simpl.
    apply NoDup_app in Hnd as (HndE & Hdisj & Hndq).
    apply NoDup_cons in Hndq as [Hcq Hndq].
    apply NoDup_app. split_and!; [done| |].
    + intros x Hx [->|[?|Hin]%elem_of_app]%elem_of_cons.
      * apply HcurE. by apply elem_of_list_to_set.
      * apply (Hdisj x Hx). by right.
      * destruct (Hp x Hin) as [Hn _]. apply Hn, Hvis. by left.
    + apply NoDup_cons. split.
      * intros [?|Hin]%elem_of_app; [done|].
        destruct (Hp cur Hin) as [Hn _]. apply Hn, Hvis. right. by left.
      * apply NoDup_app. split_and!; [done| |done].
        intros x Hx Hin. destruct (Hp x Hin) as [Hn _].
        apply Hn, Hvis. right. by right.
  - intros v. rewrite Hv, Hvis, !elem_of_app, elem_of_cons,
      list_elem_of_singleton. tauto.
Qed.

Theorem bfs_correct g fuel start goal :
  wf_graph g → is_Some (nodes g !! start) → (search_bound g ≤ fuel)%nat →
  ∃ r, bfs g fuel start goal = Done r ∧ path_post g start goal r.
Proof.
  intros Hwf Hs Hfuel. unfold bfs.
  apply (run_returns _ (BInv g start goal) (bfs_measure g)).
  - intros st Hst. by apply bfs_step_ok.
  - apply BInv_init.
  - pose proof (measure_init g start). unfold bfs_measure. simpl in *. lia.
Qed.

(** ** dfs *)

Record DInv (g : Graph) (start goal : string) (st : dfs_state) : Prop :=
  { di_core :
      SInv g start goal (dfs_stack st) (dfs_visited st)
           (dfs_exploredOrder st) (dfs_parent st);
    di_parent : parent_ok g start (dfs_parent st) }.

Lemma dfs_neighbor_good g cur st nb :
  good_nb g cur nb →
  dfs_neighbor cur st nb =
    if decide (nb_target nb ∈ dfs_visited st) then Done st
    else Done (DfsState (nb_target nb :: dfs_stack st)
                        (dfs_visited st)
                        (match dfs_parent st !! nb_target nb with
                         | Some _ => dfs_parent st
                         | None =>
                             <[nb_target nb := Some cur]> (dfs_parent st)
                         end)
                        (dfs_exploredOrder st)).
Proof.
  intros (nd & Hnd & _). unfold dfs_neighbor, nb_target. by rewrite Hnd.
Qed.

Lemma dfs_neighbors_ok g start cur nbs st :
  Forall (good_nb g cur) nbs →
  parent_ok g start (dfs_parent st) →
  is_Some (dfs_parent st !! cur) →
  ∃ st' pushed,
    for_each (dfs_neighbor cur) nbs st = Done st'
    ∧ dfs_stack st' = pushed ++ dfs_stack st
    ∧ dfs_visited st' = dfs_visited st
    ∧ dfs_exploredOrder st' = dfs_exploredOrder st
    ∧ (∀ v, v ∈ pushed → ∃ nb, nb ∈ nbs ∧ nb_target nb = v)
    ∧ (length pushed ≤ length nbs)%nat
    ∧ (∀ nb, nb ∈ nbs →
             nb_target nb ∈ dfs_visited st ∨ nb_target nb ∈ pushed)
    ∧ parent_ok g start (dfs_parent st')
    ∧ (∀ v, is_Some (dfs_parent st !! v) → is_Some (dfs_parent st' !! v))
    ∧ (∀ v, v ∈ pushed → is_Some (dfs_parent st' !! v)).
Proof.
  intros Hnbs. revert st.
  induction Hnbs as [|nb nbs Hnb _ IH]; intros st Hok Hcur.
  { exists st, []. simpl. split_and!; try done.
    - intros v Hv. by apply elem_of_nil in Hv.
    - intros nb Hnb. by apply elem_of_nil in Hnb.
    - intros v Hv. by apply elem_of_nil in Hv. }
  pose proof (good_nb_target _ _ _ Hnb) as Hedge.
  cbn [for_each]. rewrite (dfs_neighbor_good g) by done.
  set (t := nb_target nb) in *.
  case_decide as Hvis; cbn [mbind outcome_mbind obind].
  - destruct (IH st Hok Hcur)
      as (st' & pushed & -> & ? & ? & ? & Hp & ? & Hcov & ? & ? & ?).
    exists st', pushed. split_and!; try done.
    + intros v Hv. destruct (Hp v Hv) as (nb' & ? & ?).
      exists nb'. split; [by right|done].
    + simpl. lia.
    + intros nb' [->|?]%elem_of_cons; [by left|by apply Hcov].
  - set (P1 := match dfs_parent st !! t with
               | Some _ => dfs_parent st
               | None => <[t := Some cur]> (dfs_parent st)
               end).
    assert (parent_ok g start P1 ∧ is_Some (P1 !! t)
            ∧ ∀ v, is_Some (dfs_parent st !! v) → is_Some (P1 !! v))
      as (Hok1 & Ht1 & Hmono1).
    { unfold P1. destruct (dfs_parent st !! t) eqn:Hpt.
      - split_and!; [done|by rewrite Hpt|done].
      - split_and!.
        + by eapply parent_ok_fresh.
        + rewrite lookup_insert_eq. eauto.
        + intros v Hv. rewrite lookup_insert_ne; [done|].
          intros ->. rewrite Hpt in Hv. by destruct Hv. }
    destruct (IH (DfsState (t :: dfs_stack st) (dfs_visited st) P1
                           (dfs_exploredOrder st)))
      as (st' & pushed & -> & Hq & ? & ? & Hp & ? & Hcov & ? & Hmono & Hpd);
      simpl; [done|by apply Hmono1|].
    exists st', (pushed ++ [t]). simpl in *. split_and!; try done.
    + by rewrite Hq, <- app_assoc.
    + intros v [Hin| ->%list_elem_of_singleton]%elem_of_app.
      * destruct (Hp v Hin) as (nb' & ? & ?). exists nb'.
        split; [by right|done].
      * exists nb. split; [by left|done].
    + rewrite length_app. simpl. lia.
    + intros nb' [->|Hin]%elem_of_cons.
      * right. apply elem_of_app. right. by left.
      * destruct (Hcov nb' Hin); [by left|right].
        apply elem_of_app. by left.
    + intros v Hv. by apply Hmono, Hmono1.
    + intros v [Hin| ->%list_elem_of_singleton]%elem_of_app.
      * by apply Hpd.
      * by apply Hmono.
Qed.

Lemma DInv_init g start goal : DInv g start goal (dfs_init start).
Proof. split; simpl; [apply SInv_init|apply parent_ok_init]. Qed.

Definition dfs_measure (g : Graph) (st : dfs_state) : nat :=
  measure g (dfs_stack st) (dfs_visited st).

Lemma dfs_step_ok g fuel start goal st :
  wf_graph g → is_Some (nodes g !! start) → (search_bound g ≤ fuel)%nat →
  DInv g start goal st →
  (∃ st', dfs_step g fuel start goal st = Done (inl st')
          ∧ DInv g start goal st'
          ∧ (dfs_measure g st' < dfs_measure g st)%nat)
  ∨ (∃ r, dfs_step g fuel start goal st = Done (inr r)
          ∧ path_post g start goal r).
Proof.
  intros Hwf Hs Hfuel [Hcore Hok].
  unfold dfs_step, dfs_measure.
  destruct st as [stack visited parent E].
  cbn [dfs_stack dfs_visited dfs_parent dfs_exploredOrder] in *.
  destruct stack as [|cur stack].
  { right.
    destruct (buildResult_missing g fuel start goal _ _ _ _ Hcore eq_refl)
      as (r & -> & Hp & Hf).
    exists r. split; [done|]. split; [done|]. by rewrite Hf. }
  case_decide as Hvis.
  { left. eexists. split; [done|].
    destruct (SInv_skip g start goal _ _ _ _ cur stack Hcore) as [? ?];
      [done..|].
    split; [by split|done]. }
  case_decide as Hgoal.
  { right. subst cur.
    destruct (buildResult_found g fuel start goal _ _ _ _ stack None
                Hwf Hs Hfuel Hcore Hok) as (r & l & -> & Hp & Hf & _ & <- & Hc);
      [done..|].
    exists r. split; [done|]. by split. }
  left.
  pose proof (getNeighbors_good g cur Hwf) as Hgood.
  assert (Forall (good_nb g cur) (reverse (getNeighbors g cur))) as Hgoodr.
  { by apply Forall_reverse. }
  destruct (dfs_neighbors_ok g start cur (reverse (getNeighbors g cur))
              (DfsState stack ({[cur]} ∪ visited) parent (E ++ [cur])))
    as (st' & pushed & -> & Hq & HV & HE & Hp & Hlen & Hcov & Hok'
        & Hmono & Hpd); simpl; try done.
  { apply (si_parent _ _ _ _ _ _ _ Hcore). left. by left. }
  exists st'. split; [done|].
  destruct st' as [stack' visited' parent' E']. simpl in *.
  subst stack' visited' E'.
  rewrite Forall_forall in Hgood.
  destruct (SInv_expand g start goal (cur :: stack) visited E parent
              cur stack (pushed ++ stack) parent' Hwf Hs Hcore)
    as [Hcore' Hμ]; try done.
  { intros v Hin. apply elem_of_app. by right. }
  { intros v [Hin|?]%elem_of_app; [right|by left].
    destruct (Hp v Hin) as (nb & Hnb & <-).
    eexists. apply good_nb_target.
    rewrite Forall_forall in Hgoodr. by apply Hgoodr. }
  { intros v w He.
    destruct (getNeighbors_edge g cur v w Hwf He) as (nb & Hnb & <- & _).
    destruct (Hcov nb) as [Hc|Hc]; [by apply elem_of_reverse_2| |].
    - apply elem_of_union in Hc as [->%elem_of_singleton|?]; eauto.
    - right; right. apply elem_of_app. by left. }
  { rewrite length_app, length_reverse in *. unfold outdeg. lia. }
  { intros v [[?|?]%elem_of_app|[?| ->]].
    - by apply Hpd.
    - apply Hmono, (si_parent _ _ _ _ _ _ _ Hcore). left. by right.
    - apply Hmono, (si_parent _ _ _ _ _ _ _ Hcore). by right.
    - apply Hmono, (si_parent _ _ _ _ _ _ _ Hcore). left. by left. }
Qed.

Theorem dfs_correct g fuel start goal :
  wf_graph g → is_Some (nodes g !! start) → (search_bound g ≤ fuel)%nat →
  ∃ r, dfs g fuel start goal = Done r ∧ path_post g start goal r.
Proof.
  intros Hwf Hs Hfuel. unfold dfs.
  apply (run_returns _ (DInv g start goal) (dfs_measure g)).
  - intros st Hst. by apply dfs_step_ok.
  - apply DInv_init.
  - pose proof (measure_init g start). unfold dfs_measure. simpl in *. lia.
Qed.

(** ** Strategies on the priority queue *)

Lemma isEmpty_true items : isEmpty items = true ↔ items = [].
Proof.
  unfold isEmpty. rewrite bool_decide_eq_true. by destruct items.
Qed.

(** The two ways out of [pQueue.isEmpty()] and [pQueue.dequeue()]. *)
Lemma pop_ok items :
  heap_ok items →
  (isEmpty items = true ∧ items = [])
  ∨ (∃ m items',
       isEmpty items = false
       ∧ dequeue items = Some (Some (element m), items')
       ∧ heap_ok items' ∧ items ≡ₚ m :: items'
       ∧ pq_elements items ≡ₚ element m :: pq_elements items'
       ∧ ∀ y, y ∈ items → priority m ≤ priority y).
Proof.
  intros Hh. destruct items as [|x items]; [by left|right].
  destruct (dequeue_ok (x :: items) Hh) as (m & items' & ? & ? & Hp & ?);
    [done|].
  exists m, items'. split_and!; try done.
  unfold pq_elements. by rewrite Hp.
Qed.

(** ** greedy *)

(** The cost recorded for a vertex is the cost of its predecessor chain. *)
Definition cost_ok (g : Graph) (parent : ParentMap) (cost : gmap string Z)
  : Prop :=
  ∀ v, is_Some (parent !! v) →
       ∃ l c, chain parent v l ∧ is_path g l c ∧ cost !! v = Some c.

Record GInv (g : Graph) (start goal : string) (st : greedy_state) : Prop :=
  { gi_heap : heap_ok (greedy_pQueue st);
    gi_core :
      SInv g start goal (pq_elements (greedy_pQueue st)) (greedy_visited st)
           (greedy_exploredOrder st) (greedy_parent st);
    gi_parent : parent_ok g start (greedy_parent st);
    gi_cost : cost_ok g (greedy_parent st) (greedy_cost st) }.

Lemma cost_ok_fresh g parent cost t cur cc w :
  cost_ok g parent cost → parent !! t = None → is_Some (parent !! cur) →
  cost !! cur = Some cc → edge_in g cur t w →
  cost_ok g (<[t := Some cur]> parent) (<[t := cc + w]> cost).
Proof.
  intros Hc Ht Hcur Hcc He v Hv.
  assert (∀ x l, chain parent x l → chain (<[t := Some cur]> parent) x l)
    as Hkeep.
  { intros x l Hx. apply chain_insert; [done|]. intros Hin.
    destruct (chain_is_Some _ _ _ _ Hx Hin) as [? ?]. congruence. }
  destruct (decide (v = t)) as [->|Hne].
  - destruct (Hc cur Hcur) as (l & c & Hl & Hp & Hcc').
    assert (c = cc) as -> by congruence.
    pose proof (chain_last _ _ _ Hl) as [l' ->]%last_Some.
    exists ((l' ++ [cur]) ++ [t]), (cc + w). split_and!.
    + econstructor; [apply lookup_insert_eq|eauto].
    + by apply is_path_snoc.
    + apply lookup_insert_eq.
  - rewrite lookup_insert_ne in Hv by done.
    destruct (Hc v Hv) as (l & c & Hl & Hp & Hcv).
    exists l, c. split_and!; [eauto|done|].
    by rewrite lookup_insert_ne.
Qed.

Lemma greedy_neighbor_good g cur st nb :
  good_nb g cur nb → heap_ok (greedy_pQueue st) →
  is_Some (greedy_cost st !! cur) →
  ∃ pq' hs,
    enqueue (greedy_pQueue st) (nb_target nb) hs = Some pq'
    ∧ heap_ok pq'
    ∧ pq_elements pq' ≡ₚ nb_target nb :: pq_elements (greedy_pQueue st)
    ∧ greedy_neighbor cur st nb =
      if decide (nb_target nb ∈ greedy_visited st) then Done st
      else
        Done (GreedyState pq' (greedy_visited st)
                (match greedy_parent st !! nb_target nb with
                 | Some _ => greedy_parent st
                 | None => <[nb_target nb := Some cur]> (greedy_parent st)
                 end)
                (match greedy_parent st !! nb_target nb with
                 | Some _ => greedy_cost st
                 | None =>
                     <[nb_target nb :=
                         default 0 (greedy_cost st !! cur) + nb_cost nb]>
                       (greedy_cost st)
                 end)
                (greedy_exploredOrder st)).
Proof.
  intros (nd & Hnd & _) Hh [cc Hcc].
  destruct (enqueue_elements (greedy_pQueue st) (node_name nd) (node_h nd) Hh)
    as (pq' & Hpq & Hh' & _ & Hel).
  exists pq', (node_h nd). unfold nb_target, greedy_neighbor.
  rewrite Hnd. simpl. split_and!; try done.
  case_decide; [done|]. rewrite Hcc. simpl.
  destruct (greedy_parent st !! node_name nd); simpl; by rewrite Hpq.
Qed.

Lemma greedy_neighbors_ok g start cur nbs st :
  Forall (good_nb g cur) nbs →
  heap_ok (greedy_pQueue st) →
  parent_ok g start (greedy_parent st) →
  cost_ok g (greedy_parent st) (greedy_cost st) →
  is_Some (greedy_parent st !! cur) →
  ∃ st' pushed,
    for_each (greedy_neighbor cur) nbs st = Done st'
    ∧ heap_ok (greedy_pQueue st')
    ∧ pq_elements (greedy_pQueue st')
        ≡ₚ pushed ++ pq_elements (greedy_pQueue st)
    ∧ greedy_visited st' = greedy_visited st
    ∧ greedy_exploredOrder st' = greedy_exploredOrder st
    ∧ (∀ v, v ∈ pushed → ∃ nb, nb ∈ nbs ∧ nb_target nb = v)
    ∧ (length pushed ≤ length nbs)%nat
    ∧ (∀ nb, nb ∈ nbs →
             nb_target nb ∈ greedy_visited st ∨ nb_target nb ∈ pushed)
    ∧ parent_ok g start (greedy_parent st')
    ∧ cost_ok g (greedy_parent st') (greedy_cost st')
    ∧ (∀ v, is_Some (greedy_parent st !! v) →
            is_Some (greedy_parent st' !! v))
    ∧ (∀ v, v ∈ pushed → is_Some (greedy_parent st' !! v)).
Proof.
  intros Hnbs. revert st.
  induction Hnbs as [|nb nbs Hnb _ IH]; intros st Hh Hok Hcost Hcur.
  { exists st, []. simpl. split_and!; try done.
    - intros v Hv. by apply elem_of_nil in Hv.
    - intros nb Hnb. by apply elem_of_nil in Hnb.
    - intros v Hv. by apply elem_of_nil in Hv. }
  pose proof (good_nb_target _ _ _ Hnb) as Hedge.
  destruct (Hcost cur Hcur) as (lc & cc & Hlc & Hpc & Hcc).
  destruct (greedy_neighbor_good g cur st nb Hnb Hh)
    as (pq' & hs & _ & Hh' & Hel & Heq); [by rewrite Hcc|].
  cbn [for_each]. rewrite Heq. clear Heq.
  set (t := nb_target nb) in *.
  case_decide as Hvis; cbn [mbind outcome_mbind obind].
  - destruct (IH st Hh Hok Hcost Hcur)
      as (st' & pushed & -> & ? & ? & ? & ? & Hp & ? & Hcov & ? & ? & ? & ?).
    exists st', pushed. split_and!; try done.
    + intros v Hv. destruct (Hp v Hv) as (nb' & ? & ?).
      exists nb'. split; [by right|done].
    + simpl. lia.
    + intros nb' [->|?]%elem_of_cons; [by left|by apply Hcov].
  - set (P1 := match greedy_parent st !! t with
               | Some _ => greedy_parent st
               | None => <[t := Some cur]> (greedy_parent st)
               end).
    set (C1 := match greedy_parent st !! t with
               | Some _ => greedy_cost st
               | None => _
               end).
    assert (parent_ok g start P1 ∧ cost_ok g P1 C1 ∧ is_Some (P1 !! t)
            ∧ ∀ v, is_Some (greedy_parent st !! v) → is_Some (P1 !! v))
      as (Hok1 & Hcost1 & Ht1 & Hmono1).
    { unfold P1, C1. destruct (greedy_parent st !! t) eqn:Hpt.
      - split_and!; [done|done|by rewrite Hpt|done].
      - split_and!.
        + by eapply parent_ok_fresh.
        + rewrite Hcc. simpl. by eapply cost_ok_fresh.
        + rewrite lookup_insert_eq. eauto.
        + intros v Hv. rewrite lookup_insert_ne; [done|].
          intros ->. rewrite Hpt in Hv. by destruct Hv. }
    destruct (IH (GreedyState pq' (greedy_visited st) P1 C1
                              (greedy_exploredOrder st)))
      as (st' & pushed & -> & ? & Hq & ? & ? & Hp & ? & Hcov & ? & ? & Hmono
          & Hpd); simpl; [done..|by apply Hmono1|].
    exists st', (pushed ++ [t]). simpl in *. split_and!; try done.
    + rewrite Hq, Hel, <- app_assoc. done.
    + intros v [Hin| ->%list_elem_of_singleton]%elem_of_app.
      * destruct (Hp v Hin) as (nb' & ? & ?). exists nb'.
        split; [by right|done].
      * exists nb. split; [by left|done].
    + rewrite length_app. simpl. lia.
    + intros nb' [->|Hin]%elem_of_cons.
      * right. apply elem_of_app. right. by left.
      * destruct (Hcov nb' Hin); [by left|right].
        apply elem_of_app. by left.
    + intros v Hv. by apply Hmono, Hmono1.
    + intros v [Hin| ->%list_elem_of_singleton]%elem_of_app.
      * by apply Hpd.
      * by apply Hmono.
Qed.

Definition greedy_measure (g : Graph) (st : greedy_state) : nat :=
  measure g (pq_elements (greedy_pQueue st)) (greedy_visited st).

Lemma greedy_step_ok g fuel start goal st :
  wf_graph g → is_Some (nodes g !! start) → (search_bound g ≤ fuel)%nat →
  GInv g start goal st →
  (∃ st', greedy_step g fuel start goal st = Done (inl st')
          ∧ GInv g start goal st'
          ∧ (greedy_measure g st' < greedy_measure g st)%nat)
  ∨ (∃ r, greedy_step g fuel start goal st = Done (inr r)
          ∧ path_post g start goal r).
Proof.
  intros Hwf Hs Hfuel [Hh Hcore Hok Hcost].
  unfold greedy_step, greedy_measure.
  destruct st as [pq visited parent cost E].
  cbn [greedy_pQueue greedy_visited greedy_parent greedy_cost
       greedy_exploredOrder] in *.
  destruct (pop_ok pq Hh) as [[-> ->]|(m & pq' & -> & -> & Hh' & _ & Hel & _)].
  { right.
    destruct (buildResult_missing g fuel start goal _ _ _ _ Hcore eq_refl)
      as (r & -> & Hp & Hf).
    exists r. split; [done|]. split; [done|]. by rewrite Hf. }
  cbn [or_fail mbind outcome_mbind obind].
  set (cur := element m) in *.
  case_decide as Hvis.
  { left. eexists. split; [done|].
    destruct (SInv_skip g start goal _ _ _ _ cur _ Hcore Hel) as [? ?];
      [done|].
    split; [by split|done]. }
  case_decide as Hgoal.
  { right. rewrite Hgoal in Hel, Hvis |- *.
    destruct (buildResult_found g fuel start goal _ _ _ _ _ (Some cost)
                Hwf Hs Hfuel Hcore Hok Hel)
      as (r & l & -> & Hp & Hf & Hl & Hpath & Hc); [done|].
    exists r. split; [done|]. split; [done|]. intros _.
    destruct (Hcost goal) as (l' & c & Hl' & Hp' & Hcg).
    { apply (si_parent _ _ _ _ _ _ _ Hcore). left. rewrite Hel. by left. }
    rewrite (chain_functional _ _ _ _ Hl Hl') in Hpath.
    by rewrite Hpath, Hc, Hcg. }
  left.
  pose proof (getNeighbors_good g cur Hwf) as Hgood.
  destruct (greedy_neighbors_ok g start cur (getNeighbors g cur)
              (GreedyState pq' ({[cur]} ∪ visited) parent cost (E ++ [cur])))
    as (st' & pushed & -> & Hh'' & Hq & HV & HE & Hp & Hlen & Hcov & Hok'
        & Hcost' & Hmono & Hpd); simpl; try done.
  { apply (si_parent _ _ _ _ _ _ _ Hcore). left. rewrite Hel. by left. }
  exists st'. split; [done|].
  destruct st' as [pq'' visited' parent' cost' E']. simpl in *.
  subst visited' E'.
  rewrite Forall_forall in Hgood.
  destruct (SInv_expand g start goal (pq_elements pq) visited E parent
              cur (pq_elements pq') (pq_elements pq'') parent' Hwf Hs Hcore)
    as [Hcore' Hμ]; try done.
  { intros v Hin. rewrite Hq. apply elem_of_app. by right. }
  { intros v Hin. rewrite Hq in Hin.
    apply elem_of_app in Hin as [Hin|?]; [right|by left].
    destruct (Hp v Hin) as (nb & Hnb & <-).
    eexists. apply good_nb_target. by apply Hgood. }
  { intros v w He.
    destruct (getNeighbors_edge g cur v w Hwf He) as (nb & Hnb & <- & _).
    destruct (Hcov nb Hnb) as [Hc|Hc].
    - apply elem_of_union in Hc as [->%elem_of_singleton|?]; eauto.
    - right; right. rewrite Hq. apply elem_of_app. by left. }
  { rewrite Hq, length_app. unfold outdeg. lia. }
  { intros v [Hin|[?| ->]].
    - rewrite Hq in Hin. apply elem_of_app in Hin as [?|?].
      + by apply Hpd.
      + apply Hmono, (si_parent _ _ _ _ _ _ _ Hcore). left.
        rewrite Hel. by right.
    - apply Hmono, (si_parent _ _ _ _ _ _ _ Hcore). by right.
    - apply Hmono, (si_parent _ _ _ _ _ _ _ Hcore). left.
      rewrite Hel. by left. }
Qed.

Lemma enqueue_new e p : enqueue newPriorityQueue e p = Some [mkItem e p].
Proof.
  unfold enqueue, bubbleUp. simpl. by rewrite bubbleUp_loop_eq.
Qed.

Lemma heap_ok_singleton x : heap_ok [x].
Proof.
  intros i c Hc a b Ha Hb. apply child_of_lt in Hc.
  apply lookup_lt_Some in Hb. simpl in Hb. lia.
Qed.

Theorem greedy_correct g fuel start goal :
  wf_graph g → is_Some (nodes g !! start) → (search_bound g ≤ fuel)%nat →
  ∃ r, greedy g fuel start goal = Done r ∧ path_post g start goal r.
Proof.
  intros Hwf [nd Hs] Hfuel. unfold greedy, greedy_init, getNode.
  rewrite Hs. simpl. rewrite enqueue_new. simpl.
  apply (run_returns _ (GInv g start goal) (greedy_measure g)).
  - intros st Hst. by apply greedy_step_ok.
  - split; simpl.
    + apply heap_ok_singleton.
    + apply SInv_init.
    + apply parent_ok_init.
    + intros v [o Hv]. apply lookup_singleton_Some in Hv as [<- <-].
      exists [start], 0. split_and!.
      * constructor. apply lookup_singleton_eq.
      * constructor.
      * apply lookup_singleton_eq.
  - pose proof (measure_init g start). unfold greedy_measure. simpl in *. lia.
Qed.

(** ** ucs and astar: the common relaxation search *)

(** [ucs] and [astar] are the same loop up to the priority given to a
    relaxed vertex: the new cost plus [hf] of the vertex, where [hf] is
    constantly zero for [ucs] and the stored heuristic for [astar]. *)
Definition relax_neighbor (hf : Node → Z) (current : string)
    (st : ucs_state) (neighbor : Neighbor) : outcome ucs_state :=
  nd ← or_fail (nb_node neighbor) TypeError;
  let neighborName := node_name nd in
  costCurrent ← or_fail (ucs_cost st !! current) Unmodelled;
  let newCost := costCurrent + nb_cost neighbor in
  if match ucs_cost st !! neighborName with
     | None => true
     | Some known => bool_decide (newCost < known)
     end
  then
    pQueue ← or_fail (enqueue (ucs_pQueue st) neighborName
                        (newCost + hf nd)) TypeError;
    Done (UcsState pQueue (ucs_visited st)
                   (<[neighborName := Some current]> (ucs_parent st))
                   (<[neighborName := newCost]> (ucs_cost st))
                   (ucs_exploredOrder st))
  else Done st.

Definition relax_step (hf : Node → Z) (g : Graph) (fuel : nat)
    (start goal : string) (st : ucs_state) : outcome (ucs_state + Result) :=
  if isEmpty (ucs_pQueue st) then
    inr <$> buildResult g fuel start goal (ucs_parent st)
              (ucs_exploredOrder st) false None
  else
    '(popped, pQueue) ← or_fail (dequeue (ucs_pQueue st)) TypeError;
    current ← or_fail popped Unmodelled;
    if decide (current ∈ ucs_visited st) then
      Done (inl (UcsState pQueue (ucs_visited st) (ucs_parent st)
                          (ucs_cost st) (ucs_exploredOrder st)))
    else
      let visited := {[current]} ∪ ucs_visited st in
      let exploredOrder := ucs_exploredOrder st ++ [current] in
      if decide (current = goal) then
        inr <$> buildResult g fuel start goal (ucs_parent st)
                  exploredOrder true (Some (ucs_cost st))
      else
        inl <$> for_each (relax_neighbor hf current) (getNeighbors g current)
                  (UcsState pQueue visited (ucs_parent st) (ucs_cost st)
                            exploredOrder).

Lemma for_each_ext {S X} (f f' : S → X → outcome S) xs s :
  (∀ s x, f s x = f' s x) → for_each f xs s = for_each f' xs s.
Proof.
  intros Hext. revert s. induction xs as [|x xs IH]; intros s; [done|].
  simpl. rewrite Hext. destruct (f' s x); simpl; auto.
Qed.

Lemma for_each_sim {S S' X} (proj : S → S') (f : S → X → outcome S)
    (f' : S' → X → outcome S') xs s :
  (∀ s x, proj <$> f s x = f' (proj s) x) →
  proj <$> for_each f xs s = for_each f' xs (proj s).
Proof.
  intros Hsim. revert s. induction xs as [|x xs IH]; intros s; [done|].
  simpl. rewrite <- Hsim. destruct (f s x); simpl; auto.
Qed.

Lemma run_sim {S S' R} (proj : S → S') (step : S → outcome (S + R))
    (step' : S' → outcome (S' + R)) fuel s :
  (∀ s, sum_map proj id <$> step s = step' (proj s)) →
  run step fuel s = run step' fuel (proj s).
Proof.
  intros Hsim. revert s. induction fuel as [|fuel IH]; intros s; [done|].
  simpl. rewrite <- Hsim. destruct (step s) as [[s'|r]| |]; simpl; auto.
Qed.

Lemma ucs_neighbor_relax current st nb :
  ucs_neighbor current st nb = relax_neighbor (λ _, 0) current st nb.
Proof.
  unfold ucs_neighbor, relax_neighbor.
  destruct (nb_node nb); simpl; [|done].
  destruct (ucs_cost st !! current); simpl; [|done].
  by rewrite Z.add_0_r.
Qed.

Lemma ucs_step_relax g fuel start goal st :
  ucs_step g fuel start goal st = relax_step (λ _, 0) g fuel start goal st.
Proof.
  unfold ucs_step, relax_step.
  destruct (isEmpty _); [done|].
  destruct (dequeue _) as [[[cur|] pq']|]; simpl; try done.
  case_decide; [done|]. case_decide; [done|].
  by rewrite (for_each_ext _ _ _ _ (ucs_neighbor_relax cur)).
Qed.

Lemma ucs_relax g fuel start goal :
  ucs g fuel start goal =
    run (relax_step (λ _, 0) g fuel start goal) fuel
        (UcsState [mkItem start 0] ∅ {[start := None]} {[start := 0]} []).
Proof.
  unfold ucs, ucs_init. rewrite enqueue_new. simpl.
  clear. generalize fuel at 2 4. intros n. revert fuel.
  generalize (UcsState [mkItem start 0] ∅ {[start := None]}
                       {[start := 0]} []).
  induction n as [|n IH]; intros st fuel; [done|].
  simpl. rewrite ucs_step_relax.
  destruct (relax_step _ g fuel start goal st) as [[st'|r]| |]; auto.
Qed.

(** [astar] without its write-only [fScore] map. *)
Definition astar_proj (st : astar_state) : ucs_state :=
  UcsState (astar_pQueue st) (astar_visited st) (astar_parent st)
           (astar_gScore st) (astar_exploredOrder st).

Lemma astar_neighbor_relax current st nb :
  astar_proj <$> astar_neighbor current st nb =
    relax_neighbor node_h current (astar_proj st) nb.
Proof.
  unfold astar_neighbor, relax_neighbor. destruct st; simpl.
  destruct (nb_node nb); simpl; [|done].
  destruct (_ !! current); simpl; [|done].
  case_match; [|done].
  destruct (enqueue _ _ _); done.
Qed.

Lemma astar_step_relax g fuel start goal st :
  sum_map astar_proj id <$> astar_step g fuel start goal st =
    relax_step node_h g fuel start goal (astar_proj st).
Proof.
  unfold astar_step, relax_step. destruct st as [pq V P G F E]; simpl.
  destruct (isEmpty pq).
  { first [done | match goal with
    | |- context [buildResult ?a ?b ?c ?d ?e ?f ?h ?i] =>
        by destruct (buildResult a b c d e f h i)
    end]. }
  destruct (dequeue pq) as [[[cur|] pq']|]; simpl; try done.
  case_decide; [done|]. case_decide.
  { first [done | match goal with
    | |- context [buildResult ?a ?b ?c ?d ?e ?f ?h ?i] =>
        by destruct (buildResult a b c d e f h i)
    end]. }
  pose proof (for_each_sim astar_proj (astar_neighbor cur)
                (relax_neighbor node_h cur) (getNeighbors g cur)
                (AstarState pq' ({[cur]} ∪ V) P G F (E ++ [cur]))
                (astar_neighbor_relax cur)) as Hsim.
  unfold astar_proj at 2 in Hsim. simpl in Hsim. rewrite <- Hsim.
  match goal with
  | |- context [for_each ?a ?b ?c] => by destruct (for_each a b c)
  end.
Qed.

Lemma astar_relax g fuel start goal nd :
  nodes g !! start = Some nd →
  astar g fuel start goal =
    run (relax_step node_h g fuel start goal) fuel
        (UcsState [mkItem start (node_h nd)] ∅ {[start := None]}
                  {[start := 0]} []).
Proof.
  intros Hnd. unfold astar, astar_init, getNode. rewrite Hnd. simpl.
  rewrite lookup_singleton_eq. simpl. rewrite enqueue_new. simpl.
  by rewrite (run_sim astar_proj _ _ _ _ (astar_step_relax g fuel start goal)).
Qed.

(** The heuristic value that [astar] reads for a vertex of the store. *)
Definition hval (g : Graph) (hf : Node → Z) (v : string) : Z :=
  from_option hf 0 (nodes g !! v).

(** With non-negative edge costs, the cost map holds costs of real paths
    and never increases along the predecessor map. *)
Record rel_ok (g : Graph) (start : string) (P : ParentMap)
    (G : gmap string Z) : Prop :=
  { ro_parent : parent_ok g start P;
    ro_start : G !! start = Some 0;
    ro_real : ∀ v c, G !! v = Some c → reach g start v c;
    ro_mono :
      ∀ v p, P !! v = Some (Some p) →
             ∃ gp gv w, G !! p = Some gp ∧ G !! v = Some gv
                        ∧ edge_in g p v w ∧ gp + w ≤ gv }.

Lemma rel_ok_chain_le g start P G v l x gx gv :
  nonneg_costs g → rel_ok g start P G → chain P v l → x ∈ l →
  G !! x = Some gx → G !! v = Some gv → gx ≤ gv.
Proof.
  intros Hn Hrel Hc. revert gv.
  induction Hc as [v Hv|v p l Hv Hc IH]; intros gv Hx Hgx Hgv.
  - apply list_elem_of_singleton in Hx as ->. simplify_eq. lia.
  - apply elem_of_app in Hx as [Hx| ->%list_elem_of_singleton].
    + destruct (ro_mono _ _ _ _ Hrel v p Hv) as (gp & gv' & w & Hgp & Hgv'
                                                 & He & Hle).
      pose proof (nonneg_costs_edge _ _ _ _ Hn He).
      specialize (IH gp Hx Hgx Hgp). simplify_eq. lia.
    + simplify_eq. lia.
Qed.

Lemma rel_ok_relax g start P G cur t gc w :
  nonneg_costs g → rel_ok g start P G →
  (∀ v, is_Some (G !! v) ↔ is_Some (P !! v)) →
  G !! cur = Some gc → edge_in g cur t w →
  match G !! t with None => True | Some gt => gc + w < gt end →
  rel_ok g start (<[t := Some cur]> P) (<[t := gc + w]> G).
Proof.
  intros Hn Hrel Hdom Hgc He Himp.
  pose proof (nonneg_costs_edge _ _ _ _ Hn He) as Hw.
  pose proof (reach_nonneg _ _ _ _ Hn (ro_real _ _ _ _ Hrel _ _ Hgc)) as Hgc0.
  assert (t ≠ start) as Hts.
  { intros ->. rewrite (ro_start _ _ _ _ Hrel) in Himp. lia. }
  assert (t ≠ cur) as Htc.
  { intros ->. rewrite Hgc in Himp. lia. }
  assert (is_Some (P !! cur)) as HPc by (apply Hdom; eauto).
  pose proof (ro_parent _ _ _ _ Hrel) as Hpar.
  destruct (po_chain _ _ _ Hpar cur HPc) as [lc Hlc].
  assert (t ∉ lc) as Htl.
  { intros Hin.
    destruct (chain_is_Some _ _ _ _ Hlc Hin) as [o Ho].
    assert (is_Some (G !! t)) as [gt Hgt] by (apply Hdom; eauto).
    pose proof (rel_ok_chain_le _ _ _ _ _ _ _ _ _ Hn Hrel Hlc Hin Hgt Hgc).
    rewrite Hgt in Himp. lia. }
  assert (chain (<[t := Some cur]> P) t (lc ++ [t])) as Hnew.
  { econstructor; [apply lookup_insert_eq|]. by apply chain_insert. }
  split.
  - split.
    + intros v Hv. destruct (decide (v = t)) as [->|Hne]; [eauto|].
      rewrite lookup_insert_ne in Hv by done.
      destruct (po_chain _ _ _ (ro_parent _ _ _ _ Hrel) v Hv) as [l Hl].
      clear Hv. induction Hl as [v Hv|v p l Hv Hl IH].
      * exists [v]. constructor. by rewrite lookup_insert_ne.
      * destruct (decide (p = t)) as [->|Hpt].
        -- eexists. econstructor; [by rewrite lookup_insert_ne|done].
        -- destruct (IH Hpt) as [l' Hl'].
           eexists. econstructor; [by rewrite lookup_insert_ne|done].
    + intros v Hv. destruct (decide (v = t)) as [->|Hne].
      * by rewrite lookup_insert_eq in Hv.
      * rewrite lookup_insert_ne in Hv by done.
        by eapply po_root.
    + intros v p Hv. destruct (decide (v = t)) as [->|Hne].
      * rewrite lookup_insert_eq in Hv. simplify_eq. eauto.
      * rewrite lookup_insert_ne in Hv by done.
        by eapply po_edge.
  - rewrite lookup_insert_ne by done. apply Hrel.
  - intros v c Hv. destruct (decide (v = t)) as [->|Hne].
    + rewrite lookup_insert_eq in Hv. simplify_eq.
      econstructor; [|done]. by apply Hrel.
    + rewrite lookup_insert_ne in Hv by done. by apply Hrel.
  - intros v p Hv. destruct (decide (v = t)) as [->|Hne].
    + rewrite lookup_insert_eq in Hv. simplify_eq.
      exists gc, (gc + w), w.
      rewrite lookup_insert_ne, lookup_insert_eq by done.
      split_and!; [done..|lia].
    + rewrite lookup_insert_ne in Hv by done.
      destruct (ro_mono _ _ _ _ Hrel v p Hv) as (gp & gv & w' & Hgp & Hgv
                                                 & He' & Hle).
      destruct (decide (p = t)) as [->|Hpt].
      * rewrite Hgp in Himp. exists (gc + w), gv, w'.
        rewrite lookup_insert_eq, lookup_insert_ne by done.
        split_and!; [done..|lia].
      * exists gp, gv, w'. rewrite !lookup_insert_ne by done.
        split_and!; done.
Qed.

(** Whether an edge of cost [w] out of a vertex of cost [gc] improves the
    known cost of its target [t]. *)
Definition improves (G : gmap string Z) (t : string) (nc : Z) : bool :=
  match G !! t with
  | None => true
  | Some known => bool_decide (nc < known)
  end.

Lemma relax_neighbor_good g hf cur st nb gc :
  good_nb g cur nb → heap_ok (ucs_pQueue st) →
  ucs_cost st !! cur = Some gc →
  ∃ pq',
    enqueue (ucs_pQueue st) (nb_target nb)
            (gc + nb_cost nb + hval g hf (nb_target nb)) = Some pq'
    ∧ heap_ok pq'
    ∧ pq' ≡ₚ mkItem (nb_target nb)
               (gc + nb_cost nb + hval g hf (nb_target nb))
             :: ucs_pQueue st
    ∧ pq_elements pq' ≡ₚ nb_target nb :: pq_elements (ucs_pQueue st)
    ∧ relax_neighbor hf cur st nb =
      if improves (ucs_cost st) (nb_target nb) (gc + nb_cost nb) then
        Done (UcsState pq' (ucs_visited st)
                (<[nb_target nb := Some cur]> (ucs_parent st))
                (<[nb_target nb := gc + nb_cost nb]> (ucs_cost st))
                (ucs_exploredOrder st))
      else Done st.
Proof.
  intros (nd & Hnd & Hnode & _) Hh Hgc.
  assert (nb_target nb = node_name nd) as Ht.
  { unfold nb_target. by rewrite Hnd. }
  assert (hval g hf (nb_target nb) = hf nd) as Hh'.
  { unfold hval. by rewrite Ht, Hnode. }
  rewrite Hh', Ht.
  destruct (enqueue_elements (ucs_pQueue st) (node_name nd)
              (gc + nb_cost nb + hf nd) Hh) as (pq' & Hpq & ? & ? & ?).
  exists pq'. split_and!; try done.
  unfold relax_neighbor, improves. rewrite Hnd. simpl. rewrite Hgc. simpl.
  destruct (match ucs_cost st !! node_name nd with
            | Some known => bool_decide (gc + nb_cost nb < known)
            | None => true
            end); [|done].
  by rewrite Hpq.
Qed.

Lemma improves_spec G t nc :
  improves G t nc = true →
  match G !! t with None => True | Some gt => nc < gt end.
Proof.
  unfold improves. destruct (G !! t); [|done].
  by intros ?%bool_decide_eq_true.
Qed.

Lemma relax_neighbors_ok g hf start cur nbs st :
  Forall (good_nb g cur) nbs →
  heap_ok (ucs_pQueue st) →
  (∀ v, is_Some (ucs_cost st !! v) ↔ is_Some (ucs_parent st !! v)) →
  is_Some (ucs_cost st !! cur) →
  ∃ st' pushed,
    for_each (relax_neighbor hf cur) nbs st = Done st'
    ∧ heap_ok (ucs_pQueue st')
    ∧ pq_elements (ucs_pQueue st') ≡ₚ pushed ++ pq_elements (ucs_pQueue st)
    ∧ ucs_visited st' = ucs_visited st
    ∧ ucs_exploredOrder st' = ucs_exploredOrder st
    ∧ (∀ v, v ∈ pushed → ∃ nb, nb ∈ nbs ∧ nb_target nb = v)
    ∧ (length pushed ≤ length nbs)%nat
    ∧ (∀ nb, nb ∈ nbs → is_Some (ucs_cost st' !! nb_target nb))
    ∧ (∀ v, is_Some (ucs_cost st' !! v) ↔ is_Some (ucs_parent st' !! v))
    ∧ (∀ v, is_Some (ucs_cost st !! v) → is_Some (ucs_cost st' !! v))
    ∧ (∀ v, is_Some (ucs_cost st' !! v) →
            is_Some (ucs_cost st !! v) ∨ v ∈ pushed)
    ∧ (nonneg_costs g →
       rel_ok g start (ucs_parent st) (ucs_cost st) →
       rel_ok g start (ucs_parent st') (ucs_cost st')).
Proof.
  intros Hnbs. revert st.
  induction Hnbs as [|nb nbs Hnb _ IH]; intros st Hh Hdom [gc Hgc].
  { exists st, []. simpl. split_and!; try done; try tauto.
    - intros v Hv. by apply elem_of_nil in Hv.
    - intros nb Hnb. by apply elem_of_nil in Hnb. }
  pose proof (good_nb_target _ _ _ Hnb) as Hedge.
  destruct (relax_neighbor_good g hf cur st nb gc Hnb Hh Hgc)
    as (pq' & _ & Hh' & _ & Hel & Heq).
  cbn [for_each]. rewrite Heq. clear Heq.
  set (t := nb_target nb) in *. set (w := nb_cost nb) in *.
  destruct (improves (ucs_cost st) t (gc + w)) eqn:Himp;
    cbn [mbind outcome_mbind obind].
  - set (st1 := UcsState _ _ _ _ _).
    destruct (IH st1) as (st' & pushed & -> & ? & Hq & ? & ? & Hp & ? & Hcov
                          & ? & Hmono & Hnew & Hrel); simpl; [done| | |].
    { intros v. destruct (decide (v = t)) as [->|Hne].
      - rewrite !lookup_insert_eq. split; eauto.
      - by rewrite !lookup_insert_ne. }
    { destruct (decide (cur = t)) as [->|Hne].
      - rewrite lookup_insert_eq. eauto.
      - rewrite lookup_insert_ne by done. eauto. }
    exists st', (pushed ++ [t]). simpl in *. split_and!; try done.
    + rewrite Hq, Hel, <- app_assoc. done.
    + intros v [Hin| ->%list_elem_of_singleton]%elem_of_app.
      * destruct (Hp v Hin) as (nb' & ? & ?). exists nb'.
        split; [by right|done].
      * exists nb. split; [by left|done].
    + rewrite length_app. simpl. lia.
    + intros nb' [->|Hin]%elem_of_cons; [|by apply Hcov].
      apply Hmono. rewrite lookup_insert_eq. eauto.
    + intros v Hv. apply Hmono. destruct (decide (v = t)) as [->|Hne].
      * rewrite lookup_insert_eq. eauto.
      * by rewrite lookup_insert_ne.
    + intros v Hv. destruct (Hnew v Hv) as [Hv'|?].
      * destruct (decide (v = t)) as [->|Hne].
        -- right. apply elem_of_app. right. by left.
        -- rewrite lookup_insert_ne in Hv' by done. by left.
      * right. apply elem_of_app. by left.
    + intros Hn Hr. apply Hrel; [done|].
      apply rel_ok_relax; try done. by apply improves_spec.
  - destruct (IH st Hh Hdom) as (st' & pushed & -> & ? & ? & ? & ? & Hp & ?
                                  & Hcov & ? & Hmono & ? & ?); [eauto|].
    exists st', pushed. split_and!; try done.
    + intros v Hv. destruct (Hp v Hv) as (nb' & ? & ?).
      exists nb'. split; [by right|done].
    + simpl. lia.
    + intros nb' [->|?]%elem_of_cons; [|by apply Hcov].
      apply Hmono. unfold improves in Himp.
      fold t. destruct (ucs_cost st !! t); [eauto|done].
Qed.

(** *** Optimality under a consistent heuristic *)

(** The heuristic never drops by more than the cost of an edge. For the
    constant zero heuristic of [ucs] this says that costs are not
    negative. *)
Definition consistent (g : Graph) (hf : Node → Z) : Prop :=
  map_Forall
    (λ u es,
       Forall (λ e, hval g hf u ≤ edge_cost e + hval g hf (edge_to e)) es)
    (edges g).

#[global] Instance consistent_dec g hf : Decision (consistent g hf).
Proof. unfold consistent. apply _. Defined.

Lemma consistent_edge g hf u v w :
  consistent g hf → edge_in g u v w → hval g hf u ≤ w + hval g hf v.
Proof.
  intros H (es & Hes & Hin). specialize (H _ _ Hes).
  rewrite Forall_forall in H. apply (H _ Hin).
Qed.

(** Dijkstra's invariant, for the edges [R] relaxed so far. *)
Record OInv (g : Graph) (hf : Node → Z) (start : string)
    (R : string → string → Z → Prop) (pq : PriorityQueue)
    (V : gset string) (G : gmap string Z) : Prop :=
  { oi_upper :
      ∀ it, it ∈ pq →
            ∃ gv, G !! element it = Some gv
                  ∧ gv + hval g hf (element it) ≤ priority it;
    oi_entry :
      ∀ v gv, G !! v = Some gv → v ∉ V →
              mkItem v (gv + hval g hf v) ∈ pq;
    oi_settled :
      ∀ v gv c, v ∈ V → G !! v = Some gv → reach g start v c → gv ≤ c;
    oi_relaxed :
      ∀ u v w gu, u ∈ V → R u v w → G !! u = Some gu →
                  ∃ gv, G !! v = Some gv ∧ gv ≤ gu + w }.

Lemma OInv_weaken g hf start (R R' : string → string → Z → Prop) pq V G :
  (∀ u v w, R' u v w → R u v w) →
  OInv g hf start R pq V G → OInv g hf start R' pq V G.
Proof. intros HR [H1 H2 H3 H4]. split; eauto. Qed.

Lemma OInv_relax g hf start R pq V P G cur t gc w :
  nonneg_costs g → rel_ok g start P G →
  (∀ v, v ∈ V → is_Some (G !! v)) →
  cur ∈ V → G !! cur = Some gc → edge_in g cur t w →
  OInv g hf start R pq V G →
  let R' := λ u v w', R u v w' ∨ (u = cur ∧ v = t ∧ w' = w) in
  if improves G t (gc + w) then
    (t ∉ V) ∧
    (∀ pq', pq' ≡ₚ mkItem t (gc + w + hval g hf t) :: pq →
            OInv g hf start R' pq' V (<[t := gc + w]> G))
  else OInv g hf start R' pq V G.
Proof.
  intros Hn Hrel HV Hcur Hgc He [H1 H2 H3 H4] R'.
  assert (reach g start t (gc + w)) as Hreach.
  { econstructor; [|done]. by eapply ro_real. }
  destruct (improves G t (gc + w)) eqn:Himp.
  - apply improves_spec in Himp.
    assert (t ∉ V) as HtV.
    { intros HtV. destruct (HV t HtV) as [gt Hgt]. rewrite Hgt in Himp.
      pose proof (H3 t gt _ HtV Hgt Hreach). lia. }
    split; [done|]. intros pq' Hpq. split.
    + intros it Hit. rewrite Hpq in Hit.
      apply elem_of_cons in Hit as [->|Hit]; simpl.
      * rewrite lookup_insert_eq. eexists. split; [done|lia].
      * destruct (H1 it Hit) as (gv & Hgv & Hle).
        destruct (decide (element it = t)) as [Heq|Hne].
        -- rewrite Heq in *. rewrite Hgv in Himp.
           rewrite lookup_insert_eq. eexists. split; [done|lia].
        -- rewrite lookup_insert_ne by done. eauto.
    + intros v gv Hv HvV. rewrite Hpq.
      destruct (decide (v = t)) as [->|Hne].
      * rewrite lookup_insert_eq in Hv. simplify_eq. by left.
      * rewrite lookup_insert_ne in Hv by done. right. by apply H2.
    + intros v gv c HvV Hv. rewrite lookup_insert_ne in Hv by set_solver.
      by apply H3.
    + intros u v w' gu Hu HR Hgu.
      rewrite lookup_insert_ne in Hgu by set_solver.
      destruct HR as [HR|(-> & -> & ->)].
      * destruct (H4 u v w' gu Hu HR Hgu) as (gv & Hgv & Hle).
        destruct (decide (v = t)) as [->|Hne].
        -- rewrite Hgv in Himp. rewrite lookup_insert_eq.
           eexists. split; [done|lia].
        -- rewrite lookup_insert_ne by done. eauto.
      * rewrite lookup_insert_eq. simplify_eq. eexists. split; [done|lia].
  - split; try done.
    intros u v w' gu Hu HR Hgu. destruct HR as [HR|(-> & -> & ->)]; [eauto|].
    simplify_eq. unfold improves in Himp.
    destruct (G !! t) as [gt|]; [|done].
    apply bool_decide_eq_false in Himp. eexists. split; [done|lia].
Qed.

(** Predecessors are settled vertices, and the recorded cost of a vertex
    is the cost of its predecessor chain. *)
Definition CInv (g : Graph) (P : ParentMap) (G : gmap string Z)
    (V : gset string) : Prop :=
  cost_ok g P G ∧ ∀ v p, P !! v = Some (Some p) → p ∈ V.

Lemma chain_interior P v l x :
  chain P v l → x ∈ l → x ≠ v → ∃ y, P !! y = Some (Some x).
Proof.
  induction 1 as [v Hv|v p l Hv Hc IH]; intros Hx Hne.
  - by apply list_elem_of_singleton in Hx.
  - apply elem_of_app in Hx as [Hx|Hx%list_elem_of_singleton]; [|done].
    destruct (decide (x = p)) as [->|Hxp]; eauto.
Qed.

Lemma CInv_relax g P G V cur t gc w :
  CInv g P G V → t ∉ V → cur ∈ V → is_Some (P !! cur) →
  G !! cur = Some gc → edge_in g cur t w →
  CInv g (<[t := Some cur]> P) (<[t := gc + w]> G) V.
Proof.
  intros [Hc HP] HtV Hcur HPc Hgc He.
  assert (∀ x l, chain P x l → x ≠ t →
                 chain (<[t := Some cur]> P) x l) as Hkeep.
  { intros x l Hx Hne. apply chain_insert; [done|]. intros Hin.
    destruct (chain_interior _ _ _ _ Hx Hin) as [y Hy]; [done|].
    apply HtV. by eapply HP. }
  assert (t ≠ cur) as Htc by (intros ->; done).
  split.
  - intros v Hv. destruct (decide (v = t)) as [->|Hne].
    + destruct (Hc cur HPc) as (l & c & Hl & Hp & Hcc).
      assert (c = gc) as -> by congruence.
      pose proof (chain_last _ _ _ Hl) as [l' ->]%last_Some.
      exists ((l' ++ [cur]) ++ [t]), (gc + w). split_and!.
      * econstructor; [apply lookup_insert_eq|eauto].
      * by apply is_path_snoc.
      * apply lookup_insert_eq.
    + rewrite lookup_insert_ne in Hv by done.
      destruct (Hc v Hv) as (l & c & Hl & Hp & Hcv).
      exists l, c. split_and!; [eauto|done|].
      by rewrite lookup_insert_ne.
  - intros v p Hv. destruct (decide (v = t)) as [->|Hne].
    + rewrite lookup_insert_eq in Hv. by simplify_eq.
    + rewrite lookup_insert_ne in Hv by done. by eapply HP.
Qed.

Lemma OInv_neighbors g hf start cur nbs :
  Forall (good_nb g cur) nbs → nonneg_costs g →
  ∀ R st st',
    heap_ok (ucs_pQueue st) →
    (∀ v, is_Some (ucs_cost st !! v) ↔ is_Some (ucs_parent st !! v)) →
    rel_ok g start (ucs_parent st) (ucs_cost st) →
    (∀ v, v ∈ ucs_visited st → is_Some (ucs_cost st !! v)) →
    cur ∈ ucs_visited st →
    OInv g hf start R (ucs_pQueue st) (ucs_visited st) (ucs_cost st) →
    CInv g (ucs_parent st) (ucs_cost st) (ucs_visited st) →
    for_each (relax_neighbor hf cur) nbs st = Done st' →
    OInv g hf start
         (λ u v w, R u v w
                   ∨ (u = cur ∧ ∃ nb, nb ∈ nbs ∧ nb_target nb = v
                                      ∧ nb_cost nb = w))
         (ucs_pQueue st') (ucs_visited st') (ucs_cost st')
    ∧ CInv g (ucs_parent st') (ucs_cost st') (ucs_visited st').
Proof.
  intros Hnbs Hn.
  induction Hnbs as [|nb nbs Hnb _ IH];
    intros R st st' Hh Hdom Hrel HV Hcur HO HC Hrun.
  { simpl in Hrun. simplify_eq. split; [|done].
    eapply OInv_weaken; [|done].
    intros u v w [?|(_ & nb & Hnb & _)]; [done|].
    by apply elem_of_nil in Hnb. }
  pose proof (good_nb_target _ _ _ Hnb) as Hedge.
  destruct (HV cur Hcur) as [gc Hgc].
  destruct (relax_neighbor_good g hf cur st nb gc Hnb Hh Hgc)
    as (pq' & _ & Hh' & Hpq & _ & Heq).
  cbn [for_each] in Hrun. rewrite Heq in Hrun. clear Heq.
  pose proof (OInv_relax g hf start R _ _ _ _ cur _ gc _ Hn Hrel HV Hcur
                Hgc Hedge HO) as Hstep.
  set (t := nb_target nb) in *. set (w := nb_cost nb) in *.
  simpl in Hstep.
  destruct (improves (ucs_cost st) t (gc + w)) eqn:Himp;
    cbn [mbind outcome_mbind obind] in Hrun.
  - destruct Hstep as [HtV Hstep]. specialize (Hstep pq' Hpq).
    match type of Hrun with
    | for_each _ _ ?s = _ => set (st1 := s) in *
    end.
    destruct (IH (λ u v w', R u v w' ∨ (u = cur ∧ v = t ∧ w' = w)) st1 st')
      as [HO' HC']; try done.
    + simpl. intros v. destruct (decide (v = t)) as [->|Hne].
      * rewrite !lookup_insert_eq. split; eauto.
      * by rewrite !lookup_insert_ne.
    + simpl. apply rel_ok_relax; try done. by apply improves_spec.
    + simpl. intros v Hv. destruct (decide (v = t)) as [->|Hne].
      * rewrite lookup_insert_eq. eauto.
      * rewrite lookup_insert_ne by done. by apply HV.
    + simpl. apply CInv_relax; try done. apply Hdom. eauto.
    + split; [|done]. eapply OInv_weaken; [|done].
      intros u v w' [?|(-> & nb' & [->|?]%elem_of_cons & ? & ?)];
        [by left; left|left; right; done|right].
      split; [done|]. by exists nb'.
  - destruct (IH _ _ _ Hh Hdom Hrel HV Hcur Hstep HC Hrun) as [HO' HC'].
    split; [|done]. eapply OInv_weaken; [|done].
    intros u v w' [?|(-> & nb' & [->|?]%elem_of_cons & ? & ?)];
      [by left; left|left; right; done|right].
    split; [done|]. by exists nb'.
Qed.

(** A path from the start either ends at a settled vertex, within its
    recorded cost, or crosses the frontier at a vertex whose priority is
    no larger than the path's cost plus the heuristic of its end. *)
Lemma OInv_crossing g hf start pq V G v c :
  OInv g hf start (edge_in g) pq V G → G !! start = Some 0 →
  consistent g hf → (∀ v, v ∈ V → is_Some (G !! v)) →
  reach g start v c →
  (v ∈ V ∧ ∃ gv, G !! v = Some gv ∧ gv ≤ c)
  ∨ (∃ x gx, (x ∉ V) ∧ G !! x = Some gx
             ∧ gx + hval g hf x ≤ c + hval g hf v).
Proof.
  intros [H1 H2 H3 H4] Hs Hcons HV.
  induction 1 as [|u v c w Hr IH He].
  - destruct (decide (start ∈ V)).
    + left. split; [done|]. eexists. split; [done|lia].
    + right. exists start, 0. split_and!; [done..|lia].
  - pose proof (consistent_edge _ _ _ _ _ Hcons He).
    destruct IH as [(Hu & gu & Hgu & Hle)|(x & gx & Hx & Hgx & Hle)].
    + destruct (H4 u v w gu Hu He Hgu) as (gv & Hgv & Hle').
      destruct (decide (v ∈ V)).
      * left. split; [done|]. eexists. split; [done|lia].
      * right. exists v, gv. split_and!; [done..|lia].
    + right. exists x, gx. split_and!; [done..|lia].
Qed.

Lemma OInv_pop_skip g hf start pq V G m pq' :
  OInv g hf start (edge_in g) pq V G → pq ≡ₚ m :: pq' → element m ∈ V →
  OInv g hf start (edge_in g) pq' V G.
Proof.
  intros [H1 H2 H3 H4] Hpq Hm. split; try done.
  - intros it Hit. apply H1. rewrite Hpq. by right.
  - intros v gv Hv HvV. pose proof (H2 v gv Hv HvV) as Hin.
    rewrite Hpq in Hin. apply elem_of_cons in Hin as [Heq|?]; [|done].
    subst m. simpl in Hm. done.
Qed.

Lemma OInv_pop_expand g hf start pq V G m pq' :
  OInv g hf start (edge_in g) pq V G → pq ≡ₚ m :: pq' →
  (∀ y, y ∈ pq → priority m ≤ priority y) → element m ∉ V →
  G !! start = Some 0 → consistent g hf →
  (∀ v, v ∈ V → is_Some (G !! v)) →
  (∀ gc c, G !! element m = Some gc → reach g start (element m) c → gc ≤ c)
  ∧ OInv g hf start (λ u v w, u ≠ element m ∧ edge_in g u v w) pq'
         ({[element m]} ∪ V) G.
Proof.
  intros HO Hpq Hmin Hm Hs Hcons HV.
  assert (∀ gc c, G !! element m = Some gc →
                  reach g start (element m) c → gc ≤ c) as Hopt.
  { intros gc c Hgc Hr.
    destruct (OInv_crossing g hf start pq V G _ c HO Hs Hcons HV Hr)
      as [[? _]|(x & gx & Hx & Hgx & Hle)]; [done|].
    destruct HO as [H1 H2 H3 H4].
    pose proof (Hmin _ (H2 x gx Hgx Hx)) as Hle'. simpl in Hle'.
    destruct (H1 m) as (gm & Hgm & Hle''); [rewrite Hpq; by left|].
    simplify_eq. lia. }
  split; [done|]. destruct HO as [H1 H2 H3 H4]. split.
  - intros it Hit. apply H1. rewrite Hpq. by right.
  - intros v gv Hv HvV. pose proof (H2 v gv Hv ltac:(set_solver)) as Hin.
    rewrite Hpq in Hin. apply elem_of_cons in Hin as [Heq|?]; [|done].
    subst m. simpl in HvV. set_solver.
  - intros v gv c [->%elem_of_singleton|HvV]%elem_of_union Hv Hr; eauto.
  - intros u v w gu Hu [Hne He] Hgu. apply (H4 u v w gu); [|done..].
    set_solver.
Qed.

(** *** The loop *)

Record RInv (g : Graph) (start goal : string) (st : ucs_state) : Prop :=
  { ri_heap : heap_ok (ucs_pQueue st);
    ri_core :
      SInv g start goal (pq_elements (ucs_pQueue st)) (ucs_visited st)
           (ucs_exploredOrder st) (ucs_parent st);
    ri_dom :
      ∀ v, is_Some (ucs_cost st !! v) ↔ is_Some (ucs_parent st !! v);
    ri_cover :
      ∀ v, is_Some (ucs_cost st !! v) →
           v ∈ ucs_visited st ∨ v ∈ pq_elements (ucs_pQueue st);
    ri_rel : nonneg_costs g → rel_ok g start (ucs_parent st) (ucs_cost st) }.

Definition XInv (g : Graph) (hf : Node → Z) (start goal : string)
    (st : ucs_state) : Prop :=
  RInv g start goal st
  ∧ (nonneg_costs g → consistent g hf →
     OInv g hf start (edge_in g) (ucs_pQueue st) (ucs_visited st)
          (ucs_cost st)
     ∧ CInv g (ucs_parent st) (ucs_cost st) (ucs_visited st)).

(** The reported cost is the cost of the returned path and the least
    cost of a path from start to goal. *)
Definition optimal_post (g : Graph) (start goal : string) (r : Result)
  : Prop :=
  found r = true →
  is_path g (path r) (pathCost r)
  ∧ ∀ c, reach g start goal c → pathCost r ≤ c.

Definition relax_post (g : Graph) (hf : Node → Z) (start goal : string)
    (r : Result) : Prop :=
  search_post g start goal r
  ∧ (nonneg_costs g → consistent g hf → optimal_post g start goal r).

Definition relax_measure (g : Graph) (st : ucs_state) : nat :=
  measure g (pq_elements (ucs_pQueue st)) (ucs_visited st).

Lemma relax_step_ok g hf fuel start goal st :
  wf_graph g → is_Some (nodes g !! start) → (search_bound g ≤ fuel)%nat →
  nonneg_costs g ∨ ¬ reachable g start goal →
  XInv g hf start goal st →
  (∃ st', relax_step hf g fuel start goal st = Done (inl st')
          ∧ XInv g hf start goal st'
          ∧ (relax_measure g st' < relax_measure g st)%nat)
  ∨ (∃ r, relax_step hf g fuel start goal st = Done (inr r)
          ∧ relax_post g hf start goal r).
Proof.
  intros Hwf Hs Hfuel Hcase [[Hh Hcore Hdom Hcover Hrel] HO].
  unfold relax_step, relax_measure.
  destruct st as [pq V P G E].
  cbn [ucs_pQueue ucs_visited ucs_parent ucs_cost ucs_exploredOrder] in *.
  destruct (pop_ok pq Hh)
    as [[-> ->]|(m & pq' & -> & -> & Hh' & Hpq & Hel & Hmin)].
  { right.
    destruct (buildResult_missing g fuel start goal _ _ _ _ Hcore eq_refl)
      as (r & -> & Hp & Hf).
    exists r. split; [done|]. split; [done|].
    intros _ _ Hf'. congruence. }
  cbn [or_fail mbind outcome_mbind obind].
  set (cur := element m) in *.
  assert (∀ v, v ∈ V → is_Some (G !! v)) as HVG.
  { intros v Hv. apply Hdom, (si_parent _ _ _ _ _ _ _ Hcore). by right. }
  assert (cur ∈ pq_elements pq) as HcurF by (rewrite Hel; by left).
  assert (is_Some (G !! cur)) as [gc Hgc].
  { apply Hdom, (si_parent _ _ _ _ _ _ _ Hcore). by left. }
  case_decide as Hvis.
  { left. eexists. split; [done|].
    destruct (SInv_skip g start goal _ _ _ _ cur _ Hcore Hel) as [? ?];
      [done|].
    split; [|done]. split; [split|]; simpl; try done.
    - intros v Hv. destruct (Hcover v Hv) as [?|Hin]; [by left|].
      rewrite Hel in Hin. apply elem_of_cons in Hin as [->|?]; eauto.
    - intros Hn Hc. destruct (HO Hn Hc). split; [|done].
      eapply OInv_pop_skip; eauto. }
  case_decide as Hgoal.
  { right. rewrite Hgoal in *.
    assert (nonneg_costs g) as Hn.
    { destruct Hcase as [?|Hnr]; [done|]. destruct Hnr.
      apply (si_reach _ _ _ _ _ _ _ Hcore). by left. }
    specialize (Hrel Hn).
    destruct (buildResult_found g fuel start goal _ _ _ _ _ (Some G)
                Hwf Hs Hfuel Hcore (ro_parent _ _ _ _ Hrel) Hel)
      as (r & l & -> & Hp & Hf & Hl & Hpath & Hc); [done|].
    exists r. split; [done|]. split; [done|]. intros _ Hcons _.
    destruct (HO Hn Hcons) as [HO1 [HC1 _]].
    rewrite Hc, Hgc. simpl. split.
    { destruct (HC1 goal) as (l' & c & Hl' & Hp' & Hcg).
      { apply Hdom. eauto. }
      rewrite (chain_functional _ _ _ _ Hl Hl') in Hpath.
      rewrite Hpath. congruence. }
    destruct (OInv_pop_expand g hf start pq V G m pq' HO1 Hpq Hmin)
      as [Hopt _]; [fold cur; by rewrite Hgoal|by eapply ro_start|done..|].
    fold cur in Hopt. rewrite Hgoal in Hopt. intros c Hr. by apply Hopt. }
  left.
  pose proof (getNeighbors_good g cur Hwf) as Hgood.
  destruct (relax_neighbors_ok g hf start cur (getNeighbors g cur)
              (UcsState pq' ({[cur]} ∪ V) P G (E ++ [cur])))
    as (st' & pushed & Hrun & Hh'' & Hq & HV' & HE & Hp & Hlen & Hcov & Hdom'
        & Hmono & Hnew & Hrel'); simpl; eauto.
  rewrite Hrun. exists st'. split; [done|].
  pose proof Hrun as Hrun'.
  destruct st' as [pq'' V' P' G' E']. simpl in *. subst V' E'.
  rewrite Forall_forall in Hgood.
  assert (∀ v, v ∈ pushed → is_Some (G' !! v)) as HpG.
  { intros v Hin. destruct (Hp v Hin) as (nb & Hnb & <-). by apply Hcov. }
  destruct (SInv_expand g start goal (pq_elements pq) V E P
              cur (pq_elements pq') (pq_elements pq'') P' Hwf Hs Hcore)
    as [Hcore' Hμ]; try done.
  { intros v Hin. rewrite Hq. apply elem_of_app. by right. }
  { intros v Hin. rewrite Hq in Hin.
    apply elem_of_app in Hin as [Hin|?]; [right|by left].
    destruct (Hp v Hin) as (nb & Hnb & <-).
    eexists. apply good_nb_target. by apply Hgood. }
  { intros v w He.
    destruct (getNeighbors_edge g cur v w Hwf He) as (nb & Hnb & <- & _).
    destruct (Hnew _ (Hcov nb Hnb)) as [HG|Hin].
    - destruct (Hcover _ HG) as [?|Hin]; [by left|].
      rewrite Hel in Hin. apply elem_of_cons in Hin as [->|?]; [by right; left|].
      right; right. rewrite Hq. apply elem_of_app. by right.
    - right; right. rewrite Hq. apply elem_of_app. by left. }
  { rewrite Hq, length_app. unfold outdeg. lia. }
  { intros v Hin. apply Hdom'.
    destruct Hin as [Hin|[?| ->]].
    - rewrite Hq in Hin. apply elem_of_app in Hin as [?|?]; [by apply HpG|].
      apply Hmono, Hdom, (si_parent _ _ _ _ _ _ _ Hcore). left.
      rewrite Hel. by right.
    - by apply Hmono, HVG.
    - apply Hmono. eauto. }
  split; [|done]. split; [split|]; simpl; try done.
  - intros v Hv. destruct (Hnew v Hv) as [HG|Hin].
    + destruct (Hcover _ HG) as [?|Hin]; [left; set_solver|].
      rewrite Hel in Hin. apply elem_of_cons in Hin as [->|?];
        [left; set_solver|].
      right. rewrite Hq. apply elem_of_app. by right.
    + right. rewrite Hq. apply elem_of_app. by left.
  - intros Hn. by apply Hrel', Hrel.
  - intros Hn Hcons. specialize (Hrel Hn).
    destruct (HO Hn Hcons) as [HO1 [HC1 HC2]].
    destruct (OInv_pop_expand g hf start pq V G m pq' HO1 Hpq Hmin)
      as [_ HO0]; [done|by eapply ro_start|done..|].
    pose proof (OInv_neighbors g hf start cur (getNeighbors g cur)
                  ltac:(by apply Forall_forall) Hn
                  (λ u v w, u ≠ cur ∧ edge_in g u v w)
                  (UcsState pq' ({[cur]} ∪ V) P G (E ++ [cur]))
                  (UcsState pq'' ({[cur]} ∪ V) P' G' (E ++ [cur]))
                  Hh' Hdom Hrel) as HO'.
    simpl in HO'. destruct HO' as [HO' HC']; [..|exact HO0| |exact Hrun'|].
    + intros v [->%elem_of_singleton|?]%elem_of_union; eauto.
    + set_solver.
    + split; [done|]. intros v p Hv. specialize (HC2 v p Hv). set_solver.
    + split; [|done]. eapply OInv_weaken; [|done].
      intros u v w He. destruct (decide (u = cur)) as [->|Hne].
      * right. split; [done|].
        destruct (getNeighbors_edge g cur v w Hwf He) as (nb & ? & ? & ?).
        by exists nb.
      * by left.
Qed.

Theorem relax_correct g hf fuel start goal p0 :
  wf_graph g → is_Some (nodes g !! start) → (search_bound g ≤ fuel)%nat →
  nonneg_costs g ∨ ¬ reachable g start goal →
  p0 = hval g hf start →
  ∃ r, run (relax_step hf g fuel start goal) fuel
           (UcsState [mkItem start p0] ∅ {[start := None]} {[start := 0]} [])
       = Done r
       ∧ relax_post g hf start goal r.
Proof.
  intros Hwf Hs Hfuel Hcase ->.
  apply (run_returns _ (XInv g hf start goal) (relax_measure g)).
  - intros st Hst. by apply relax_step_ok.
  - split; [split|]; simpl.
    + apply heap_ok_singleton.
    + apply SInv_init.
    + intros v. destruct (decide (v = start)) as [->|Hne].
      * rewrite !lookup_singleton_eq. split; eauto.
      * by rewrite !lookup_singleton_ne.
    + intros v [c Hv]. apply lookup_singleton_Some in Hv as [<- _].
      right. by left.
    + intros Hn. split.
      * apply parent_ok_init.
      * apply lookup_singleton_eq.
      * intros v c Hv. apply lookup_singleton_Some in Hv as [<- <-].
        constructor.
      * intros v p Hv. by apply lookup_singleton_Some in Hv as [_ ?].
    + intros Hn Hcons. split; [split; simpl|split].
      * intros it ->%list_elem_of_singleton. simpl.
        rewrite lookup_singleton_eq. eexists. split; [done|lia].
      * intros v gv Hv _. apply lookup_singleton_Some in Hv as [<- <-].
        rewrite Z.add_0_l. by left.
      * set_solver.
      * set_solver.
      * intros v [o Hv]. apply lookup_singleton_Some in Hv as [<- <-].
        exists [start], 0. split_and!.
        -- constructor. apply lookup_singleton_eq.
        -- constructor.
        -- apply lookup_singleton_eq.
      * intros v p Hv. by apply lookup_singleton_Some in Hv as [_ ?].
  - pose proof (measure_init g start). unfold relax_measure. simpl in *. lia.
Qed.

Lemma consistent_zero g : nonneg_costs g → consistent g (λ _, 0).
Proof.
  intros Hn u es Hes. specialize (Hn u es Hes). simpl in Hn.
  eapply Forall_impl; [done|]. intros e He. simpl in *.
  unfold hval. destruct (nodes g !! u), (nodes g !! edge_to e); simpl; lia.
Qed.

Theorem ucs_correct g fuel start goal :
  wf_graph g → is_Some (nodes g !! start) → (search_bound g ≤ fuel)%nat →
  nonneg_costs g ∨ ¬ reachable g start goal →
  ∃ r, ucs g fuel start goal = Done r
       ∧ search_post g start goal r
       ∧ (nonneg_costs g → optimal_post g start goal r).
Proof.
  intros Hwf Hs Hfuel Hcase. rewrite ucs_relax.
  destruct (relax_correct g (λ _, 0) fuel start goal 0 Hwf Hs Hfuel Hcase)
    as (r & Hr & Hp & Ho).
  { unfold hval. by destruct (nodes g !! start). }
  exists r. split_and!; [done..|]. intros Hn. apply Ho; [done|].
  by apply consistent_zero.
Qed.

Theorem astar_correct g fuel start goal :
  wf_graph g → is_Some (nodes g !! start) → (search_bound g ≤ fuel)%nat →
  nonneg_costs g ∨ ¬ reachable g start goal →
  ∃ r, astar g fuel start goal = Done r
       ∧ search_post g start goal r
       ∧ (nonneg_costs g → consistent g node_h →
          optimal_post g start goal r).
Proof.
  intros Hwf [nd Hnd] Hfuel Hcase. rewrite (astar_relax _ _ _ _ nd Hnd).
  destruct (relax_correct g node_h fuel start goal (node_h nd) Hwf
              ltac:(eauto) Hfuel Hcase) as (r & Hr & Hp & Ho).
  { unfold hval. by rewrite Hnd. }
  exists r. by split_and!.
Qed.

(** ** More fuel does not change a result *)

Lemma reconstruct_mono n m parent v acc l :
  reconstruct n parent v acc = Done l → (n ≤ m)%nat →
  reconstruct m parent v acc = Done l.
Proof.
  revert m v acc. induction n as [|n IH]; intros m v acc Hr Hle; [done|].
  destruct m as [|m]; [lia|]. simpl in *.
  destruct (parent !! v) as [[p|]|]; try done.
  apply IH; [done|lia].
Qed.

Lemma buildResult_mono g n m start goal parent E fnd cm r :
  buildResult g n start goal parent E fnd cm = Done r → (n ≤ m)%nat →
  buildResult g m start goal parent E fnd cm = Done r.
Proof.
  unfold buildResult. intros Hr Hle.
  destruct (fnd && bool_decide (is_Some (parent !! goal))); [|done].
  simpl in *.
  destruct (reconstruct n parent goal []) as [l| |] eqn:Hl; try done.
  by rewrite (reconstruct_mono _ _ _ _ _ _ Hl Hle).
Qed.

Lemma buildResult_inr_mono {S} g n m start goal parent E fnd cm
    (x : S + Result) :
  inr <$> buildResult g n start goal parent E fnd cm = Done x →
  (n ≤ m)%nat →
  inr <$> buildResult g m start goal parent E fnd cm = Done x.
Proof.
  intros (r & Hr & ->)%fmap_Done Hle.
  by rewrite (buildResult_mono _ _ _ _ _ _ _ _ _ _ Hr Hle).
Qed.

Lemma run_mono {S R} (step : nat → S → outcome (S + R)) n m k k' st r :
  (∀ st x, step n st = Done x → step m st = Done x) →
  run (step n) k st = Done r → (k ≤ k')%nat →
  run (step m) k' st = Done r.
Proof.
  intros Hstep. revert k' st. induction k as [|k IH]; intros k' st Hr Hle;
    [done|].
  destruct k' as [|k']; [lia|]. simpl in *.
  destruct (step n st) as [[st'|r']| |] eqn:Hs; try done;
    rewrite (Hstep _ _ Hs); [|done].
  apply IH; [done|lia].
Qed.

Lemma bfs_step_mono g n m start goal st x :
  (n ≤ m)%nat → bfs_step g n start goal st = Done x →
  bfs_step g m start goal st = Done x.
Proof.
  unfold bfs_step. intros Hle.
  repeat case_match; eauto using buildResult_inr_mono.
Qed.

Lemma dfs_step_mono g n m start goal st x :
  (n ≤ m)%nat → dfs_step g n start goal st = Done x →
  dfs_step g m start goal st = Done x.
Proof.
  unfold dfs_step. intros Hle.
  repeat case_match; eauto using buildResult_inr_mono.
Qed.

Lemma ucs_step_mono g n m start goal st x :
  (n ≤ m)%nat → ucs_step g n start goal st = Done x →
  ucs_step g m start goal st = Done x.
Proof.
  unfold ucs_step. intros Hle.
  destruct (isEmpty _); [eauto using buildResult_inr_mono|].
  destruct (or_fail (dequeue _) _) as [[popped pq]| |]; [|done..]. simpl.
  destruct (or_fail popped _) as [cur| |]; [|done..]. simpl.
  repeat case_match; eauto using buildResult_inr_mono.
Qed.

Lemma astar_step_mono g n m start goal st x :
  (n ≤ m)%nat → astar_step g n start goal st = Done x →
  astar_step g m start goal st = Done x.
Proof.
  unfold astar_step. intros Hle.
  destruct (isEmpty _); [eauto using buildResult_inr_mono|].
  destruct (or_fail (dequeue _) _) as [[popped pq]| |]; [|done..]. simpl.
  destruct (or_fail popped _) as [cur| |]; [|done..]. simpl.
  repeat case_match; eauto using buildResult_inr_mono.
Qed.

Lemma greedy_step_mono g n m start goal st x :
  (n ≤ m)%nat → greedy_step g n start goal st = Done x →
  greedy_step g m start goal st = Done x.
Proof.
  unfold greedy_step. intros Hle.
  destruct (isEmpty _); [eauto using buildResult_inr_mono|].
  destruct (or_fail (dequeue _) _) as [[popped pq]| |]; [|done..]. simpl.
  destruct (or_fail popped _) as [cur| |]; [|done..]. simpl.
  repeat case_match; eauto using buildResult_inr_mono.
Qed.

Lemma runAlgorithm_mono g n m algoType start goal r :
  runAlgorithm g n algoType start goal = Done r → (n ≤ m)%nat →
  runAlgorithm g m algoType start goal = Done r.
Proof.
  intros Hr Hle. destruct algoType; simpl in *.
  - eapply (run_mono (λ f, bfs_step g f start goal)); [|done..].
    intros st x. by apply bfs_step_mono.
  - eapply (run_mono (λ f, dfs_step g f start goal)); [|done..].
    intros st x. by apply dfs_step_mono.
  - unfold ucs in *. destruct (ucs_init start) as [st| |]; [|done..].
    simpl in *.
    eapply (run_mono (λ f, ucs_step g f start goal)); [|done..].
    intros st' x. by apply ucs_step_mono.
  - unfold astar in *. destruct (astar_init g start) as [st| |]; [|done..].
    simpl in *.
    eapply (run_mono (λ f, astar_step g f start goal)); [|done..].
    intros st' x. by apply astar_step_mono.
  - unfold greedy in *. destruct (greedy_init g start) as [st| |]; [|done..].
    simpl in *.
    eapply (run_mono (λ f, greedy_step g f start goal)); [|done..].
    intros st' x. by apply greedy_step_mono.
Qed.

(** ** greedy keeps the first predecessor and cost of a vertex *)






(** The states that the loop of [greedy] goes through. *)
Definition greedy_next (g : Graph) (fuel : nat) (start goal : string)
    (st st' : greedy_state) : Prop :=
  greedy_step g fuel start goal st = Done (inl st').


(** ** A search from a vertex to itself *)

Lemma buildResult_self g n v E cm :
  buildResult g (S n) v v {[v := None]} E true cm =
    Done (mkResult true [v]
            (match cm with Some m => default 0 (m !! v) | None => 0 end)
            (length E) E).
Proof.
  unfold buildResult. rewrite lookup_singleton_eq.
  rewrite bool_decide_true by eauto. simpl.
  rewrite lookup_singleton_eq. simpl. by destruct cm.
Qed.

Lemma dequeue_singleton x : dequeue [x] = Some (Some (element x), []).
Proof. done. Qed.

Lemma runAlgorithm_self g fuel algoType v :
  is_Some (nodes g !! v) → (1 ≤ fuel)%nat →
  runAlgorithm g fuel algoType v v = Done (mkResult true [v] 0 1 [v]).
Proof.
  intros [nd Hnd] Hfuel. destruct fuel as [|n]; [lia|].
  destruct algoType; simpl.
  - unfold bfs, bfs_init. simpl. unfold bfs_step. simpl.
    rewrite decide_True by done. by rewrite buildResult_self.
  - unfold dfs, dfs_init. simpl. unfold dfs_step. simpl.
    rewrite decide_False by set_solver. rewrite decide_True by done.
    by rewrite buildResult_self.
  - unfold ucs, ucs_init. rewrite enqueue_new. simpl.
    unfold ucs_step. simpl. rewrite decide_False by set_solver.
    rewrite decide_True by done. rewrite buildResult_self. simpl.
    by rewrite lookup_singleton_eq.
  - unfold astar, astar_init, getNode. rewrite Hnd. simpl.
    rewrite lookup_singleton_eq. simpl. rewrite enqueue_new. simpl.
    unfold astar_step. simpl. rewrite decide_False by set_solver.
    rewrite decide_True by done. rewrite buildResult_self. simpl.
    by rewrite lookup_singleton_eq.
  - unfold greedy, greedy_init, getNode. rewrite Hnd. simpl.
    rewrite enqueue_new. simpl.
    unfold greedy_step. simpl. rewrite decide_False by set_solver.
    rewrite decide_True by done. rewrite buildResult_self. simpl.
    by rewrite lookup_singleton_eq.
Qed.
Lemma reach_path' g s t l c : path_between g s t l c → reach g s t c.
Proof. intros H. apply reach_path. eauto. Qed.

(** An edge of a concrete graph. *)
Ltac solve_edge :=
  eexists; split; [vm_compute; reflexivity|]; set_solver.

(** A vertex of a concrete graph. *)
Ltac solve_node := eexists; vm_compute; reflexivity.

(** ** The graphs used as examples *)

(** The graph that [new Graph()] holds. *)
Definition default_graph : Graph :=
  mkGraph
    (list_to_map
       [ ("A", mkNode "A" 100 100 7); ("B", mkNode "B" 250 80 6);
         ("C", mkNode "C" 150 200 5); ("D", mkNode "D" 300 200 4);
         ("E", mkNode "E" 400 150 2); ("F", mkNode "F" 200 300 3);
         ("G", mkNode "G" 350 320 1); ("Goal", mkNode "Goal" 450 280 0) ])
    (list_to_map
       [ ("A", [mkEdge "B" 2; mkEdge "C" 3]);
         ("B", [mkEdge "A" 2; mkEdge "D" 3; mkEdge "E" 4]);
         ("C", [mkEdge "A" 3; mkEdge "D" 2; mkEdge "F" 4]);
         ("D", [mkEdge "B" 3; mkEdge "C" 2; mkEdge "E" 1; mkEdge "G" 3]);
         ("E", [mkEdge "B" 4; mkEdge "D" 1; mkEdge "Goal" 2]);
         ("F", [mkEdge "C" 4; mkEdge "G" 2]);
         ("G", [mkEdge "D" 3; mkEdge "F" 2; mkEdge "Goal" 3]);
         ("Goal", [mkEdge "E" 2; mkEdge "G" 3]) ]).

Lemma newGraph_default : newGraph = Some default_graph.
Proof. vm_compute. reflexivity. Qed.

(** Four vertices; the heuristic of [A] is below its distance 11 to [G]
    but drops by 10 along the edge of cost 1 to [C]. *)
Definition detour_graph : Graph :=
  mkGraph
    (list_to_map
       [ ("S", mkNode "S" 0 0 0); ("A", mkNode "A" 0 0 10);
         ("C", mkNode "C" 0 0 0); ("G", mkNode "G" 0 0 0) ])
    (list_to_map
       [ ("S", [mkEdge "A" 1; mkEdge "C" 3]); ("A", [mkEdge "C" 1]);
         ("C", [mkEdge "G" 10]); ("G", []) ]).

(** [detour_graph] as the application builds it. *)
Lemma detour_graph_built :
  (let g := addNode emptyGraph "S" 0 0 0 in
   let g := addNode g "A" 0 0 10 in
   let g := addNode g "C" 0 0 0 in
   let g := addNode g "G" 0 0 0 in
   '(_, g) ← addEdge g "S" "A" 1 false;
   '(_, g) ← addEdge g "S" "C" 3 false;
   '(_, g) ← addEdge g "A" "C" 1 false;
   '(_, g) ← addEdge g "C" "G" 10 false;
   Some g) = Some detour_graph.
Proof. vm_compute. reflexivity. Qed.

(** The same graph with the heuristic of [A] lowered to 1. *)
Definition gentle_graph : Graph :=
  mkGraph (<["A" := mkNode "A" 0 0 1]> (nodes detour_graph))
          (edges detour_graph).

(** An edge from [A] to [B], and a vertex [C] apart. *)
Definition island_graph : Graph :=
  mkGraph
    (list_to_map
       [ ("A", mkNode "A" 0 0 0); ("B", mkNode "B" 0 0 0);
         ("C", mkNode "C" 0 0 0) ])
    (list_to_map [ ("A", [mkEdge "B" 1]); ("B", []); ("C", []) ]).

Lemma detour_graph_edges u v w :
  edge_in detour_graph u v w →
  (u, v, w) ∈ [("S", "A", 1); ("S", "C", 3); ("A", "C", 1); ("C", "G", 10)].
Proof.
  intros (es & Hes & Hin). unfold detour_graph in Hes. simpl in Hes.
  repeat (apply lookup_insert_Some in Hes as [[<- <-]|[_ Hes]];
          [set_solver|]).
  by rewrite lookup_empty in Hes.
Qed.

Lemma island_graph_edges u v w :
  edge_in island_graph u v w → u = "A" ∧ v = "B".
Proof.
  intros (es & Hes & Hin). unfold island_graph in Hes. simpl in Hes.
  repeat (apply lookup_insert_Some in Hes as [[<- <-]|[_ Hes]];
          [set_solver|]).
  by rewrite lookup_empty in Hes.
Qed.

Lemma island_unreachable : ¬ reachable island_graph "A" "C".
Proof.
  assert (∀ v c, reach island_graph "A" v c → v = "A" ∨ v = "B") as H.
  { induction 1 as [|u v c w _ _ He]; [by left|].
    apply island_graph_edges in He as [_ ->]. by right. }
  intros [c Hc]. by destruct (H _ _ Hc).
Qed.

Lemma detour_reach_A v c :
  reach detour_graph "A" v c →
  (v = "A" ∧ c = 0) ∨ (v = "C" ∧ c = 1) ∨ (v = "G" ∧ c = 11).
Proof.
  induction 1 as [|u v c w _ IH He]; [by left|].
  apply detour_graph_edges in He.
  repeat (apply elem_of_cons in He as [He|He]; [simplify_eq; naive_solver lia|]).
  by apply elem_of_nil in He.
Qed.

(** ** The five strategies together *)

(** [ucs] and [astar] need costs that are not negative to rebuild the path
    of a goal they reach. *)
Definition costs_ok (g : Graph) (algoType : strategy) : Prop :=
  algoType = Ucs ∨ algoType = Astar → nonneg_costs g.

Lemma runAlgorithm_correct g fuel algoType start goal :
  wf_graph g → is_Some (nodes g !! start) → (search_bound g ≤ fuel)%nat →
  costs_ok g algoType ∨ ¬ reachable g start goal →
  ∃ r, runAlgorithm g fuel algoType start goal = Done r
       ∧ search_post g start goal r.
Proof.
  intros Hwf Hs Hfuel Hcase. destruct algoType; simpl.
  - destruct (bfs_correct g fuel start goal) as (r & ? & ? & _); eauto.
  - destruct (dfs_correct g fuel start goal) as (r & ? & ? & _); eauto.
  - destruct (ucs_correct g fuel start goal) as (r & ? & ? & _); eauto.
    destruct Hcase as [Hc|?]; [left; apply Hc|]; eauto.
  - destruct (astar_correct g fuel start goal) as (r & ? & ? & _); eauto.
    destruct Hcase as [Hc|?]; [left; apply Hc|]; eauto.
  - destruct (greedy_correct g fuel start goal) as (r & ? & ? & _); eauto.
Qed.

Lemma search_post_found g start goal r :
  search_post g start goal r → reachable g start goal → found r = true.
Proof.
  intros Hp Hr. destruct (found r) eqn:Hf; [done|].
  by destruct (sp_missing _ _ _ _ Hp Hf) as (_ & _ & ? & _).
Qed.

Lemma search_post_missing g start goal r :
  search_post g start goal r → ¬ reachable g start goal → found r = false.
Proof.
  intros Hp Hr. destruct (found r) eqn:Hf; [|done].
  destruct (sp_found _ _ _ _ Hp Hf) as (_ & c & Hc).
  destruct Hr. exists c. apply reach_path. eauto.
Qed.

(** ** The minimum over all paths *)

(** [m] is the least total cost of a path from [s] to [t]. *)
Definition min_cost (g : Graph) (s t : string) (m : Z) : Prop :=
  (∃ l, path_between g s t l m) ∧ ∀ l c, path_between g s t l c → m ≤ c.

(** The heuristic of no vertex exceeds the cost of a path from it to
    [goal]. *)
Definition admissible (g : Graph) (goal : string) : Prop :=
  ∀ v l c, path_between g v goal l c → hval g node_h v ≤ c.

Lemma optimal_min_cost g start goal r :
  search_post g start goal r → optimal_post g start goal r →
  found r = true → min_cost g start goal (pathCost r).
Proof.
  intros Hp Ho Hf. destruct (Ho Hf) as [Hpath Hmin].
  destruct (sp_found _ _ _ _ Hp Hf) as (_ & c & _ & Hh & Hl). split.
  - exists (path r). by split_and!.
  - intros l c' Hc'. apply Hmin, reach_path. eauto.
Qed.

Lemma ucs_min_cost g start goal fuel :
  wf_graph g → nonneg_costs g → is_Some (nodes g !! start) →
  reachable g start goal → (search_bound g ≤ fuel)%nat →
  ∃ r, ucs g fuel start goal = Done r ∧ found r = true
       ∧ is_path g (path r) (pathCost r)
       ∧ min_cost g start goal (pathCost r).
Proof.
  intros Hwf Hn Hs Hr Hfuel.
  destruct (ucs_correct g fuel start goal) as (r & Hrun & Hp & Ho); eauto.
  pose proof (search_post_found _ _ _ _ Hp Hr) as Hf.
  exists r. split_and!; [done..|by apply Ho|].
  eauto using optimal_min_cost.
Qed.

Lemma astar_min_cost g start goal fuel :
  wf_graph g → nonneg_costs g → consistent g node_h →
  is_Some (nodes g !! start) →
  reachable g start goal → (search_bound g ≤ fuel)%nat →
  ∃ r, astar g fuel start goal = Done r ∧ found r = true
       ∧ is_path g (path r) (pathCost r)
       ∧ min_cost g start goal (pathCost r).
Proof.
  intros Hwf Hn Hc Hs Hr Hfuel.
  destruct (astar_correct g fuel start goal) as (r & Hrun & Hp & Ho); eauto.
  pose proof (search_post_found _ _ _ _ Hp Hr) as Hf.
  exists r. split_and!; [done..|by apply Ho|].
  eauto using optimal_min_cost.
Qed.
(** * The claims *)

(** Four vertices; the heuristic of [A] is below its distance 22 to [G]
    but drops by 20 along the edge of cost 2 to [C].  The edge from [S]
    to [G] costs 25, the way over [A] and [C] costs 24. *)
Definition bypass_graph : Graph :=
  mkGraph
    (list_to_map
       [ ("S", mkNode "S" 0 0 0); ("A", mkNode "A" 0 0 20);
         ("C", mkNode "C" 0 0 0); ("G", mkNode "G" 0 0 0) ])
    (list_to_map
       [ ("S", [mkEdge "A" 2; mkEdge "C" 6; mkEdge "G" 25]);
         ("A", [mkEdge "C" 2]); ("C", [mkEdge "G" 20]); ("G", []) ]).

(** [bypass_graph] as the application builds it. *)
Lemma bypass_graph_built :
  (let g := addNode emptyGraph "S" 0 0 0 in
   let g := addNode g "A" 0 0 20 in
   let g := addNode g "C" 0 0 0 in
   let g := addNode g "G" 0 0 0 in
   '(_, g) ← addEdge g "S" "A" 2 false;
   '(_, g) ← addEdge g "S" "C" 6 false;
   '(_, g) ← addEdge g "S" "G" 25 false;
   '(_, g) ← addEdge g "A" "C" 2 false;
   '(_, g) ← addEdge g "C" "G" 20 false;
   Some g) = Some bypass_graph.
Proof. vm_compute. reflexivity. Qed.

Lemma bypass_graph_edges u v w :
  edge_in bypass_graph u v w →
  (u, v, w) ∈ [("S", "A", 2); ("S", "C", 6); ("S", "G", 25);
               ("A", "C", 2); ("C", "G", 20)].
Proof.
  intros (es & Hes & Hin). unfold bypass_graph in Hes. simpl in Hes.
  repeat (apply lookup_insert_Some in Hes as [[<- <-]|[_ Hes]];
          [set_solver|]).
  by rewrite lookup_empty in Hes.
Qed.

Lemma bypass_reach_A v c :
  reach bypass_graph "A" v c →
  (v = "A" ∧ c = 0) ∨ (v = "C" ∧ c = 2) ∨ (v = "G" ∧ c = 22).
Proof.
  induction 1 as [|u v c w _ IH He]; [by left|].
  apply bypass_graph_edges in He.
  repeat (apply elem_of_cons in He as [He|He]; [simplify_eq; naive_solver lia|]).
  by apply elem_of_nil in He.
Qed.

Lemma bypass_graph_nonneg : nonneg_costs bypass_graph.
Proof. apply (bool_decide_unpack _). by vm_compute. Qed.

(** The heuristic of [bypass_graph] never overestimates the cost of
    reaching [G]. *)
Lemma bypass_graph_admissible : admissible bypass_graph "G".
Proof.
  intros v l c Hc. apply reach_path' in Hc.
  pose proof (reach_nonneg _ _ _ _ bypass_graph_nonneg Hc) as Hc0.
  destruct (decide (v = "A")) as [->|Hne].
  - apply bypass_reach_A in Hc as [[? _]|[[? _]|[_ ->]]]; done.
  - assert (hval bypass_graph node_h v = 0) as ->; [|done].
    unfold hval, bypass_graph. simpl.
    destruct (_ !! v) as [nd|] eqn:Hnd; [|done].
    repeat (apply lookup_insert_Some in Hnd as [[<- <-]|[_ Hnd]]; [done|]).
    by rewrite lookup_empty in Hnd.
Qed.

Lemma bypass_graph_reach : reachable bypass_graph "S" "G".
Proof.
  exists (0 + 25).
  apply (reach_edge _ _ "S" "G" 0 25); [constructor|solve_edge].
Qed.

Lemma bypass_graph_ucs :
  ucs bypass_graph 11 "S" "G"
  = Done (mkResult true ["S"; "A"; "C"; "G"] 24 4 ["S"; "A"; "C"; "G"]).
Proof. by vm_compute. Qed.

Lemma bypass_graph_min_cost : min_cost bypass_graph "S" "G" 24.
Proof.
  destruct (ucs_min_cost bypass_graph "S" "G" 11)
    as (r & Hrun & _ & _ & Hmin).
  - apply (bool_decide_unpack _). by vm_compute.
  - apply bypass_graph_nonneg.
  - solve_node.
  - apply bypass_graph_reach.
  - vm_compute. lia.
  - rewrite bypass_graph_ucs in Hrun. injection Hrun as <-. exact Hmin.
Qed.

(** C1: the claim fails for [astar].  On [bypass_graph] no cost is
    negative, the goal is reachable and the heuristic never overestimates;
    the minimum cost from [S] to [G] is 24, which [ucs] reports, but
    [astar] returns the path [S, G] and its cost 25. *)
Theorem C1_astar_admissible_not_minimum :
  nonneg_costs bypass_graph
  ∧ reachable bypass_graph "S" "G"
  ∧ admissible bypass_graph "G"
  ∧ min_cost bypass_graph "S" "G" 24
  ∧ (∃ r, ucs bypass_graph 11 "S" "G" = Done r ∧ pathCost r = 24)
  ∧ ∃ r, astar bypass_graph 11 "S" "G" = Done r
         ∧ found r = true
         ∧ path r = ["S"; "G"]
         ∧ exploredOrder r = ["S"; "C"; "A"; "G"]
         ∧ pathCost r = 25
         ∧ manualCost bypass_graph (path r) 0 = Done 25.
Proof.
  split_and!.
  - apply bypass_graph_nonneg.
  - apply bypass_graph_reach.
  - apply bypass_graph_admissible.
  - apply bypass_graph_min_cost.
  - eexists. split; [apply bypass_graph_ucs|done].
  - exists (mkResult true ["S"; "G"] 25 4 ["S"; "C"; "A"; "G"]).
    split_and!; [by vm_compute|done..|by vm_compute].
Qed.

Lemma gentle_graph_wf : wf_graph gentle_graph.
Proof. apply (bool_decide_unpack _). by vm_compute. Qed.

Lemma gentle_graph_reach : reachable gentle_graph "S" "G".
Proof.
  exists (0 + 3 + 10).
  apply (reach_edge _ _ "C" "G" (0 + 3) 10); [|solve_edge].
  apply (reach_edge _ _ "S" "C" 0 3); [constructor|solve_edge].
Qed.

(** C2: on the default graph, [ucs] and [astar] from [A] to [Goal] both
    report the cost 8, and [astar] explores no more vertices than [ucs]. *)
Theorem C2_default_fixture fuel :
  (search_bound default_graph ≤ fuel)%nat →
  newGraph = Some default_graph
  ∧ ∃ ru ra,
      ucs default_graph fuel "A" "Goal" = Done ru
      ∧ astar default_graph fuel "A" "Goal" = Done ra
      ∧ pathCost ru = 8 ∧ pathCost ra = 8
      ∧ (nodesExplored ra ≤ nodesExplored ru)%nat.
Proof.
  intros Hfuel. split; [apply newGraph_default|].
  assert (32 ≤ fuel)%nat as Hle.
  { assert (search_bound default_graph = 32%nat) as <-; [|done].
    by vm_compute. }
  exists (mkResult true ["A"; "B"; "E"; "Goal"] 8 7
            ["A"; "B"; "C"; "D"; "E"; "F"; "Goal"]),
         (mkResult true ["A"; "B"; "E"; "Goal"] 8 5
            ["A"; "B"; "C"; "E"; "Goal"]).
  split_and!; [| |done..|simpl; lia].
  - apply (runAlgorithm_mono default_graph 32 fuel Ucs); [|done].
    by vm_compute.
  - apply (runAlgorithm_mono default_graph 32 fuel Astar); [|done].
    by vm_compute.
Qed.

Lemma C2_default_fixture_witness :
  newGraph = Some default_graph
  ∧ ∃ ru ra,
      ucs default_graph 32 "A" "Goal" = Done ru
      ∧ astar default_graph 32 "A" "Goal" = Done ra
      ∧ pathCost ru = 8 ∧ pathCost ra = 8
      ∧ (nodesExplored ra ≤ nodesExplored ru)%nat.
Proof. apply (C2_default_fixture 32). vm_compute. lia. Defined.

(** C3 (failing input): on [detour_graph], [astar] returns the path
    S, A, C, G, whose edges cost 12 in total, and reports the cost 13. *)
Theorem C3_astar_cost_differs_from_path :
  ∃ r, astar detour_graph 10 "S" "G" = Done r
       ∧ found r = true
       ∧ path r = ["S"; "A"; "C"; "G"]
       ∧ pathCost r = 13
       ∧ manualCost detour_graph (path r) 0 = Done 12.
Proof.
  exists (mkResult true ["S"; "A"; "C"; "G"] 13 4 ["S"; "C"; "A"; "G"]).
  split_and!; by vm_compute.
Qed.

(** C4: whatever is enqueued on a fresh queue, as many calls of [dequeue]
    return the elements of the entries in an order of non-decreasing
    priority, and leave the queue empty. *)
Theorem C4_heap_order (xs : list (string * Z)) :
  ∃ items out final,
    enqueue_all xs newPriorityQueue = Some items
    ∧ dequeue_n (length xs) items
      = Some ((λ i, Some (element i)) <$> out, final)
    ∧ out ≡ₚ uncurry mkItem <$> xs
    ∧ StronglySorted priority_le out
    ∧ isEmpty final = true.
Proof.
  destruct (enqueue_all_ok xs newPriorityQueue heap_ok_nil)
    as (items & Hitems & Hh & Hp).
  rewrite app_nil_r in Hp.
  destruct (dequeue_n_ok (length xs) items Hh) as (out & Hout & Hpo & Hs).
  { by rewrite Hp, length_fmap. }
  exists items, out, []. split_and!; [done..| |done|done].
  by rewrite Hpo.
Qed.

Lemma default_graph_wf : wf_graph default_graph.
Proof. apply (bool_decide_unpack _). by vm_compute. Qed.

Lemma default_graph_nonneg : nonneg_costs default_graph.
Proof. apply (bool_decide_unpack _). by vm_compute. Qed.

Lemma default_graph_reach : reachable default_graph "A" "Goal".
Proof.
  exists (0 + 2 + 4 + 2).
  apply (reach_edge _ _ "E" "Goal" (0 + 2 + 4) 2); [|solve_edge].
  apply (reach_edge _ _ "B" "E" (0 + 2) 4); [|solve_edge].
  apply (reach_edge _ _ "A" "B" 0 2); [constructor|solve_edge].
Qed.


(** C5: when the goal is reachable from start, every strategy returns a
    result with [found] set whose explored order contains the goal. *)
Theorem C5_reachable_goal_found g algoType start goal fuel :
  wf_graph g → costs_ok g algoType → is_Some (nodes g !! start) →
  reachable g start goal → (search_bound g ≤ fuel)%nat →
  ∃ r, runAlgorithm g fuel algoType start goal = Done r
       ∧ found r = true ∧ goal ∈ exploredOrder r.
Proof.
  intros Hwf Hc Hs Hr Hfuel.
  destruct (runAlgorithm_correct g fuel algoType start goal)
    as (r & Hrun & Hp); eauto.
  exists r. pose proof (search_post_found _ _ _ _ Hp Hr) as Hf.
  split_and!; [done..|].
  destruct (sp_found _ _ _ _ Hp Hf) as [Hl _].
  apply last_Some in Hl as [l' ->]. apply elem_of_app. right. by left.
Qed.

Lemma C5_reachable_goal_found_witness :
  ∃ r, runAlgorithm default_graph 32 Astar "A" "Goal" = Done r
       ∧ found r = true ∧ "Goal" ∈ exploredOrder r.
Proof.
  apply C5_reachable_goal_found.
  - apply default_graph_wf.
  - intros _. apply default_graph_nonneg.
  - solve_node.
  - apply default_graph_reach.
  - vm_compute. lia.
Defined.

(** C6: when the goal is not reachable from start, every strategy returns
    [found = false], an empty path, the cost 0, and an explored order that
    holds exactly the vertices reachable from start. *)
Theorem C6_unreachable_goal g algoType start goal fuel :
  wf_graph g → is_Some (nodes g !! start) → ¬ reachable g start goal →
  (search_bound g ≤ fuel)%nat →
  ∃ r, runAlgorithm g fuel algoType start goal = Done r
       ∧ found r = false ∧ path r = [] ∧ pathCost r = 0
       ∧ ∀ v, v ∈ exploredOrder r ↔ reachable g start v.
Proof.
  intros Hwf Hs Hr Hfuel.
  destruct (runAlgorithm_correct g fuel algoType start goal)
    as (r & Hrun & Hp); eauto.
  exists r. pose proof (search_post_missing _ _ _ _ Hp Hr) as Hf.
  destruct (sp_missing _ _ _ _ Hp Hf) as (? & ? & _ & Hall).
  split_and!; [done..|]. intros v. split; [|by apply Hall].
  by apply (sp_sound _ _ _ _ Hp).
Qed.

Lemma C6_unreachable_goal_witness :
  ∃ r, runAlgorithm island_graph 10 Ucs "A" "C" = Done r
       ∧ found r = false ∧ path r = [] ∧ pathCost r = 0
       ∧ ∀ v, v ∈ exploredOrder r ↔ reachable island_graph "A" v.
Proof.
  apply C6_unreachable_goal.
  - apply (bool_decide_unpack _). by vm_compute.
  - solve_node.
  - apply island_unreachable.
  - vm_compute. lia.
Defined.

(** C7: every strategy returns, given fuel for one iteration per vertex
    and edge; no vertex occurs twice in the explored order, so
    [nodesExplored] is at most the number of vertices. *)
Theorem C7_termination_no_repeat g algoType start goal fuel :
  wf_graph g → costs_ok g algoType →
  is_Some (nodes g !! start) → is_Some (nodes g !! goal) →
  (search_bound g ≤ fuel)%nat →
  ∃ r, runAlgorithm g fuel algoType start goal = Done r
       ∧ NoDup (exploredOrder r)
       ∧ nodesExplored r = length (exploredOrder r)
       ∧ (nodesExplored r ≤ size (nodes g))%nat.
Proof.
  intros Hwf Hc Hs _ Hfuel.
  destruct (runAlgorithm_correct g fuel algoType start goal)
    as (r & Hrun & Hp); eauto.
  exists r. split_and!; [done|apply Hp..|].
  rewrite (sp_count _ _ _ _ Hp), <- size_dom.
  apply NoDup_length_size; [apply Hp|]. intros v Hv. apply elem_of_dom.
  eapply reachable_in_graph; [done..|]. by apply (sp_sound _ _ _ _ Hp).
Qed.

Lemma C7_termination_no_repeat_witness :
  ∃ r, runAlgorithm default_graph 32 Dfs "A" "Goal" = Done r
       ∧ NoDup (exploredOrder r)
       ∧ nodesExplored r = length (exploredOrder r)
       ∧ (nodesExplored r ≤ size (nodes default_graph))%nat.
Proof.
  apply C7_termination_no_repeat.
  - apply default_graph_wf.
  - intros [?|?]; discriminate.
  - solve_node.
  - solve_node.
  - vm_compute. lia.
Defined.


(** C9: [dequeue] on an empty queue returns [null] and leaves the queue as
    it is, still empty. *)
Theorem C9_dequeue_empty items :
  isEmpty items = true →
  dequeue items = Some (None, items) ∧ isEmpty items = true.
Proof. intros He. unfold dequeue. by rewrite He. Qed.

Lemma C9_dequeue_empty_witness :
  dequeue newPriorityQueue = Some (None, newPriorityQueue)
  ∧ isEmpty newPriorityQueue = true.
Proof. apply C9_dequeue_empty. reflexivity. Defined.

(** C10: from a vertex of the graph to itself, every strategy finds the
    path of that single vertex, of cost 0, exploring just that vertex. *)
Theorem C10_start_is_goal g algoType v fuel :
  is_Some (nodes g !! v) → (1 ≤ fuel)%nat →
  ∃ r, runAlgorithm g fuel algoType v v = Done r
       ∧ found r = true ∧ path r = [v] ∧ pathCost r = 0
       ∧ exploredOrder r = [v] ∧ nodesExplored r = 1%nat.
Proof.
  intros Hv Hfuel. eexists. split; [by apply runAlgorithm_self|done].
Qed.

Lemma C10_start_is_goal_witness :
  ∃ r, runAlgorithm default_graph 1 Greedy "D" "D" = Done r
       ∧ found r = true ∧ path r = ["D"] ∧ pathCost r = 0
       ∧ exploredOrder r = ["D"] ∧ nodesExplored r = 1%nat.
Proof. apply C10_start_is_goal; [solve_node|lia]. Defined.
(** * Numbers that the code adds without rounding *)

(** The code adds costs as doubles; the embedding adds integers.  The two
    agree on integers of magnitude up to [2 ^ 53], which a double holds
    and adds exactly. *)
Definition exact (z : Z) : Prop := Z.abs z ≤ 2 ^ 53.

Definition Zsum (l : list Z) : Z := foldr Z.add 0 l.

(** The magnitudes of the costs of the edges out of [u]. *)
Definition outabs (g : Graph) (u : string) : Z :=
  Zsum ((λ e, Z.abs (edge_cost e)) <$> default [] (edges g !! u)).

Definition mass (g : Graph) (X : gset string) : Z :=
  Zsum (outabs g <$> elements X).

(** The magnitudes of all edge costs, and of all heuristics. *)
Definition cost_mass (g : Graph) : Z := mass g (dom (edges g)).

Definition h_mass (g : Graph) : Z :=
  Zsum ((λ p, Z.abs (node_h p.2)) <$> map_to_list (nodes g)).

(** The costs and heuristics of [g] are small enough for every sum that a
    search forms to be exact. *)
Definition small_numbers (g : Graph) : Prop :=
  cost_mass g + h_mass g ≤ 2 ^ 53.

#[global] Instance small_numbers_dec g : Decision (small_numbers g).
Proof. unfold small_numbers. apply _. Defined.

Lemma Zsum_cons x l : Zsum (x :: l) = x + Zsum l.
Proof. done. Qed.

Lemma Zsum_app l1 l2 : Zsum (l1 ++ l2) = Zsum l1 + Zsum l2.
Proof. induction l1 as [|x l1 IH]; simpl; [done|]. rewrite IH. lia. Qed.

Lemma Zsum_nonneg l : Forall (λ x, 0 ≤ x) l → 0 ≤ Zsum l.
Proof. induction 1; simpl; lia. Qed.

Lemma Zsum_elem l x : Forall (λ x, 0 ≤ x) l → x ∈ l → x ≤ Zsum l.
Proof.
  induction 1 as [|y l Hy Hl IH]; [by intros ?%elem_of_nil|].
  pose proof (Zsum_nonneg l Hl).
  intros [->|Hin]%elem_of_cons; simpl; [lia|]. specialize (IH Hin). lia.
Qed.

#[global] Instance Zsum_Permutation : Proper ((≡ₚ) ==> (=)) Zsum.
Proof. induction 1; simpl; lia. Qed.

Lemma Zsum_zero l : Forall (λ x, x = 0) l → Zsum l = 0.
Proof. induction 1; simpl; lia. Qed.

Lemma outabs_nonneg g u : 0 ≤ outabs g u.
Proof.
  apply Zsum_nonneg, Forall_fmap, Forall_forall. intros e _. simpl. lia.
Qed.

Lemma outabs_edge g u v w : edge_in g u v w → Z.abs w ≤ outabs g u.
Proof.
  intros (es & Hes & Hin). unfold outabs. rewrite Hes. simpl.
  apply Zsum_elem.
  - apply Forall_fmap, Forall_forall. intros e _. simpl. lia.
  - apply list_elem_of_fmap. by exists (mkEdge v w).
Qed.

Lemma outabs_getNeighbors g u :
  Zsum ((λ nb, Z.abs (nb_cost nb)) <$> getNeighbors g u) = outabs g u.
Proof.
  unfold getNeighbors, outabs. destruct (edges g !! u) as [es|]; [|done].
  simpl. f_equal. induction es as [|e es IH]; [done|]. csimpl. by rewrite IH.
Qed.

Lemma mass_nonneg g X : 0 ≤ mass g X.
Proof.
  apply Zsum_nonneg, Forall_fmap, Forall_forall. intros u _.
  apply outabs_nonneg.
Qed.

Lemma mass_empty g : mass g ∅ = 0.
Proof. unfold mass. by rewrite elements_empty. Qed.

Lemma mass_union_singleton g X u :
  u ∉ X → mass g ({[u]} ∪ X) = outabs g u + mass g X.
Proof.
  intros Hu. unfold mass. by rewrite elements_union_singleton.
Qed.

Lemma mass_disj_union g (X Y : gset string) :
  X ## Y → mass g (X ∪ Y) = mass g X + mass g Y.
Proof.
  intros Hd. unfold mass.
  by rewrite elements_disj_union, fmap_app, Zsum_app.
Qed.

Lemma mass_subseteq g (X Y : gset string) : X ⊆ Y → mass g X ≤ mass g Y.
Proof.
  intros Hsub. rewrite (union_difference_L X Y Hsub).
  rewrite mass_disj_union by set_solver.
  pose proof (mass_nonneg g (Y ∖ X)). lia.
Qed.

Lemma mass_cost_mass g X : mass g X ≤ cost_mass g.
Proof.
  unfold cost_mass. set (D := dom (edges g)).
  assert (X = (X ∩ D) ∪ (X ∖ D)) as ->.
  { apply set_eq. intros x. destruct (decide (x ∈ D)); set_solver. }
  rewrite mass_disj_union by set_solver.
  assert (mass g (X ∖ D) = 0) as ->.
  { apply Zsum_zero, Forall_fmap, Forall_forall. intros u Hu.
    apply elem_of_elements, elem_of_difference in Hu as [_ Hu].
    apply not_elem_of_dom in Hu. simpl. unfold outabs. by rewrite Hu. }
  pose proof (mass_subseteq g (X ∩ D) D). rewrite Z.add_0_r.
  apply H. set_solver.
Qed.

Lemma h_mass_nonneg g : 0 ≤ h_mass g.
Proof.
  apply Zsum_nonneg, Forall_fmap, Forall_forall. intros p _. simpl. lia.
Qed.

Lemma h_mass_node g k nd :
  nodes g !! k = Some nd → Z.abs (node_h nd) ≤ h_mass g.
Proof.
  intros Hk. apply Zsum_elem.
  - apply Forall_fmap, Forall_forall. intros p _. simpl. lia.
  - apply list_elem_of_fmap. exists (k, nd). split; [done|].
    by apply elem_of_map_to_list.
Qed.

(** The heuristics that the searches use: that of the vertex, or none. *)
Definition h_small (g : Graph) (hf : Node → Z) : Prop :=
  ∀ k nd, nodes g !! k = Some nd → Z.abs (hf nd) ≤ h_mass g.

Lemma h_small_node_h g : h_small g node_h.
Proof. intros k nd. apply h_mass_node. Qed.

Lemma h_small_zero g : h_small g (λ _, 0).
Proof. intros k nd _. pose proof (h_mass_nonneg g). simpl. lia. Qed.

Lemma hval_small g hf v : h_small g hf → Z.abs (hval g hf v) ≤ h_mass g.
Proof.
  intros Hh. unfold hval. destruct (nodes g !! v) as [nd|] eqn:Hv; simpl.
  - by eapply Hh.
  - apply h_mass_nonneg.
Qed.

(** The cost of a path without a repeated vertex, and one more edge from
    its end, stay within the magnitudes of the edges out of its
    vertices. *)
Lemma simple_path_mass g l c u :
  is_path g l c → NoDup l → last l = Some u →
  Z.abs c + outabs g u ≤ mass g (list_to_set l).
Proof.
  induction 1 as [v|a b l w c He Hp IH]; intros Hnd Hl.
  - simpl in Hl. simplify_eq. simpl.
    rewrite union_empty_r_L. unfold mass. rewrite elements_singleton.
    simpl. lia.
  - apply NoDup_cons in Hnd as [Hnin Hnd].
    change (last (a :: b :: l)) with (last (b :: l)) in Hl.
    specialize (IH Hnd Hl).
    change (list_to_set (a :: b :: l) : gset string)
      with ({[a]} ∪ list_to_set (b :: l) : gset string).
    rewrite mass_union_singleton by (by rewrite elem_of_list_to_set).
    pose proof (outabs_edge _ _ _ _ He). lia.
Qed.

Lemma simple_path_exact g l c :
  small_numbers g → is_path g l c → NoDup l → exact c.
Proof.
  intros Hs Hp Hnd.
  assert (is_Some (last l)) as [u Hu].
  { destruct Hp; [by eexists|]. apply last_is_Some. done. }
  pose proof (simple_path_mass g l c u Hp Hnd Hu).
  pose proof (mass_cost_mass g (list_to_set l)).
  pose proof (outabs_nonneg g u). pose proof (h_mass_nonneg g).
  unfold exact, small_numbers in *. lia.
Qed.

(** ** The sums of ucs and astar *)

(** Every recorded cost stays within the magnitudes of the edges out of
    the visited vertices, every priority within that and the
    heuristics. *)
Record NInv (g : Graph) (st : ucs_state) : Prop :=
  { ni_cost :
      ∀ v c, ucs_cost st !! v = Some c →
             Z.abs c ≤ mass g (ucs_visited st);
    ni_prio :
      ∀ it, it ∈ ucs_pQueue st →
            Z.abs (priority it) ≤ mass g (ucs_visited st) + h_mass g }.

Lemma relax_neighbors_exact g hf cur nbs st st' B :
  h_small g hf →
  Forall (good_nb g cur) nbs → heap_ok (ucs_pQueue st) →
  is_Some (ucs_cost st !! cur) →
  (∀ v c, ucs_cost st !! v = Some c → Z.abs c ≤ B) →
  (∀ it, it ∈ ucs_pQueue st → Z.abs (priority it) ≤ B + h_mass g) →
  for_each (relax_neighbor hf cur) nbs st = Done st' →
  (∀ v c, ucs_cost st' !! v = Some c →
          Z.abs c ≤ B + Zsum ((λ nb, Z.abs (nb_cost nb)) <$> nbs))
  ∧ (∀ it, it ∈ ucs_pQueue st' →
           Z.abs (priority it)
           ≤ B + Zsum ((λ nb, Z.abs (nb_cost nb)) <$> nbs) + h_mass g)
  ∧ ucs_visited st' = ucs_visited st.
Proof.
  intros Hh Hnbs. revert st B.
  induction Hnbs as [|nb nbs Hnb _ IH]; intros st B Hheap [gc Hgc] HB HP Hrun.
  { simpl in Hrun. simplify_eq. simpl. rewrite Z.add_0_r. done. }
  destruct (relax_neighbor_good g hf cur st nb gc Hnb Hheap Hgc)
    as (pq' & _ & Hheap' & Hperm & _ & Heq).
  cbn [for_each] in Hrun. rewrite Heq in Hrun. clear Heq.
  set (t := nb_target nb) in *. set (w := nb_cost nb) in *.
  csimpl. fold w.
  pose proof (hval_small g hf t Hh) as Ht.
  pose proof (HB _ _ Hgc) as Hgcb.
  replace (B + (Z.abs w + Zsum ((λ nb, Z.abs (nb_cost nb)) <$> nbs)))
    with ((B + Z.abs w) + Zsum ((λ nb, Z.abs (nb_cost nb)) <$> nbs)) by lia.
  destruct (improves (ucs_cost st) t (gc + w)) eqn:Himp;
    cbn [mbind outcome_mbind obind] in Hrun.
  - set (st1 := UcsState _ _ _ _ _) in Hrun.
    apply (IH st1 (B + Z.abs w)); [done| | | |done]; simpl.
    + destruct (decide (cur = t)) as [->|Hne].
      * rewrite lookup_insert_eq. eauto.
      * rewrite lookup_insert_ne by done. eauto.
    + intros v c Hv. destruct (decide (v = t)) as [->|Hne].
      * rewrite lookup_insert_eq in Hv. simplify_eq. lia.
      * rewrite lookup_insert_ne in Hv by done. specialize (HB _ _ Hv). lia.
    + intros it Hin. rewrite Hperm in Hin.
      apply elem_of_cons in Hin as [->|Hin]; [simpl; lia|].
      specialize (HP _ Hin). lia.
  - apply (IH st (B + Z.abs w)); [done|by eauto| | |done].
    + intros v c Hv. specialize (HB _ _ Hv). lia.
    + intros it Hin. specialize (HP _ Hin). lia.
Qed.

Lemma NInv_step g hf fuel start goal st st' :
  h_small g hf → wf_graph g →
  XInv g hf start goal st → NInv g st →
  relax_step hf g fuel start goal st = Done (inl st') →
  NInv g st'.
Proof.
  intros Hh Hwf [[Hheap Hcore Hdom Hcover Hrel] _] [HB HP] Hstep.
  unfold relax_step in Hstep.
  destruct (pop_ok _ Hheap)
    as [[Hemp _]|(m & pq' & Hemp & Hdq & Hheap' & Hpq & Hel & Hmin)];
    rewrite Hemp in Hstep.
  { by destruct (buildResult _ _ _ _ _ _ _ _). }
  rewrite Hdq in Hstep. cbn [or_fail mbind outcome_mbind obind] in Hstep.
  case_decide as Hvis.
  { simplify_eq. split; simpl; [done|].
    intros it Hin. apply HP. rewrite Hpq. by right. }
  case_decide as Hgoal.
  { by destruct (buildResult _ _ _ _ _ _ _ _). }
  set (cur := element m) in *.
  set (st0 := UcsState _ _ _ _ _) in Hstep.
  destruct (for_each _ _ _) as [st1| |] eqn:Hrun; simpl in Hstep; [|done..].
  injection Hstep as ->.
  assert (is_Some (ucs_cost st !! cur)) as Hcur.
  { apply Hdom, (si_parent _ _ _ _ _ _ _ Hcore). left. rewrite Hel. by left. }
  destruct (relax_neighbors_exact g hf cur (getNeighbors g cur) st0 st'
              (mass g (ucs_visited st)) Hh (getNeighbors_good g cur Hwf)
              Hheap' Hcur) as (HB' & HP' & HV'); [done| |exact Hrun|].
  { simpl. intros it Hin. apply HP. rewrite Hpq. by right. }
  rewrite outabs_getNeighbors in HB', HP'. simpl in HV'.
  split; rewrite HV', mass_union_singleton by done.
  - intros v c Hv. specialize (HB' _ _ Hv). lia.
  - intros it Hin. specialize (HP' _ Hin). lia.
Qed.

Lemma NInv_init g hf start :
  h_small g hf →
  NInv g (UcsState [mkItem start (hval g hf start)] ∅ {[start := None]}
                   {[start := 0]} []).
Proof.
  intros Hh. split; simpl.
  - intros v c Hv. apply lookup_singleton_Some in Hv as [_ <-].
    rewrite mass_empty. simpl. lia.
  - intros it ->%list_elem_of_singleton. simpl. rewrite mass_empty.
    pose proof (hval_small g hf start Hh). lia.
Qed.

(** ** The mutation interface of Graph *)

(** What the three mutators keep: the store is well formed, a vertex is
    stored exactly when it has an adjacency array, and no array holds two
    edges to the same vertex. *)
Record graph_inv (g : Graph) : Prop :=
  { gi_wf : wf_graph g;
    gi_adj : ∀ k, is_Some (nodes g !! k) ↔ is_Some (edges g !! k);
    gi_unique : ∀ u es, edges g !! u = Some es → NoDup (edge_to <$> es) }.

Lemma graph_inv_empty : graph_inv emptyGraph.
Proof.
  split.
  - split; apply map_Forall_empty.
  - intros k. simpl. rewrite !lookup_empty. split; intros [? ?]; done.
  - intros u es Hu. simpl in Hu. by rewrite lookup_empty in Hu.
Qed.

Lemma putEdge_targets es to cost :
  edge_to <$> putEdge es to cost =
    if decide (to ∈ edge_to <$> es) then edge_to <$> es
    else (edge_to <$> es) ++ [to].
Proof.
  induction es as [|e es IH]; csimpl.
  - done.
  - destruct (decide (edge_to e = to)) as [<-|Hne]; csimpl.
    + rewrite decide_True; [done|]. by left.
    + rewrite IH. destruct (decide (to ∈ edge_to <$> es)).
      * rewrite decide_True; [done|]. by right.
      * rewrite decide_False; [done|]. intros [?|?]%elem_of_cons; done.
Qed.

Lemma putEdge_NoDup es to cost :
  NoDup (edge_to <$> es) → NoDup (edge_to <$> putEdge es to cost).
Proof.
  intros Hnd. rewrite putEdge_targets. case_decide; [done|].
  apply NoDup_app. split_and!; [done| |apply NoDup_singleton].
  intros x Hx ->%list_elem_of_singleton. done.
Qed.

Lemma putEdge_elem es to cost v c :
  NoDup (edge_to <$> es) →
  mkEdge v c ∈ putEdge es to cost ↔
    (v = to ∧ c = cost) ∨ (v ≠ to ∧ mkEdge v c ∈ es).
Proof.
  induction es as [|e es IH]; intros Hnd; simpl.
  - rewrite list_elem_of_singleton. split.
    + intros [= -> ->]. by left.
    + intros [[-> ->]|[_ H]]; [done|]. by apply elem_of_nil in H.
  - apply NoDup_cons in Hnd as [Hne Hnd].
    destruct (decide (edge_to e = to)) as [Heq|Hne'].
    + rewrite !elem_of_cons. split.
      * intros [[= -> ->]|Hin]; [by left|]. right. split; [|by right].
        intros ->. apply Hne. rewrite Heq.
        apply list_elem_of_fmap. by exists (mkEdge to c).
      * intros [[-> ->]|[Hv [He|Hin]]].
        -- left. by rewrite Heq.
        -- subst e. simpl in Heq. congruence.
        -- by right.
    + rewrite !elem_of_cons, (IH Hnd). split.
      * intros [He|[?|[? ?]]]; [|by left|].
        -- right. subst e. simpl in *. split; [done|by left].
        -- right. split; [done|by right].
      * intros [?|[Hv [He|?]]]; [right; by left|by left|].
        right. right. done.
Qed.

(** The adjacency array of [from] gets the edge, every other one is
    kept. *)
Definition setEdge (g : Graph) (from to : string) (cost : Z) : Graph :=
  mkGraph (nodes g)
          (<[from := putEdge (default [] (edges g !! from)) to cost]>
             (edges g)).

Lemma setEdge_edge_in g from to cost u v c :
  graph_inv g → is_Some (nodes g !! from) →
  edge_in (setEdge g from to cost) u v c ↔
    if decide (u = from ∧ v = to) then c = cost else edge_in g u v c.
Proof.
  intros Hinv [es Hes]%(gi_adj _ Hinv).
  pose proof (gi_unique _ Hinv _ _ Hes) as Hnd.
  unfold edge_in, setEdge. simpl. rewrite Hes. simpl.
  destruct (decide (u = from)) as [->|Hne].
  - rewrite lookup_insert_eq. split.
    + intros (es' & [= <-] & Hin). apply putEdge_elem in Hin; [|done].
      destruct Hin as [[-> ->]|[Hv Hin]].
      * by rewrite decide_True.
      * rewrite decide_False by tauto. eauto.
    + intros H. eexists. split; [done|]. apply putEdge_elem; [done|].
      case_decide as Hd.
      * left. split; [tauto|done].
      * destruct H as (es' & Hes' & Hin). simplify_eq. right.
        split; [|done]. intros ->. apply Hd. done.
  - rewrite lookup_insert_ne by done. rewrite decide_False by tauto. done.
Qed.

Lemma setEdge_inv g from to cost :
  graph_inv g → is_Some (nodes g !! from) → is_Some (nodes g !! to) →
  graph_inv (setEdge g from to cost).
Proof.
  intros Hinv Hf Ht. pose proof Hf as [es Hes]%(gi_adj _ Hinv).
  pose proof (gi_unique _ Hinv _ _ Hes) as Hnd.
  pose proof (gi_wf _ Hinv) as [Hn Htg].
  split.
  - split; [done|]. unfold setEdge. simpl. rewrite Hes. simpl.
    apply map_Forall_insert_2; [|done].
    apply Forall_forall. intros [v c] Hin. simpl.
    apply putEdge_elem in Hin as [[-> _]|[_ Hin]]; [done| |done].
    specialize (Htg _ _ Hes). rewrite Forall_forall in Htg.
    apply (Htg _ Hin).
  - intros k. unfold setEdge. simpl. rewrite (gi_adj _ Hinv).
    destruct (decide (k = from)) as [->|Hne].
    + rewrite lookup_insert_eq, Hes. split; eauto.
    + by rewrite lookup_insert_ne.
  - intros u es' Hu. unfold setEdge in Hu. simpl in Hu.
    destruct (decide (u = from)) as [->|Hne].
    + rewrite lookup_insert_eq, Hes in Hu. simpl in Hu. simplify_eq.
      by apply putEdge_NoDup.
    + rewrite lookup_insert_ne in Hu by done. by eapply gi_unique.
Qed.

Lemma addEdge_setEdge g from to cost bidirectional :
  graph_inv g → is_Some (nodes g !! from) → is_Some (nodes g !! to) →
  addEdge g from to cost bidirectional =
    Some (true,
          if bidirectional
          then setEdge (setEdge g from to cost) to from cost
          else setEdge g from to cost).
Proof.
  intros Hinv Hf Ht.
  pose proof Hf as [es Hes]%(gi_adj _ Hinv).
  pose proof (setEdge_inv g from to cost Hinv Hf Ht) as Hinv'.
  assert (is_Some (nodes (setEdge g from to cost) !! to)) as Ht' by done.
  pose proof Ht' as [es' Hes']%(gi_adj _ Hinv').
  unfold addEdge. rewrite decide_False.
  2:{ intros [H|H]; rewrite H in *; by destruct Hf, Ht. }
  unfold setEdge in *. simpl in *. rewrite Hes in *. simpl in *.
  destruct bidirectional; [|done]. by rewrite Hes'.
Qed.

Lemma graph_inv_intro g :
  wf_graph g →
  map_Forall (λ k _, is_Some (edges g !! k)) (nodes g) →
  map_Forall (λ k _, is_Some (nodes g !! k)) (edges g) →
  map_Forall (λ _ es, NoDup (edge_to <$> es)) (edges g) →
  graph_inv g.
Proof.
  intros Hwf Hne Hen Hu. split; [done| |done].
  intros k. split; intros [? Hk]; [by eapply Hne|by eapply Hen].
Qed.

Lemma gentle_graph_inv : graph_inv gentle_graph.
Proof.
  apply graph_inv_intro.
  - apply (bool_decide_unpack _). by vm_compute.
  - apply (bool_decide_unpack _). by vm_compute.
  - apply (bool_decide_unpack _). by vm_compute.
  - apply (bool_decide_unpack _). by vm_compute.
Qed.

Lemma default_graph_inv : graph_inv default_graph.
Proof.
  apply graph_inv_intro.
  - apply default_graph_wf.
  - apply (bool_decide_unpack _). by vm_compute.
  - apply (bool_decide_unpack _). by vm_compute.
  - apply (bool_decide_unpack _). by vm_compute.
Qed.

Lemma addNode_edge_in g name x y h u v c :
  edge_in (addNode g name x y h) u v c ↔ edge_in g u v c.
Proof.
  unfold edge_in, addNode. simpl.
  destruct (edges g !! name) as [es0|] eqn:Hn; [done|].
  destruct (decide (u = name)) as [->|Hne].
  - rewrite lookup_insert_eq, Hn. split.
    + intros (es & [= <-] & Hin). by apply elem_of_nil in Hin.
    + intros (es & ? & _). done.
  - by rewrite lookup_insert_ne.
Qed.

Lemma addNode_inv g name x y h :
  graph_inv g → graph_inv (addNode g name x y h).
Proof.
  intros [[Hn Ht] Hadj Hu]. split; [split|..].
  - unfold addNode. simpl. apply map_Forall_insert_2; [done|]. done.
  - intros u es Hes. apply Forall_forall. intros [v c] Hin. simpl.
    assert (edge_in (addNode g name x y h) u v c) as He by (by exists es).
    apply addNode_edge_in in He.
    pose proof (wf_graph_target g u v c (conj Hn Ht) He) as [nd Hnd].
    unfold addNode. simpl. destruct (decide (v = name)) as [->|Hne].
    + rewrite lookup_insert_eq. eauto.
    + rewrite lookup_insert_ne by done. eauto.
  - intros k. unfold addNode. simpl.
    destruct (decide (k = name)) as [->|Hne].
    + rewrite lookup_insert_eq.
      destruct (edges g !! name) eqn:Hn'.
      * rewrite Hn'. split; eauto.
      * rewrite lookup_insert_eq. split; eauto.
    + rewrite lookup_insert_ne by done. rewrite Hadj.
      destruct (edges g !! name); [done|]. by rewrite lookup_insert_ne.
  - intros u es Hes. unfold addNode in Hes. simpl in Hes.
    destruct (edges g !! name) eqn:Hn'; [by eapply Hu|].
    destruct (decide (u = name)) as [->|Hne].
    + rewrite lookup_insert_eq in Hes. simplify_eq. constructor.
    + rewrite lookup_insert_ne in Hes by done. by eapply Hu.
Qed.

Lemma removeNode_edge_in g name u v c :
  is_Some (nodes g !! name) →
  edge_in (removeNode g name).2 u v c ↔
    edge_in g u v c ∧ u ≠ name ∧ v ≠ name.
Proof.
  intros [nd Hnd]. unfold edge_in, removeNode. rewrite Hnd. simpl.
  destruct (decide (u = name)) as [->|Hne].
  - rewrite lookup_delete_eq. split; [intros (? & ? & _); done|tauto].
  - rewrite lookup_delete_ne, lookup_fmap by done. split.
    + intros (es & Hes & Hin).
      destruct (edges g !! u) as [es0|] eqn:Hu; [|done].
      simpl in Hes. simplify_eq.
      apply list_elem_of_filter in Hin as [Hv Hin]. simpl in Hv. eauto.
    + intros ((es & Hes & Hin) & _ & Hv). rewrite Hes. simpl.
      eexists. split; [done|]. apply list_elem_of_filter. by split.
Qed.

Lemma removeNode_inv g name :
  graph_inv g → graph_inv (removeNode g name).2.
Proof.
  intros Hinv. destruct (nodes g !! name) as [nd|] eqn:Hnd.
  2:{ unfold removeNode. by rewrite Hnd. }
  pose proof Hinv as [[Hn Ht] Hadj Hu]. split; [split|..].
  - unfold removeNode. rewrite Hnd. simpl.
    intros k n Hk. apply lookup_delete_Some in Hk as [_ Hk]. by eapply Hn.
  - intros u es Hes. apply Forall_forall. intros [v c] Hin. simpl.
    assert (edge_in (removeNode g name).2 u v c) as He by (by exists es).
    apply removeNode_edge_in in He as (He & _ & Hv); [|eauto].
    pose proof (wf_graph_target g u v c (conj Hn Ht) He) as [nd' Hnd'].
    unfold removeNode. rewrite Hnd. simpl.
    rewrite lookup_delete_ne by done. eauto.
  - intros k. unfold removeNode. rewrite Hnd. simpl.
    destruct (decide (k = name)) as [->|Hne].
    + rewrite !lookup_delete_eq. split; intros [? ?]; done.
    + rewrite !lookup_delete_ne, lookup_fmap, Hadj by done.
      by rewrite fmap_is_Some.
  - intros u es Hes. unfold removeNode in Hes. rewrite Hnd in Hes.
    simpl in Hes. apply lookup_delete_Some in Hes as [_ Hes].
    rewrite lookup_fmap in Hes.
    destruct (edges g !! u) as [es0|] eqn:Hu'; [|done].
    simpl in Hes. simplify_eq.
    specialize (Hu _ _ Hu'). revert Hu. clear.
    induction es0 as [|e es0 IH]; [done|]. csimpl.
    intros [Hne Hnd]%NoDup_cons. rewrite filter_cons.
    case_decide; [|by apply IH]. csimpl. apply NoDup_cons. split; [|by apply IH].
    intros [e' [He' Hin%list_elem_of_filter]]%list_elem_of_fmap.
    apply Hne. apply list_elem_of_fmap. exists e'. tauto.
Qed.

(** X1: [addNode] keeps the invariants of the store, stores the vertex
    under its name with the given heuristic, and changes no edge, also
    when it replaces a vertex that was there. *)
Theorem addNode_spec g name x y h :
  graph_inv g →
  graph_inv (addNode g name x y h)
  ∧ getNode (addNode g name x y h) name = Some (mkNode name x y h)
  ∧ (∀ k, k ≠ name → getNode (addNode g name x y h) k = getNode g k)
  ∧ ∀ u v c, edge_in (addNode g name x y h) u v c ↔ edge_in g u v c.
Proof.
  intros Hinv. split_and!.
  - by apply addNode_inv.
  - unfold getNode, addNode. simpl. apply lookup_insert_eq.
  - intros k Hk. unfold getNode, addNode. simpl. by rewrite lookup_insert_ne.
  - intros u v c. apply addNode_edge_in.
Qed.

Lemma addNode_spec_witness :
  graph_inv (addNode emptyGraph "A" 1 2 3)
  ∧ getNode (addNode emptyGraph "A" 1 2 3) "A" = Some (mkNode "A" 1 2 3)
  ∧ (∀ k, k ≠ "A" →
          getNode (addNode emptyGraph "A" 1 2 3) k = getNode emptyGraph k)
  ∧ ∀ u v c, edge_in (addNode emptyGraph "A" 1 2 3) u v c
             ↔ edge_in emptyGraph u v c.
Proof. apply addNode_spec. apply graph_inv_empty. Defined.

Lemma addEdge_inv g from to cost bidirectional r g' :
  graph_inv g → addEdge g from to cost bidirectional = Some (r, g') →
  graph_inv g'.
Proof.
  intros Hinv Ha.
  destruct (decide (nodes g !! from = None ∨ nodes g !! to = None))
    as [Hm|Hs].
  { unfold addEdge in Ha. rewrite decide_True in Ha by done. by simplify_eq. }
  assert (is_Some (nodes g !! from) ∧ is_Some (nodes g !! to)) as [Hf Ht].
  { destruct (nodes g !! from), (nodes g !! to); naive_solver. }
  rewrite addEdge_setEdge in Ha by done. simplify_eq.
  pose proof (setEdge_inv g from to cost Hinv Hf Ht).
  destruct bidirectional; [by apply setEdge_inv|done].
Qed.

(** X2: [addEdge] refuses an edge with an endpoint that is not stored and
    leaves the graph alone; otherwise it succeeds without a TypeError,
    keeps the invariants and the vertices, and afterwards the edge from
    [from] to [to] - and its reverse, when bidirectional - has the given
    cost, once, while every other edge is as before. *)
Theorem addEdge_spec g from to cost bidirectional :
  graph_inv g →
  (nodes g !! from = None ∨ nodes g !! to = None →
   addEdge g from to cost bidirectional = Some (false, g))
  ∧ (is_Some (nodes g !! from) → is_Some (nodes g !! to) →
     ∃ g', addEdge g from to cost bidirectional = Some (true, g')
           ∧ graph_inv g' ∧ nodes g' = nodes g
           ∧ ∀ u v c,
               edge_in g' u v c ↔
                 if decide ((u = from ∧ v = to)
                            ∨ (bidirectional = true ∧ u = to ∧ v = from))
                 then c = cost else edge_in g u v c).
Proof.
  intros Hinv. split.
  { intros Hm. unfold addEdge. by rewrite decide_True. }
  intros Hf Ht. rewrite addEdge_setEdge by done.
  pose proof (setEdge_inv g from to cost Hinv Hf Ht) as Hinv1.
  eexists. split; [done|]. destruct bidirectional.
  - split_and!; [by apply setEdge_inv|done|].
    intros u v c. rewrite setEdge_edge_in by done.
    pose proof (setEdge_edge_in g from to cost u v c Hinv Hf) as He.
    repeat case_decide; naive_solver.
  - split_and!; [done..|].
    intros u v c. rewrite setEdge_edge_in by done.
    repeat case_decide; naive_solver.
Qed.

Lemma addEdge_spec_witness :
  let g := addNode (addNode emptyGraph "A" 0 0 0) "B" 0 0 0 in
  (nodes g !! "A" = None ∨ nodes g !! "B" = None →
   addEdge g "A" "B" 5 true = Some (false, g))
  ∧ (is_Some (nodes g !! "A") → is_Some (nodes g !! "B") →
     ∃ g', addEdge g "A" "B" 5 true = Some (true, g')
           ∧ graph_inv g' ∧ nodes g' = nodes g
           ∧ ∀ u v c,
               edge_in g' u v c ↔
                 if decide ((u = "A" ∧ v = "B")
                            ∨ (true = true ∧ u = "B" ∧ v = "A"))
                 then c = 5 else edge_in g u v c).
Proof.
  apply addEdge_spec. apply addNode_inv, addNode_inv, graph_inv_empty.
Defined.

(** X3: [removeNode] answers [false] and leaves the graph alone when the
    vertex is not stored; otherwise it answers [true], keeps the
    invariants, drops the vertex and exactly the edges from it or to it. *)
Theorem removeNode_spec g name :
  graph_inv g →
  (nodes g !! name = None → removeNode g name = (false, g))
  ∧ (is_Some (nodes g !! name) →
     ∃ g', removeNode g name = (true, g')
           ∧ graph_inv g'
           ∧ nodes g' = delete name (nodes g)
           ∧ ∀ u v c, edge_in g' u v c ↔
                      edge_in g u v c ∧ u ≠ name ∧ v ≠ name).
Proof.
  intros Hinv. split.
  { intros Hm. unfold removeNode. by rewrite Hm. }
  intros Hs. pose proof (removeNode_inv g name Hinv) as Hinv'.
  pose proof (removeNode_edge_in g name) as He.
  destruct Hs as [nd Hnd]. unfold removeNode in *. rewrite Hnd in *.
  eexists. split; [done|]. split_and!; [done..|].
  intros u v c. apply He. eauto.
Qed.

Lemma removeNode_spec_witness :
  (is_Some (nodes default_graph !! "D")
   ∧ edge_in default_graph "B" "D" 3 ∧ edge_in default_graph "D" "E" 1
   ∧ edge_in default_graph "A" "B" 2)
  ∧ (nodes default_graph !! "D" = None →
   removeNode default_graph "D" = (false, default_graph))
  ∧ (is_Some (nodes default_graph !! "D") →
     ∃ g', removeNode default_graph "D" = (true, g')
           ∧ graph_inv g'
           ∧ nodes g' = delete "D" (nodes default_graph)
           ∧ ∀ u v c, edge_in g' u v c ↔
                      edge_in default_graph u v c ∧ u ≠ "D" ∧ v ≠ "D").
Proof.
  split.
  - split; [solve_node|]. split; [solve_edge|]. split; solve_edge.
  - apply removeNode_spec. apply default_graph_inv.
Defined.

(** The graphs that the interface of [Graph] can produce. *)
Inductive built : Graph → Prop :=
  | built_empty : built emptyGraph
  | built_addNode g name x y h :
      built g → built (addNode g name x y h)
  | built_addEdge g from to cost bidirectional r g' :
      built g → addEdge g from to cost bidirectional = Some (r, g') →
      built g'
  | built_removeNode g name :
      built g → built (removeNode g name).2.

Lemma built_inv g : built g → graph_inv g.
Proof.
  induction 1 as [|g name x y h _ IH|g from to cost b r g' _ IH Ha
                  |g name _ IH].
  - apply graph_inv_empty.
  - by apply addNode_inv.
  - by eapply addEdge_inv.
  - by apply removeNode_inv.
Qed.
(** ** bfs returns a path with the fewest edges *)

Lemma chain_subseteq (P P' : ParentMap) v l :
  P ⊆ P' → chain P v l → chain P' v l.
Proof.
  intros Hsub. induction 1 as [v Hv|v p l Hv _ IH].
  - constructor. by eapply lookup_weaken.
  - econstructor; [by eapply lookup_weaken|done].
Qed.

Lemma chain_lookup (P : ParentMap) v l : chain P v l → is_Some (P !! v).
Proof. by destruct 1; eauto. Qed.

Definition has_depth (P : ParentMap) (v : string) (d : nat) : Prop :=
  ∃ l, chain P v l ∧ length l = d.

Lemma has_depth_subseteq (P P' : ParentMap) v d :
  P ⊆ P' → has_depth P v d → has_depth P' v d.
Proof. intros Hsub (l & Hl & Hd). exists l. eauto using chain_subseteq. Qed.

Lemma has_depth_functional (P : ParentMap) v d d' :
  has_depth P v d → has_depth P v d' → d = d'.
Proof.
  intros (l & Hl & <-) (l' & Hl' & <-).
  by rewrite (chain_functional _ _ _ _ Hl Hl').
Qed.

Lemma has_depth_child (P : ParentMap) v p d :
  P !! v = Some (Some p) → has_depth P p d → has_depth P v (S d).
Proof.
  intros Hv (l & Hl & <-). exists (l ++ [v]). split.
  - by econstructor.
  - rewrite length_app. simpl. lia.
Qed.

Lemma has_depth_start g start (P : ParentMap) d :
  parent_ok g start P → has_depth P start d → d = 1%nat.
Proof.
  intros Hok (l & Hl & <-).
  destruct (chain_path _ _ _ _ _ Hok Hl) as (c & _ & Hh & Hlast).
  pose proof (chain_NoDup _ _ _ Hl) as Hnd.
  destruct l as [|a [|b l]]; [done..|]. exfalso.
  simpl in Hh. simplify_eq.
  apply NoDup_cons in Hnd as [Hnin _]. apply Hnin.
  change (last (start :: b :: l)) with (last (b :: l)) in Hlast.
  apply last_Some in Hlast as [l' ->]. set_solver.
Qed.

(** The part of the loop over the neighbours that concerns the
    predecessor map: entries are only added, and a vertex that becomes
    visited gets the expanded vertex as predecessor. *)
Lemma bfs_neighbors_parent g cur nbs st st' :
  Forall (good_nb g cur) nbs →
  (∀ v, is_Some (bfs_parent st !! v) ↔ v ∈ bfs_visited st) →
  for_each (bfs_neighbor cur) nbs st = Done st' →
  bfs_parent st ⊆ bfs_parent st'
  ∧ ∀ v, v ∈ bfs_visited st' → v ∉ bfs_visited st →
         bfs_parent st' !! v = Some (Some cur).
Proof.
  intros Hnbs. revert st.
  induction Hnbs as [|nb nbs Hnb _ IH]; intros st Hdom Hrun.
  { simpl in Hrun. simplify_eq. split; [done|]. tauto. }
  cbn [for_each] in Hrun. rewrite (bfs_neighbor_good g) in Hrun by done.
  set (t := nb_target nb) in *.
  case_decide as Hvis; cbn [mbind outcome_mbind obind] in Hrun.
  { by apply IH. }
  set (st1 := BfsState _ _ _ _) in Hrun.
  assert (bfs_parent st !! t = None) as Hnone.
  { apply eq_None_not_Some. by rewrite Hdom. }
  destruct (IH st1) as [Hsub Hnew]; [|done|].
  { intros v. simpl. rewrite elem_of_union, elem_of_singleton, <- Hdom.
    destruct (decide (v = t)) as [->|Hne].
    - rewrite lookup_insert_eq. naive_solver.
    - rewrite lookup_insert_ne by done. naive_solver. }
  simpl in *. split.
  - etrans; [|done]. by apply insert_subseteq.
  - intros v Hv Hnv. destruct (decide (v = t)) as [->|Hne].
    + eapply lookup_weaken; [|done]. apply lookup_insert_eq.
    + apply Hnew; [done|]. set_solver.
Qed.

(** The queue of [bfs] holds vertices of depth [d], then vertices of depth
    [d + 1]; explored vertices are no deeper than [d], and an edge out of
    an explored vertex goes at most one level down. *)
Record LInv (g : Graph) (st : bfs_state) (d : nat) (Q1 Q2 : list string)
  : Prop :=
  { li_queue : bfs_queue st = Q1 ++ Q2;
    li_near : ∀ v, v ∈ Q1 → has_depth (bfs_parent st) v d;
    li_far : ∀ v, v ∈ Q2 → has_depth (bfs_parent st) v (S d);
    li_done :
      ∀ u, u ∈ bfs_exploredOrder st →
           ∃ k, has_depth (bfs_parent st) u k ∧ (k ≤ d)%nat;
    li_edge :
      ∀ u v w, u ∈ bfs_exploredOrder st → edge_in g u v w →
               ∃ k k', has_depth (bfs_parent st) u k
                       ∧ has_depth (bfs_parent st) v k' ∧ (k' ≤ S k)%nat }.

Definition level_inv (g : Graph) (st : bfs_state) : Prop :=
  ∃ d Q1 Q2, LInv g st d Q1 Q2.

Lemma LInv_shift g st d Q2 : LInv g st d [] Q2 → LInv g st (S d) Q2 [].
Proof.
  intros [Hq Hn Hf Hd He]. split; try done.
  - by rewrite app_nil_r.
  - intros v Hv. by apply elem_of_nil in Hv.
  - intros u Hu. destruct (Hd u Hu) as (k & ? & ?). exists k. split; [done|lia].
Qed.

Lemma level_inv_head g st cur queue :
  level_inv g st → bfs_queue st = cur :: queue →
  ∃ d Q1 Q2, LInv g st d (cur :: Q1) Q2 ∧ queue = Q1 ++ Q2.
Proof.
  intros (d & Q1 & Q2 & HL) Hq. pose proof (li_queue _ _ _ _ _ HL) as Hq'.
  rewrite Hq in Hq'. destruct Q1 as [|a Q1].
  - apply LInv_shift in HL. destruct Q2 as [|a Q2]; [done|].
    simpl in Hq'. simplify_eq. exists (S d), Q2, []. split; [done|].
    by rewrite app_nil_r.
  - simpl in Hq'. simplify_eq. by exists d, Q1, Q2.
Qed.

Lemma level_inv_init g start : level_inv g (bfs_init start).
Proof.
  assert (has_depth ({[start := None]} : ParentMap) start 1) as Hd.
  { exists [start]. split; [|done]. constructor. apply lookup_singleton_eq. }
  exists 1%nat, [start], []. split; simpl.
  - done.
  - by intros v ->%list_elem_of_singleton.
  - by intros v ?%elem_of_nil.
  - by intros v ?%elem_of_nil.
  - by intros u v w ?%elem_of_nil.
Qed.

Lemma level_step g fuel start goal st st' :
  wf_graph g → BInv g start goal st → level_inv g st →
  bfs_step g fuel start goal st = Done (inl st') →
  level_inv g st'.
Proof.
  intros Hwf [Hcore Hok Hnd Hvis Hdom] HL Hstep.
  unfold bfs_step in Hstep.
  destruct (bfs_queue st) as [|cur queue] eqn:Hq.
  { by destruct (buildResult _ _ _ _ _ _ _ _). }
  case_decide as Hgoal.
  { by destruct (buildResult _ _ _ _ _ _ _ _). }
  destruct (level_inv_head g st cur queue HL Hq)
    as (d & Q1 & Q2 & [_ Hn Hf Hd He] & ->).
  set (st0 := BfsState _ _ _ _) in Hstep.
  pose proof (getNeighbors_good g cur Hwf) as Hgood.
  assert (cur ∈ bfs_visited st) as Hcur.
  { apply Hvis. right. by left. }
  destruct (bfs_neighbors_ok g start cur (getNeighbors g cur) st0)
    as (st1 & pushed & Hrun & Hq1 & HE1 & _ & Hp & _ & Hv & Hcov & _ & _);
    try done.
  rewrite Hrun in Hstep. simpl in Hstep. simplify_eq.
  destruct (bfs_neighbors_parent g cur (getNeighbors g cur) st0 st')
    as [Hsub Hnew]; try done.
  simpl in *.
  assert (has_depth (bfs_parent st') cur d) as Hcur'.
  { eapply has_depth_subseteq; [done|]. apply Hn. by left. }
  assert (∀ v, v ∈ pushed → has_depth (bfs_parent st') v (S d)) as Hpushed.
  { intros v Hin. eapply has_depth_child; [|done].
    apply Hnew; [apply Hv; by right|]. by apply Hp. }
  exists d, Q1, (Q2 ++ pushed). split.
  - by rewrite Hq1, app_assoc.
  - intros v Hin. eapply has_depth_subseteq; [done|]. apply Hn. by right.
  - intros v [Hin|Hin]%elem_of_app; [|by apply Hpushed].
    eapply has_depth_subseteq; [done|]. by apply Hf.
  - rewrite HE1. intros u [Hin| ->%list_elem_of_singleton]%elem_of_app.
    + destruct (Hd u Hin) as (k & ? & ?). exists k.
      split; [by eapply has_depth_subseteq|done].
    + by exists d.
  - rewrite HE1.
    intros u v w [Hin| ->%list_elem_of_singleton]%elem_of_app Hedge.
    + destruct (He u v w Hin Hedge) as (k & k' & ? & ? & ?).
      exists k, k'. split_and!; [by eapply has_depth_subseteq..|done].
    + destruct (getNeighbors_edge g cur v w Hwf Hedge) as (nb & Hnb & <- & _).
      specialize (Hcov nb Hnb). exists d.
      apply Hv in Hcov as [Hcov|Hcov].
      * apply Hvis in Hcov as [Hin|Hin].
        -- destruct (Hd _ Hin) as (k & ? & ?). exists k.
           split_and!; [done|by eapply has_depth_subseteq|lia].
        -- apply elem_of_cons in Hin as [->|[Hin|Hin]%elem_of_app].
           ++ exists d. split_and!; [done..|lia].
           ++ exists d. split_and!; [done| |lia].
              eapply has_depth_subseteq; [done|]. apply Hn. by right.
           ++ exists (S d). split_and!; [done| |lia].
              eapply has_depth_subseteq; [done|]. by apply Hf.
      * exists (S d). split_and!; [done| |lia]. by apply Hpushed.
Qed.

(** A path that starts at an explored vertex of depth [k] and ends
    outside the explored vertices has at least [d + 1 - k] vertices. *)
Lemma level_walk g start goal st d Q1 Q2 p c :
  BInv g start goal st → LInv g st d Q1 Q2 → is_path g p c →
  ∀ x k y, head p = Some x → last p = Some y →
           x ∈ bfs_exploredOrder st → y ∉ bfs_exploredOrder st →
           has_depth (bfs_parent st) x k →
           (d + 1 ≤ k + length p)%nat.
Proof.
  intros [Hcore Hok Hnd Hvis Hdom] [Hq Hn Hf Hd He].
  induction 1 as [v|u v l w c Hedge Hp IH]; intros x k y Hh Hl Hx Hy Hk.
  { simpl in *. by simplify_eq. }
  simpl in Hh. simplify_eq.
  destruct (He x v w Hx Hedge) as (k0 & k' & Hk0 & Hk' & Hle).
  rewrite <- (has_depth_functional _ _ _ _ Hk Hk0) in Hle. clear Hk0.
  assert (v ∈ bfs_exploredOrder st ∨ v ∈ bfs_queue st) as [Hin|Hin].
  { apply Hvis, Hdom. destruct Hk' as (l' & Hl' & _).
    by eapply chain_lookup. }
  - specialize (IH v k' y eq_refl Hl Hin Hy Hk'). simpl in *. lia.
  - rewrite Hq in Hin. simpl. apply elem_of_app in Hin as [Hin|Hin].
    + pose proof (has_depth_functional _ _ _ _ Hk' (Hn _ Hin)). lia.
    + pose proof (has_depth_functional _ _ _ _ Hk' (Hf _ Hin)). lia.
Qed.

Lemma level_final g fuel start goal st r :
  wf_graph g → is_Some (nodes g !! start) → (search_bound g ≤ fuel)%nat →
  BInv g start goal st → level_inv g st →
  bfs_step g fuel start goal st = Done (inr r) → found r = true →
  ∀ l c, path_between g start goal l c → (length (path r) ≤ length l)%nat.
Proof.
  intros Hwf Hs Hfuel HB HL Hstep Hfound l c (Hp & Hh & Hl).
  pose proof HB as [Hcore Hok Hnd Hvis Hdom].
  unfold bfs_step in Hstep.
  destruct (bfs_queue st) as [|cur queue] eqn:Hq.
  { destruct (buildResult_missing g fuel start goal _ _ _ _ Hcore eq_refl)
      as (r' & Hr' & _ & Hf').
    rewrite Hr' in Hstep. simpl in Hstep. simplify_eq. congruence. }
  case_decide as Hgoal.
  2:{ by destruct (for_each _ _ _). }
  subst cur.
  destruct (buildResult_found g fuel start goal _ _ _ _ queue None
              Hwf Hs Hfuel Hcore Hok) as (r' & lr & Hr' & _ & _ & Hc & Hpath & _);
    [done| |].
  { apply (si_goal _ _ _ _ _ _ _ Hcore). }
  rewrite Hr' in Hstep. simpl in Hstep. simplify_eq.
  destruct (level_inv_head g st goal queue HL Hq)
    as (d & Q1 & Q2 & HLd & ->).
  assert (length (path r) = d) as ->.
  { apply (has_depth_functional (bfs_parent st) goal); [by eexists|].
    apply (li_near _ _ _ _ _ HLd). by left. }
  assert (goal ∉ bfs_exploredOrder st) as HgE.
  { intros Hin. apply (si_goal _ _ _ _ _ _ _ Hcore).
    by apply elem_of_list_to_set. }
  assert (∃ k, has_depth (bfs_parent st) start k) as [k Hk].
  { destruct (po_chain _ _ _ Hok start) as [ls Hls];
      [|by exists (length ls), ls].
    apply Hdom, Hvis.
    destruct (si_start _ _ _ _ _ _ _ Hcore) as [Hin|Hin]; [|by right].
    left. by apply elem_of_list_to_set in Hin. }
  pose proof (has_depth_start _ _ _ _ Hok Hk) as ->.
  destruct (si_start _ _ _ _ _ _ _ Hcore) as [Hin|Hin].
  - apply elem_of_list_to_set in Hin.
    pose proof (level_walk g start goal st d _ _ l c HB HLd Hp
                  start 1%nat goal Hh Hl Hin HgE Hk). lia.
  - assert (1 ≤ length l)%nat by (destruct l; [done|simpl; lia]).
    change (start ∈ (goal :: Q1) ++ Q2) in Hin.
    apply elem_of_app in Hin as [Hin|Hin].
    + pose proof (has_depth_functional _ _ _ _ Hk
                    (li_near _ _ _ _ _ HLd _ Hin)). lia.
    + pose proof (has_depth_functional _ _ _ _ Hk
                    (li_far _ _ _ _ _ HLd _ Hin)). lia.
Qed.

(** X9: on a well-formed graph [bfs] returns, and the path it returns when
    it finds the goal has no more vertices - so no more edges - than any
    path of the graph from [start] to [goal]. *)
Theorem bfs_fewest_edges g fuel start goal :
  wf_graph g → is_Some (nodes g !! start) → (search_bound g ≤ fuel)%nat →
  ∃ r, bfs g fuel start goal = Done r
       ∧ (found r = true →
          (∃ c, path_between g start goal (path r) c)
          ∧ ∀ l c, path_between g start goal l c →
                   (length (path r) ≤ length l)%nat).
Proof.
  intros Hwf Hs Hfuel. unfold bfs.
  apply (run_returns _ (λ st, BInv g start goal st ∧ level_inv g st)
           (bfs_measure g)).
  - intros st [HB HL].
    destruct (bfs_step_ok g fuel start goal st Hwf Hs Hfuel HB)
      as [(st' & Hst & HB' & Hμ)|(r & Hr & [Hpost _])].
    + left. exists st'. split_and!; try done.
      by apply (level_step g fuel start goal st st').
    + right. exists r. split; [done|]. intros Hf. split.
      * apply (sp_found _ _ _ _ Hpost Hf).
      * by apply (level_final g fuel start goal st r).
  - split; [apply BInv_init|apply level_inv_init].
  - pose proof (measure_init g start). unfold bfs_measure. simpl in *. lia.
Qed.

Lemma bfs_fewest_edges_witness :
  ∃ r, bfs default_graph 32 "A" "Goal" = Done r
       ∧ (found r = true →
          (∃ c, path_between default_graph "A" "Goal" (path r) c)
          ∧ ∀ l c, path_between default_graph "A" "Goal" l c →
                   (length (path r) ≤ length l)%nat).
Proof.
  apply bfs_fewest_edges.
  - apply default_graph_wf.
  - solve_node.
  - vm_compute. lia.
Defined.
(** ** The returned cost and the returned path *)

Lemma NoDup_fmap_elem_inj {A B} (f : A → B) (l : list A) x y :
  NoDup (f <$> l) → x ∈ l → y ∈ l → f x = f y → x = y.
Proof.
  induction l as [|a l IH]; csimpl; [by intros _ ?%elem_of_nil|].
  intros [Hnin Hnd]%NoDup_cons [->|Hx]%elem_of_cons [->|Hy]%elem_of_cons Hf.
  - done.
  - exfalso. apply Hnin. rewrite Hf. by apply list_elem_of_fmap_2.
  - exfalso. apply Hnin. rewrite <- Hf. by apply list_elem_of_fmap_2.
  - by apply IH.
Qed.

Lemma edge_in_unique g u v w w' :
  graph_inv g → edge_in g u v w → edge_in g u v w' → w = w'.
Proof.
  intros Hinv (es & Hes & Hin) (es' & Hes' & Hin'). simplify_eq.
  pose proof (gi_unique _ Hinv _ _ Hes) as Hnd.
  by pose proof (NoDup_fmap_elem_inj edge_to es _ _ Hnd Hin Hin' eq_refl)
    as [=].
Qed.

Lemma is_path_cost_unique g l c c' :
  graph_inv g → is_path g l c → is_path g l c' → c = c'.
Proof.
  intros Hinv Hp. revert c'.
  induction Hp as [v|u v l w c He Hp IH]; intros c' Hp'.
  - by inversion Hp'.
  - inversion Hp' as [|u' v' l' w' c'' He' Hp'']. simplify_eq.
    rewrite (edge_in_unique g u v w w' Hinv He He').
    by rewrite (IH _ Hp'').
Qed.

(** ** A start vertex that is not stored *)

(** X11: with a start vertex that is not in the graph, [astar] and [greedy]
    raise a TypeError at once (they read the heuristic of [getNode]'s
    [null]); [bfs], [dfs] and [ucs] explore just that name and report that
    the goal was not found. *)
Theorem missing_start g start goal fuel :
  nodes g !! start = None → edges g !! start = None → start ≠ goal →
  (2 ≤ fuel)%nat →
  astar g fuel start goal = Fail TypeError
  ∧ greedy g fuel start goal = Fail TypeError
  ∧ ∀ algoType, algoType ∈ [Bfs; Dfs; Ucs] →
      runAlgorithm g fuel algoType start goal
      = Done (mkResult false [] 0 1 [start]).
Proof.
  intros Hn He Hne Hfuel. split_and!.
  - unfold astar, astar_init, getNode. by rewrite Hn.
  - unfold greedy, greedy_init, getNode. by rewrite Hn.
  - destruct fuel as [|[|fuel]]; [lia..|].
    assert (getNeighbors g start = []) as Hnb.
    { unfold getNeighbors. by rewrite He. }
    intros algoType Hin.
    repeat (apply elem_of_cons in Hin as [->|Hin]);
      [..|by apply elem_of_nil in Hin]; simpl.
    + unfold bfs, bfs_init. cbn [run]. unfold bfs_step at 1. simpl.
      rewrite decide_False, Hnb by done. simpl. done.
    + unfold dfs, dfs_init. cbn [run]. unfold dfs_step at 1. simpl.
      rewrite decide_False by set_solver. rewrite decide_False, Hnb by done.
      simpl. done.
    + unfold ucs, ucs_init. rewrite enqueue_new. simpl.
      unfold ucs_step at 1. simpl isEmpty. cbv iota.
      cbn [ucs_pQueue]. rewrite dequeue_singleton. simpl.
      rewrite decide_False by set_solver. rewrite decide_False, Hnb by done.
      simpl. done.
Qed.

Lemma missing_start_witness :
  astar island_graph 2 "Z" "C" = Fail TypeError
  ∧ greedy island_graph 2 "Z" "C" = Fail TypeError
  ∧ ∀ algoType, algoType ∈ [Bfs; Dfs; Ucs] →
      runAlgorithm island_graph 2 algoType "Z" "C"
      = Done (mkResult false [] 0 1 ["Z"]).
Proof. apply missing_start; [reflexivity|reflexivity|done|lia]. Defined.

(** ** astar without a heuristic *)

Lemma for_each_ext_in {S X} (f f' : S → X → outcome S) xs s :
  (∀ s x, x ∈ xs → f s x = f' s x) → for_each f xs s = for_each f' xs s.
Proof.
  revert s. induction xs as [|x xs IH]; intros s Hext; [done|].
  simpl. rewrite Hext by (by left). destruct (f' s x); simpl; [|done..].
  apply IH. intros s' y Hy. apply Hext. by right.
Qed.

Lemma run_ext {S R} (step step' : S → outcome (S + R)) fuel s :
  (∀ s, step s = step' s) → run step fuel s = run step' fuel s.
Proof.
  intros Hext. revert s. induction fuel as [|n IH]; intros s; [done|].
  simpl. rewrite Hext. destruct (step' s) as [[s'|r]| |]; auto.
Qed.

(** The searches read a heuristic only off the vertices of the store. *)
Lemma relax_step_ext (hf hf' : Node → Z) g fuel start goal st :
  map_Forall (λ _ nd, hf nd = hf' nd) (nodes g) →
  relax_step hf g fuel start goal st = relax_step hf' g fuel start goal st.
Proof.
  intros Hh. unfold relax_step.
  destruct (isEmpty _); [done|].
  destruct (dequeue _) as [[[cur|] q]|]; simpl; try done.
  case_decide; [done|]. case_decide; [done|]. f_equal.
  apply for_each_ext_in. intros s nb Hnb.
  unfold relax_neighbor. destruct (nb_node nb) as [nd|] eqn:Hnd; [|done].
  simpl. enough (hf nd = hf' nd) as -> by done.
  unfold getNeighbors in Hnb. destruct (edges g !! cur) as [es|]; simpl in Hnb.
  2:{ by apply elem_of_nil in Hnb. }
  apply list_elem_of_fmap in Hnb as (e & -> & _). simpl in Hnd.
  by apply (Hh _ _ Hnd).
Qed.

(** X10: where every stored vertex has heuristic 0, [astar] is [ucs]: the
    same result, the same exploration order, on every graph and for the
    same number of iterations. *)
Theorem astar_zero_heuristic_is_ucs g fuel start goal :
  is_Some (nodes g !! start) →
  map_Forall (λ _ nd, node_h nd = 0) (nodes g) →
  astar g fuel start goal = ucs g fuel start goal.
Proof.
  intros [nd Hnd] Hz.
  rewrite (astar_relax g fuel start goal nd Hnd), ucs_relax.
  rewrite (Hz _ _ Hnd). apply run_ext. intros st.
  by apply relax_step_ext.
Qed.

Lemma astar_zero_heuristic_is_ucs_witness :
  astar island_graph 10 "A" "B" = ucs island_graph 10 "A" "B".
Proof.
  apply astar_zero_heuristic_is_ucs.
  - solve_node.
  - apply (bool_decide_unpack _). by vm_compute.
Defined.

(** ** Any sequence of queue operations *)

(** The queues that [enqueue] and [dequeue] produce from the empty one. *)
Inductive pq_built : PriorityQueue → Prop :=
  | pq_built_new : pq_built newPriorityQueue
  | pq_built_enqueue items e p items' :
      pq_built items → enqueue items e p = Some items' → pq_built items'
  | pq_built_dequeue items x items' :
      pq_built items → dequeue items = Some (x, items') → pq_built items'.

Lemma pq_built_heap items : pq_built items → heap_ok items.
Proof.
  induction 1 as [|items e p items' _ IH He|items x items' _ IH Hd].
  - apply heap_ok_nil.
  - destruct (enqueue_ok items e p IH) as (items'' & He' & ? & _).
    rewrite He in He'. by simplify_eq.
  - destruct items as [|i items].
    + rewrite dequeue_nil in Hd. by simplify_eq.
    + destruct (dequeue_ok (i :: items) IH) as (m & items'' & Hd' & ? & _);
        [done|].
      rewrite Hd in Hd'. by simplify_eq.
Qed.

(** X7: in whatever order [enqueue] and [dequeue] have been called, neither
    reads outside the array; [enqueue] adds exactly its entry, and
    [dequeue] removes an entry of least priority among those stored, or
    returns [null] when there is none. *)
Theorem pq_operations items :
  pq_built items →
  (∀ e p, ∃ items', enqueue items e p = Some items'
                    ∧ pq_built items' ∧ items' ≡ₚ mkItem e p :: items)
  ∧ ∃ x items', dequeue items = Some (x, items') ∧ pq_built items'
      ∧ match x with
        | None => items = [] ∧ items' = []
        | Some e =>
            ∃ m, element m = e ∧ items ≡ₚ m :: items'
                 ∧ ∀ y, y ∈ items → priority m ≤ priority y
        end.
Proof.
  intros Hb. pose proof (pq_built_heap items Hb) as Hheap. split.
  - intros e p. destruct (enqueue_ok items e p Hheap) as (items' & He & _ & ?).
    exists items'. split_and!; [done| |done]. by eapply pq_built_enqueue.
  - destruct items as [|i items].
    + exists None, []. rewrite dequeue_nil. split_and!; try done.
    + destruct (dequeue_ok (i :: items) Hheap) as (m & items' & Hd & _ & ? & ?);
        [done|].
      exists (Some (element m)), items'. split_and!; [done| |by exists m].
      by eapply pq_built_dequeue.
Qed.

(** A queue after [enqueue("a", 3)], [enqueue("b", 1)], [dequeue()],
    [enqueue("c", 2)] and [enqueue("d", 5)]. *)
Definition sample_queue : PriorityQueue :=
  [mkItem "c" 2; mkItem "a" 3; mkItem "d" 5].

Lemma sample_queue_built : pq_built sample_queue.
Proof.
  apply (pq_built_enqueue [mkItem "c" 2; mkItem "a" 3] "d" 5);
    [|by vm_compute].
  apply (pq_built_enqueue [mkItem "a" 3] "c" 2); [|by vm_compute].
  apply (pq_built_dequeue [mkItem "b" 1; mkItem "a" 3] (Some "b"));
    [|by vm_compute].
  apply (pq_built_enqueue [mkItem "a" 3] "b" 1); [|by vm_compute].
  apply (pq_built_enqueue newPriorityQueue "a" 3); [|by vm_compute].
  apply pq_built_new.
Qed.

Lemma pq_operations_witness :
  dequeue sample_queue = Some (Some "c", [mkItem "a" 3; mkItem "d" 5])
  ∧ (∀ e p, ∃ items', enqueue sample_queue e p = Some items'
                    ∧ pq_built items'
                    ∧ items' ≡ₚ mkItem e p :: sample_queue)
  ∧ ∃ x items', dequeue sample_queue = Some (x, items')
      ∧ pq_built items'
      ∧ match x with
        | None => sample_queue = [] ∧ items' = []
        | Some e =>
            ∃ m, element m = e ∧ sample_queue ≡ₚ m :: items'
                 ∧ ∀ y, y ∈ sample_queue → priority m ≤ priority y
        end.
Proof.
  split; [by vm_compute|]. apply pq_operations. apply sample_queue_built.
Defined.

(** ** getNeighbors *)

(** X5: [getNeighbors] lists the edges out of a vertex, each target once
    and with its stored vertex record; it is empty for a name that is not
    stored. *)
Theorem getNeighbors_spec g u :
  graph_inv g →
  (nodes g !! u = None → getNeighbors g u = [])
  ∧ NoDup (nb_target <$> getNeighbors g u)
  ∧ ∀ nd c, mkNeighbor (Some nd) c ∈ getNeighbors g u
            ↔ getNode g (node_name nd) = Some nd
              ∧ edge_in g u (node_name nd) c.
Proof.
  intros Hinv. pose proof (gi_wf _ Hinv) as Hwf. split_and!.
  - intros Hn. unfold getNeighbors.
    destruct (edges g !! u) as [es|] eqn:Hes; [|done].
    assert (is_Some (nodes g !! u)) as [? ?]; [|congruence].
    apply (gi_adj _ Hinv). eauto.
  - unfold getNeighbors. destruct (edges g !! u) as [es|] eqn:Hes; [|constructor].
    pose proof (gi_unique _ Hinv _ _ Hes) as Hnd.
    assert (Forall (λ e, is_Some (nodes g !! edge_to e)) es) as Hall.
    { destruct Hwf as [_ Ht]. by apply (Ht u). }
    clear Hes. induction es as [|e es IH]; csimpl; [constructor|].
    apply Forall_cons in Hall as [[nd Hnde] Hall].
    csimpl in Hnd. apply NoDup_cons in Hnd as [Hnin Hnd].
    assert (node_name nd = edge_to e) as Hname.
    { by apply (wf_graph_name g). }
    apply NoDup_cons. split; [|by apply IH].
    unfold nb_target at 1. simpl. rewrite Hnde. simpl. rewrite Hname.
    intros (nb & Hnb & (e' & -> & He')%list_elem_of_fmap)%list_elem_of_fmap.
    apply Hnin. apply list_elem_of_fmap. exists e'. split; [|done].
    rewrite Hnb. unfold nb_target. simpl.
    rewrite Forall_forall in Hall. destruct (Hall _ He') as [nd' Hnd'].
    rewrite Hnd'. simpl. by apply (wf_graph_name g).
  - intros nd c. unfold getNeighbors, getNode, edge_in. split.
    + destruct (edges g !! u) as [es|] eqn:Hes; [|by intros ?%elem_of_nil].
      intros ([v c'] & [= Hnd ->] & Hin)%list_elem_of_fmap. simpl in *.
      symmetry in Hnd.
      pose proof (wf_graph_name g _ _ Hwf Hnd) as ->. eauto.
    + intros (Hnd & es & -> & Hin). apply list_elem_of_fmap.
      exists (mkEdge (node_name nd) c). simpl. by rewrite Hnd.
Qed.

Lemma getNeighbors_spec_witness :
  nb_target <$> getNeighbors default_graph "D" = ["B"; "C"; "E"; "G"]
  ∧ (nodes default_graph !! "D" = None → getNeighbors default_graph "D" = [])
  ∧ NoDup (nb_target <$> getNeighbors default_graph "D")
  ∧ ∀ nd c, mkNeighbor (Some nd) c ∈ getNeighbors default_graph "D"
            ↔ getNode default_graph (node_name nd) = Some nd
              ∧ edge_in default_graph "D" (node_name nd) c.
Proof.
  split; [by vm_compute|]. apply getNeighbors_spec. apply default_graph_inv.
Defined.
(** ** Graphs made through the interface *)

(** X6: a graph made from the empty one by [addNode], [addEdge] and
    [removeNode] keeps the invariants of the store; on it every strategy
    returns a result - no TypeError, within [search_bound] iterations -
    and the result says found exactly when the goal can be reached. *)
Theorem built_search_returns g algoType start goal :
  built g → costs_ok g algoType → is_Some (getNode g start) →
  graph_inv g
  ∧ ∃ r, runAlgorithm g (search_bound g) algoType start goal = Done r
         ∧ (found r = true ↔ reachable g start goal).
Proof.
  intros Hb Hcosts Hs. pose proof (built_inv g Hb) as Hinv.
  split; [done|].
  destruct (runAlgorithm_correct g (search_bound g) algoType start goal)
    as (r & Hrun & Hpost); [apply Hinv|done|lia|by left|].
  exists r. split; [done|]. split.
  - intros Hf. destruct (sp_found _ _ _ _ Hpost Hf) as (_ & c & Hp).
    exists c. apply reach_path. eauto.
  - intros Hr. destruct (found r) eqn:Hf; [done|].
    by destruct (sp_missing _ _ _ _ Hpost Hf) as (_ & _ & ? & _).
Qed.

(** The graph after [addNode] of [A], [B], [C] and [D], a bidirectional
    [addEdge] between [A] and [B], edges from [B] to [C] and from [A] to
    [D], and [removeNode] of [D]. *)
Definition trail_graph : Graph :=
  mkGraph
    (list_to_map
       [ ("A", mkNode "A" 0 0 4); ("B", mkNode "B" 10 0 3);
         ("C", mkNode "C" 20 0 0) ])
    (list_to_map
       [ ("A", [mkEdge "B" 2]); ("B", [mkEdge "A" 2; mkEdge "C" 3]);
         ("C", []) ]).

(** One [addEdge] call on a graph known to be [built]. *)
Ltac built_addEdge_step H from to cost bidirectional :=
  match type of H with
  | built ?g =>
      let o := eval vm_compute in (addEdge g from to cost bidirectional) in
      match o with
      | Some (?r, ?g1) =>
          let H' := fresh in
          assert (built g1) as H'
            by (apply (built_addEdge g from to cost bidirectional r g1 H);
                vm_compute; reflexivity);
          clear H; rename H' into H
      end
  end.

Lemma trail_graph_built : built trail_graph.
Proof.
  pose proof (built_addNode _ "D" 30 0 1
                (built_addNode _ "C" 20 0 0
                   (built_addNode _ "B" 10 0 3
                      (built_addNode _ "A" 0 0 4 built_empty)))) as H.
  built_addEdge_step H "A" "B" 2 true.
  built_addEdge_step H "B" "C" 3 false.
  built_addEdge_step H "A" "D" 1 false.
  apply (built_removeNode _ "D") in H.
  revert H. vm_compute. intros H. exact H.
Qed.

Lemma built_search_returns_witness :
  reachable trail_graph "A" "C"
  ∧ graph_inv trail_graph
  ∧ ∃ r, runAlgorithm trail_graph (search_bound trail_graph) Ucs "A" "C"
         = Done r
         ∧ (found r = true ↔ reachable trail_graph "A" "C").
Proof.
  split.
  { exists (0 + 2 + 3).
    apply (reach_edge _ _ "B" "C" (0 + 2) 3); [|solve_edge].
    apply (reach_edge _ _ "A" "B" 0 2); [constructor|solve_edge]. }
  apply built_search_returns.
  - apply trail_graph_built.
  - intros _. apply (bool_decide_unpack _). by vm_compute.
  - solve_node.
Defined.

(** X4: removing a vertex that has just been added under a new name gives
    the graph back. *)
Theorem removeNode_addNode g name x y h :
  graph_inv g → nodes g !! name = None →
  removeNode (addNode g name x y h) name = (true, g).
Proof.
  intros Hinv Hn.
  assert (edges g !! name = None) as He.
  { apply eq_None_not_Some. rewrite <- (gi_adj _ Hinv).
    by rewrite Hn; intros [? ?]. }
  unfold removeNode, addNode. simpl. rewrite lookup_insert_eq, He.
  f_equal. destruct g as [ns es]. simpl in *. f_equal.
  - by apply delete_insert_id.
  - rewrite fmap_insert, delete_insert_id by (by rewrite lookup_fmap, He).
    apply map_eq. intros u. rewrite lookup_fmap.
    destruct (es !! u) as [l|] eqn:Hl; [|done]. simpl. f_equal.
    pose proof (gi_wf _ Hinv) as [_ Ht]. specialize (Ht u l Hl).
    simpl in Ht. clear Hl. induction Ht as [|e l [nd Hnd] _ IH]; [done|].
    rewrite filter_cons_True; [by rewrite IH|].
    simpl. intros Heq. congruence.
Qed.

Lemma removeNode_addNode_witness :
  removeNode (addNode island_graph "Z" 1 2 3) "Z" = (true, island_graph).
Proof.
  apply removeNode_addNode; [|reflexivity].
  apply graph_inv_intro.
  - apply (bool_decide_unpack _). by vm_compute.
  - apply (bool_decide_unpack _). by vm_compute.
  - apply (bool_decide_unpack _). by vm_compute.
  - apply (bool_decide_unpack _). by vm_compute.
Defined.
(** ** The order in which ucs and astar explore *)

Lemma buildResult_fields g fuel start goal P E f cm r :
  buildResult g fuel start goal P E f cm = Done r →
  found r = f ∧ exploredOrder r = E ∧ nodesExplored r = length E.
Proof.
  unfold buildResult. intros Hr.
  destruct (if f && _ then _ else _) as [[l c]| |]; simpl in Hr; [|done..].
  by simplify_eq.
Qed.

Lemma StronglySorted_snoc {A} (R : relation A) l y :
  StronglySorted R l → Forall (λ x, R x y) l → StronglySorted R (l ++ [y]).
Proof.
  induction 1 as [|x l Hs IH Hx]; intros Hall; simpl.
  - repeat constructor.
  - apply Forall_cons in Hall as [Hxy Hall]. constructor; [by apply IH|].
    apply Forall_app. split; [done|]. by constructor.
Qed.

Lemma StronglySorted_weaken {A} (R R' : relation A) l :
  (∀ x y, R x y → R' x y) → StronglySorted R l → StronglySorted R' l.
Proof.
  intros HR. induction 1 as [|x l _ IH Hx]; constructor; [done|].
  eapply Forall_impl; [done|]. auto.
Qed.

(** [d] is the least cost of a path from [start] to [v]. *)
Definition is_dist (g : Graph) (start v : string) (d : Z) : Prop :=
  reach g start v d ∧ ∀ c, reach g start v c → d ≤ c.

Lemma is_dist_unique g start v d d' :
  is_dist g start v d → is_dist g start v d' → d = d'.
Proof.
  intros [Hr Hm] [Hr' Hm']. specialize (Hm _ Hr'). specialize (Hm' _ Hr). lia.
Qed.

Lemma is_dist_min_cost g start v d :
  is_dist g start v d ↔ min_cost g start v d.
Proof.
  unfold is_dist, min_cost. rewrite reach_path. split.
  - intros [Hr Hm]. split; [done|]. intros l c Hp. apply Hm.
    apply reach_path. eauto.
  - intros [Hr Hm]. split; [done|]. intros c [l Hp]%reach_path. eauto.
Qed.

(** [u] comes no later than [v] in the order of least cost plus
    heuristic. *)
Definition in_order (g : Graph) (hf : Node → Z) (start u v : string)
  : Prop :=
  ∀ du dv, is_dist g start u du → is_dist g start v dv →
           du + hval g hf u ≤ dv + hval g hf v.

Record MInv (g : Graph) (hf : Node → Z) (start : string)
    (pq : PriorityQueue) (E : list string) : Prop :=
  { mi_dist : ∀ u, u ∈ E → ∃ du, is_dist g start u du;
    mi_low :
      ∀ u du it, u ∈ E → is_dist g start u du → it ∈ pq →
                 du + hval g hf u ≤ priority it;
    mi_sorted : StronglySorted (in_order g hf start) E;
    mi_small :
      ∀ u du, u ∈ E → is_dist g start u du → Z.abs du ≤ cost_mass g }.

(** Relaxing the edges out of [cur] pushes no entry below the bound [B]
    that the cost of [cur] plus its heuristic respects. *)
Lemma relax_neighbors_lower g hf cur nbs st st' gc B :
  nonneg_costs g → consistent g hf →
  Forall (good_nb g cur) nbs → heap_ok (ucs_pQueue st) →
  ucs_cost st !! cur = Some gc →
  B ≤ gc + hval g hf cur →
  (∀ it, it ∈ ucs_pQueue st → B ≤ priority it) →
  for_each (relax_neighbor hf cur) nbs st = Done st' →
  ∀ it, it ∈ ucs_pQueue st' → B ≤ priority it.
Proof.
  intros Hn Hcons Hnbs. revert st.
  induction Hnbs as [|nb nbs Hnb _ IH]; intros st Hh Hgc HB Hlow Hrun.
  { simpl in Hrun. by simplify_eq. }
  pose proof (good_nb_target _ _ _ Hnb) as Hedge.
  destruct (relax_neighbor_good g hf cur st nb gc Hnb Hh Hgc)
    as (pq' & _ & Hh' & Hperm & _ & Heq).
  cbn [for_each] in Hrun. rewrite Heq in Hrun. clear Heq.
  set (t := nb_target nb) in *. set (w := nb_cost nb) in *.
  pose proof (nonneg_costs_edge _ _ _ _ Hn Hedge) as Hw.
  pose proof (consistent_edge _ _ _ _ _ Hcons Hedge) as Hc.
  destruct (improves (ucs_cost st) t (gc + w)) eqn:Himp;
    cbn [mbind outcome_mbind obind] in Hrun; [|by eapply IH].
  eapply IH; [| | | |exact Hrun]; simpl; try done.
  - destruct (decide (t = cur)) as [Heq|Hne].
    + apply improves_spec in Himp. rewrite Heq, Hgc in Himp. lia.
    + by rewrite lookup_insert_ne.
  - intros it Hin. rewrite Hperm in Hin.
    apply elem_of_cons in Hin as [->|Hin]; [simpl; lia|by apply Hlow].
Qed.

(** Taking the least entry off the queue, for a vertex not yet visited:
    its recorded cost is its least cost, and it comes after every
    explored vertex. *)
Lemma order_pop g hf start goal st m pq' :
  nonneg_costs g → consistent g hf →
  XInv g hf start goal st → NInv g st →
  MInv g hf start (ucs_pQueue st) (ucs_exploredOrder st) →
  ucs_pQueue st ≡ₚ m :: pq' →
  (∀ y, y ∈ ucs_pQueue st → priority m ≤ priority y) →
  element m ∉ ucs_visited st →
  ∃ gc, ucs_cost st !! element m = Some gc
        ∧ priority m = gc + hval g hf (element m)
        ∧ MInv g hf start pq' (ucs_exploredOrder st ++ [element m]).
Proof.
  intros Hn Hcons [[Hh Hcore Hdom Hcover Hrel] HO] [HB _] [Hd Hlow Hs Hsm]
    Hpq Hmin Hvis.
  destruct (HO Hn Hcons) as [HO1 _]. specialize (Hrel Hn).
  set (cur := element m) in *.
  assert (m ∈ ucs_pQueue st) as Hm by (rewrite Hpq; by left).
  assert (cur ∈ pq_elements (ucs_pQueue st)) as HcurF.
  { unfold pq_elements, cur. by apply list_elem_of_fmap_2. }
  assert (is_Some (ucs_cost st !! cur)) as [gc Hgc].
  { apply Hdom, (si_parent _ _ _ _ _ _ _ Hcore). by left. }
  destruct (OInv_pop_expand g hf start _ _ _ m pq' HO1 Hpq Hmin)
    as [Hopt _]; [done|by eapply ro_start|done| |].
  { intros v Hv. apply Hdom, (si_parent _ _ _ _ _ _ _ Hcore). by right. }
  fold cur in Hopt.
  assert (is_dist g start cur gc) as Hdist.
  { split; [by eapply ro_real|]. intros c Hc. by eapply Hopt. }
  assert (priority m = gc + hval g hf cur) as Hprio.
  { destruct (oi_upper _ _ _ _ _ _ _ HO1 m Hm) as (gv & Hgv & Hle).
    fold cur in Hgv, Hle. simplify_eq.
    pose proof (oi_entry _ _ _ _ _ _ _ HO1 cur gc Hgc Hvis) as Hin.
    specialize (Hmin _ Hin). simpl in Hmin. lia. }
  exists gc. split_and!; [done..|]. split.
  - intros u [Hu| ->%list_elem_of_singleton]%elem_of_app; eauto.
  - intros u du it [Hu| ->%list_elem_of_singleton]%elem_of_app Hdu Hit.
    + apply (Hlow u du it Hu Hdu). rewrite Hpq. by right.
    + rewrite (is_dist_unique _ _ _ _ _ Hdu Hdist), <- Hprio.
      apply Hmin. rewrite Hpq. by right.
  - apply StronglySorted_snoc; [done|]. apply Forall_forall.
    intros u Hu du dv Hdu Hdv.
    rewrite (is_dist_unique _ _ _ _ _ Hdv Hdist), <- Hprio.
    by apply (Hlow u du m Hu Hdu).
  - intros u du [Hu| ->%list_elem_of_singleton]%elem_of_app Hdu; [eauto|].
    rewrite (is_dist_unique _ _ _ _ _ Hdu Hdist).
    pose proof (HB _ _ Hgc). pose proof (mass_cost_mass g (ucs_visited st)).
    lia.
Qed.

Lemma order_step g hf fuel start goal st st' :
  wf_graph g → nonneg_costs g → consistent g hf →
  XInv g hf start goal st → NInv g st →
  MInv g hf start (ucs_pQueue st) (ucs_exploredOrder st) →
  relax_step hf g fuel start goal st = Done (inl st') →
  MInv g hf start (ucs_pQueue st') (ucs_exploredOrder st').
Proof.
  intros Hwf Hn Hcons HX HN HM Hstep.
  pose proof HX as [[Hh Hcore Hdom Hcover Hrel] HO].
  unfold relax_step in Hstep.
  destruct (pop_ok _ Hh)
    as [[Hemp _]|(m & pq' & Hemp & Hdq & Hh' & Hpq & Hel & Hmin)];
    rewrite Hemp in Hstep.
  { by destruct (buildResult _ _ _ _ _ _ _ _). }
  rewrite Hdq in Hstep. cbn [or_fail mbind outcome_mbind obind] in Hstep.
  case_decide as Hvis.
  { simplify_eq. simpl. destruct HM as [Hd Hlow Hs Hsm].
    split; [done| |done..].
    intros u du it Hu Hdu Hit. apply (Hlow u du it Hu Hdu).
    rewrite Hpq. by right. }
  case_decide as Hgoal.
  { by destruct (buildResult _ _ _ _ _ _ _ _). }
  destruct (order_pop g hf start goal st m pq' Hn Hcons HX HN HM Hpq Hmin
              Hvis) as (gc & Hgc & Hprio & [Hd' Hlow' Hs' Hsm']).
  set (cur := element m) in *.
  set (st0 := UcsState _ _ _ _ _) in Hstep.
  pose proof (getNeighbors_good g cur Hwf) as Hgood.
  destruct (relax_neighbors_ok g hf start cur (getNeighbors g cur) st0)
    as (st1 & pushed & Hrun & _ & _ & _ & HE & _); simpl; eauto.
  rewrite Hrun in Hstep. simpl in Hstep. simplify_eq.
  simpl in HE. rewrite HE. split; [done| |done..].
  intros u du it Hu Hdu Hit.
  apply (relax_neighbors_lower g hf cur (getNeighbors g cur) st0 st' gc
           (du + hval g hf u) Hn Hcons Hgood Hh' Hgc); [|by eauto|done..].
  rewrite <- Hprio. apply elem_of_app in Hu as [Hu| ->%list_elem_of_singleton].
  - destruct HM as [_ Hlow _ _]. apply (Hlow u du m Hu Hdu).
    rewrite Hpq. by left.
  - assert (is_dist g start cur gc) as Hdist.
    { destruct (Hd' cur) as [d Hdd]; [apply elem_of_app; right; by left|].
      destruct HX as [[_ _ _ _ Hrel'] HO'].
      destruct (HO' Hn Hcons) as [HO1 _]. specialize (Hrel' Hn).
      enough (d = gc) as <- by done.
      destruct (OInv_pop_expand g hf start _ _ _ m pq' HO1 Hpq Hmin)
        as [Hopt _]; [done|by eapply ro_start|done| |].
      { intros v Hv. apply Hdom, (si_parent _ _ _ _ _ _ _ Hcore). by right. }
      destruct Hdd as [Hr Hm']. pose proof (Hopt gc d Hgc Hr).
      pose proof (Hm' gc (ro_real _ _ _ _ Hrel' _ _ Hgc)). lia. }
    rewrite (is_dist_unique _ _ _ _ _ Hdu Hdist). lia.
Qed.

Definition order_post (g : Graph) (hf : Node → Z) (start : string)
    (r : Result) : Prop :=
  (∀ u, u ∈ exploredOrder r →
        ∃ d, min_cost g start u d ∧ Z.abs d ≤ cost_mass g)
  ∧ StronglySorted
      (λ u v, ∀ du dv, min_cost g start u du → min_cost g start v dv →
                       du + hval g hf u ≤ dv + hval g hf v)
      (exploredOrder r).

Lemma MInv_order_post g hf start pq r :
  MInv g hf start pq (exploredOrder r) → order_post g hf start r.
Proof.
  intros [Hd _ Hs Hsm]. split.
  - intros u Hu. destruct (Hd u Hu) as [d Hdd]. exists d.
    split; [by apply is_dist_min_cost|by eapply Hsm].
  - eapply StronglySorted_weaken; [|done]. intros u v Huv du dv Hdu Hdv.
    apply Huv; by apply is_dist_min_cost.
Qed.

Lemma order_final g hf fuel start goal st r :
  nonneg_costs g → consistent g hf →
  XInv g hf start goal st → NInv g st →
  MInv g hf start (ucs_pQueue st) (ucs_exploredOrder st) →
  relax_step hf g fuel start goal st = Done (inr r) →
  order_post g hf start r.
Proof.
  intros Hn Hcons HX HN HM Hstep.
  pose proof HX as [[Hh Hcore Hdom Hcover Hrel] HO].
  unfold relax_step in Hstep.
  destruct (pop_ok _ Hh)
    as [[Hemp _]|(m & pq' & Hemp & Hdq & Hh' & Hpq & Hel & Hmin)];
    rewrite Hemp in Hstep.
  { destruct (buildResult _ _ _ _ _ _ _ _) as [r'| |] eqn:Hr; [|done..].
    simpl in Hstep. simplify_eq.
    apply buildResult_fields in Hr as (_ & HE & _).
    apply (MInv_order_post g hf start (ucs_pQueue st)). by rewrite HE. }
  rewrite Hdq in Hstep. cbn [or_fail mbind outcome_mbind obind] in Hstep.
  case_decide as Hvis; [done|].
  case_decide as Hgoal.
  2:{ by destruct (for_each _ _ _). }
  destruct (buildResult _ _ _ _ _ _ _ _) as [r'| |] eqn:Hr; [|done..].
  simpl in Hstep. simplify_eq.
  apply buildResult_fields in Hr as (_ & HE & _).
  destruct (order_pop g hf start (element m) st m pq' Hn Hcons HX HN HM Hpq
              Hmin Hvis) as (gc & _ & _ & HM').
  apply (MInv_order_post g hf start pq'). by rewrite HE.
Qed.

Lemma XInv_init g hf start goal :
  XInv g hf start goal
    (UcsState [mkItem start (hval g hf start)] ∅ {[start := None]}
              {[start := 0]} []).
Proof.
  split; [split|]; simpl.
  + apply heap_ok_singleton.
  + apply SInv_init.
  + intros v. destruct (decide (v = start)) as [->|Hne].
    * rewrite !lookup_singleton_eq. split; eauto.
    * by rewrite !lookup_singleton_ne.
  + intros v [c Hv]. apply lookup_singleton_Some in Hv as [<- _].
    right. by left.
  + intros _. split.
    * apply parent_ok_init.
    * apply lookup_singleton_eq.
    * intros v c Hv. apply lookup_singleton_Some in Hv as [<- <-].
      constructor.
    * intros v p Hv. by apply lookup_singleton_Some in Hv as [_ ?].
  + intros _ _. split; [split; simpl|split].
    * intros it ->%list_elem_of_singleton. simpl.
      rewrite lookup_singleton_eq. eexists. split; [done|lia].
    * intros v gv Hv _. apply lookup_singleton_Some in Hv as [<- <-].
      rewrite Z.add_0_l. by left.
    * set_solver.
    * set_solver.
    * intros v [o Hv]. apply lookup_singleton_Some in Hv as [<- <-].
      exists [start], 0. split_and!.
      -- constructor. apply lookup_singleton_eq.
      -- constructor.
      -- apply lookup_singleton_eq.
    * intros v p Hv. by apply lookup_singleton_Some in Hv as [_ ?].
Qed.

Lemma relax_order g hf fuel start goal p0 :
  wf_graph g → is_Some (nodes g !! start) → (search_bound g ≤ fuel)%nat →
  nonneg_costs g → consistent g hf → h_small g hf → p0 = hval g hf start →
  ∃ r, run (relax_step hf g fuel start goal) fuel
           (UcsState [mkItem start p0] ∅ {[start := None]} {[start := 0]} [])
       = Done r
       ∧ order_post g hf start r.
Proof.
  intros Hwf Hs Hfuel Hn Hcons Hh ->.
  apply (run_returns _
           (λ st, XInv g hf start goal st ∧ NInv g st
                  ∧ MInv g hf start (ucs_pQueue st) (ucs_exploredOrder st))
           (relax_measure g)).
  - intros st (HX & HN & HM).
    destruct (relax_step_ok g hf fuel start goal st Hwf Hs Hfuel
                (or_introl Hn) HX)
      as [(st' & Hst & HX' & Hμ)|(r & Hr & _)].
    + left. exists st'. split_and!; try done.
      * by apply (NInv_step g hf fuel start goal st st').
      * by apply (order_step g hf fuel start goal st st').
    + right. exists r. split; [done|].
      by apply (order_final g hf fuel start goal st r).
  - split_and!; [apply XInv_init|by apply NInv_init|]. split; simpl.
    + by intros u ?%elem_of_nil.
    + by intros u du it ?%elem_of_nil.
    + constructor.
    + by intros u du ?%elem_of_nil.
  - pose proof (measure_init g start). unfold relax_measure. simpl in *. lia.
Qed.

(** X12: with costs that are not negative, and costs and heuristics that
    are integers of total magnitude at most [2 ^ 53] (so that the code
    adds them without rounding), [ucs] explores the vertices in the order
    of their least cost from [start]: of two explored vertices, the one
    explored first is no farther than the other.  [astar] with a
    consistent heuristic explores them in the order of least cost plus
    heuristic.  Every explored vertex has such a least cost, an exact
    number. *)
Theorem explored_in_cost_order g fuel start goal :
  wf_graph g → nonneg_costs g → small_numbers g →
  is_Some (nodes g !! start) → (search_bound g ≤ fuel)%nat →
  (∃ r, ucs g fuel start goal = Done r
        ∧ (∀ u, u ∈ exploredOrder r →
                ∃ d, min_cost g start u d ∧ exact d)
        ∧ StronglySorted
            (λ u v, ∀ du dv, min_cost g start u du → min_cost g start v dv →
                             du ≤ dv)
            (exploredOrder r))
  ∧ (consistent g node_h →
     ∃ r, astar g fuel start goal = Done r
          ∧ (∀ u, u ∈ exploredOrder r →
                  ∃ d, min_cost g start u d ∧ exact d)
          ∧ StronglySorted
              (λ u v, ∀ du dv,
                 min_cost g start u du → min_cost g start v dv →
                 du + hval g node_h u ≤ dv + hval g node_h v)
              (exploredOrder r)).
Proof.
  intros Hwf Hn Hsmall Hs Hfuel.
  assert (∀ d, Z.abs d ≤ cost_mass g → exact d) as Hex.
  { intros d Hd. pose proof (h_mass_nonneg g).
    unfold exact, small_numbers in *. lia. }
  split.
  - rewrite ucs_relax.
    destruct (relax_order g (λ _, 0) fuel start goal 0 Hwf Hs Hfuel Hn)
      as (r & Hr & Hd & Hsort).
    { by apply consistent_zero. }
    { apply h_small_zero. }
    { unfold hval. by destruct (nodes g !! start). }
    exists r. split_and!; [done| |].
    + intros u Hu. destruct (Hd u Hu) as (d & ? & ?). exists d. auto.
    + eapply StronglySorted_weaken; [|done]. intros u v Huv du dv Hdu Hdv.
      specialize (Huv du dv Hdu Hdv). unfold hval in Huv.
      destruct (nodes g !! u), (nodes g !! v); simpl in Huv; lia.
  - intros Hcons. destruct Hs as [nd Hnd].
    rewrite (astar_relax g fuel start goal nd Hnd).
    destruct (relax_order g node_h fuel start goal (node_h nd) Hwf
                ltac:(eauto) Hfuel Hn Hcons) as (r & Hr & Hd & Hsort).
    { apply h_small_node_h. }
    { unfold hval. by rewrite Hnd. }
    exists r. split_and!; [done| |done].
    intros u Hu. destruct (Hd u Hu) as (d & ? & ?). exists d. auto.
Qed.

Lemma explored_in_cost_order_witness :
  consistent gentle_graph node_h
  ∧ (∃ r, ucs gentle_graph 10 "S" "G" = Done r
        ∧ (∀ u, u ∈ exploredOrder r →
                ∃ d, min_cost gentle_graph "S" u d ∧ exact d)
        ∧ StronglySorted
            (λ u v, ∀ du dv, min_cost gentle_graph "S" u du →
                             min_cost gentle_graph "S" v dv → du ≤ dv)
            (exploredOrder r))
  ∧ (∃ r, astar gentle_graph 10 "S" "G" = Done r
          ∧ (∀ u, u ∈ exploredOrder r →
                  ∃ d, min_cost gentle_graph "S" u d ∧ exact d)
          ∧ StronglySorted
              (λ u v, ∀ du dv,
                 min_cost gentle_graph "S" u du →
                 min_cost gentle_graph "S" v dv →
                 du + hval gentle_graph node_h u
                 ≤ dv + hval gentle_graph node_h v)
              (exploredOrder r)).
Proof.
  assert (consistent gentle_graph node_h) as Hc.
  { apply (bool_decide_unpack _). by vm_compute. }
  split; [done|].
  destruct (explored_in_cost_order gentle_graph 10 "S" "G") as [Hu Ha].
  - apply gentle_graph_wf.
  - apply (bool_decide_unpack _). by vm_compute.
  - apply (bool_decide_unpack _). by vm_compute.
  - solve_node.
  - vm_compute. lia.
  - split; [done|]. by apply Ha.
Defined.
(** ** What every returned result satisfies *)

Lemma reconstruct_sound fuel (P : ParentMap) v acc l :
  reconstruct fuel P v acc = Done l → ∃ l', chain P v l' ∧ l = l' ++ acc.
Proof.
  revert v acc. induction fuel as [|n IH]; intros v acc Hr; [done|].
  simpl in Hr. destruct (P !! v) as [[p|]|] eqn:Hv; [| |done].
  - destruct (IH _ _ Hr) as (l' & Hl' & ->). exists (l' ++ [v]).
    split; [by econstructor|]. by rewrite <- app_assoc.
  - simplify_eq. exists [v]. split; [by constructor|done].
Qed.

Lemma buildResult_shape g fuel start goal P E f cm r :
  buildResult g fuel start goal P E f cm = Done r →
  NoDup (path r)
  ∧ nodesExplored r = length (exploredOrder r)
  ∧ (found r = false → path r = [] ∧ pathCost r = 0)
  ∧ (path r ≠ [] → found r = true ∧ last (path r) = Some goal).
Proof.
  unfold buildResult. intros Hr.
  destruct (f && bool_decide (is_Some (P !! goal))) eqn:Hf.
  - apply andb_true_iff in Hf as [-> _].
    destruct (reconstruct fuel P goal []) as [l| |] eqn:Hl; [|done..].
    apply reconstruct_sound in Hl as (l' & Hl' & ->).
    rewrite app_nil_r in Hr. simpl in Hr.
    destruct (match cm with Some _ => _ | None => _ end) as [c| |];
      [|done..].
    simpl in Hr. simplify_eq. simpl. split_and!; try done.
    + by eapply chain_NoDup.
    + intros _. split; [done|]. by eapply chain_last.
  - simpl in Hr. simplify_eq. simpl. split_and!; try done. constructor.
Qed.

Lemma run_inr {S R} (step : S → outcome (S + R)) fuel s r :
  run step fuel s = Done r → ∃ s', step s' = Done (inr r).
Proof.
  revert s. induction fuel as [|n IH]; intros s Hr; [done|].
  simpl in Hr. destruct (step s) as [[s'|r']| |] eqn:Hs; [|simplify_eq|done..].
  - eauto.
  - eauto.
Qed.

Definition from_buildResult (g : Graph) (fuel : nat) (start goal : string)
    (r : Result) : Prop :=
  ∃ P E f cm, buildResult g fuel start goal P E f cm = Done r.

Lemma fmap_inr_Done {S R} (o : outcome R) (x : S + R) :
  inr <$> o = Done x → ∃ r, x = inr r ∧ o = Done r.
Proof. destruct o; simpl; intros; simplify_eq; eauto. Qed.

Lemma fmap_inl_Done {S R} (o : outcome S) (r : R) :
  (inl <$> o : outcome (S + R)) = Done (inr r) → False.
Proof. destruct o; simpl; intros; simplify_eq. Qed.

Lemma bfs_step_result g fuel start goal st r :
  bfs_step g fuel start goal st = Done (inr r) →
  from_buildResult g fuel start goal r.
Proof.
  unfold bfs_step. intros Hs. destruct (bfs_queue st) as [|cur queue].
  - apply fmap_inr_Done in Hs as (r' & [= <-] & Hr). by repeat eexists.
  - case_decide.
    + apply fmap_inr_Done in Hs as (r' & [= <-] & Hr). by repeat eexists.
    + by apply fmap_inl_Done in Hs.
Qed.

Lemma dfs_step_result g fuel start goal st r :
  dfs_step g fuel start goal st = Done (inr r) →
  from_buildResult g fuel start goal r.
Proof.
  unfold dfs_step. intros Hs. destruct (dfs_stack st) as [|cur stack].
  - apply fmap_inr_Done in Hs as (r' & [= <-] & Hr). by repeat eexists.
  - case_decide; [done|]. case_decide.
    + apply fmap_inr_Done in Hs as (r' & [= <-] & Hr). by repeat eexists.
    + by apply fmap_inl_Done in Hs.
Qed.

Lemma ucs_step_result g fuel start goal st r :
  ucs_step g fuel start goal st = Done (inr r) →
  from_buildResult g fuel start goal r.
Proof.
  unfold ucs_step. intros Hs. destruct (isEmpty _).
  - apply fmap_inr_Done in Hs as (r' & [= <-] & Hr). by repeat eexists.
  - destruct (dequeue _) as [[[cur|] pq]|]; simpl in Hs; try done.
    case_decide; [done|]. case_decide.
    + apply fmap_inr_Done in Hs as (r' & [= <-] & Hr). by repeat eexists.
    + by apply fmap_inl_Done in Hs.
Qed.

Lemma astar_step_result g fuel start goal st r :
  astar_step g fuel start goal st = Done (inr r) →
  from_buildResult g fuel start goal r.
Proof.
  unfold astar_step. intros Hs. destruct (isEmpty _).
  - apply fmap_inr_Done in Hs as (r' & [= <-] & Hr). by repeat eexists.
  - destruct (dequeue _) as [[[cur|] pq]|]; simpl in Hs; try done.
    case_decide; [done|]. case_decide.
    + apply fmap_inr_Done in Hs as (r' & [= <-] & Hr). by repeat eexists.
    + by apply fmap_inl_Done in Hs.
Qed.

Lemma greedy_step_result g fuel start goal st r :
  greedy_step g fuel start goal st = Done (inr r) →
  from_buildResult g fuel start goal r.
Proof.
  unfold greedy_step. intros Hs. destruct (isEmpty _).
  - apply fmap_inr_Done in Hs as (r' & [= <-] & Hr). by repeat eexists.
  - destruct (dequeue _) as [[[cur|] pq]|]; simpl in Hs; try done.
    case_decide; [done|]. case_decide.
    + apply fmap_inr_Done in Hs as (r' & [= <-] & Hr). by repeat eexists.
    + by apply fmap_inl_Done in Hs.
Qed.

Lemma runAlgorithm_result g fuel algoType start goal r :
  runAlgorithm g fuel algoType start goal = Done r →
  from_buildResult g fuel start goal r.
Proof.
  destruct algoType; simpl.
  - intros [st Hs]%run_inr. by eapply bfs_step_result.
  - intros [st Hs]%run_inr. by eapply dfs_step_result.
  - unfold ucs. destruct (ucs_init start) as [st0| |]; simpl; [|done..].
    intros [st Hs]%run_inr. by eapply ucs_step_result.
  - unfold astar. destruct (astar_init g start) as [st0| |]; simpl; [|done..].
    intros [st Hs]%run_inr. by eapply astar_step_result.
  - unfold greedy. destruct (greedy_init g start) as [st0| |]; simpl;
      [|done..].
    intros [st Hs]%run_inr. by eapply greedy_step_result.
Qed.

(** X13: whatever the graph, the costs and the heuristic, a result that a
    strategy returns has a path without a repeated vertex; the path is
    empty and the cost 0 when the goal was not found, and a path that is
    not empty ends at the goal; [nodesExplored] is the length of
    [exploredOrder]. *)
Theorem returned_path_simple g fuel algoType start goal r :
  runAlgorithm g fuel algoType start goal = Done r →
  NoDup (path r)
  ∧ nodesExplored r = length (exploredOrder r)
  ∧ (found r = false → path r = [] ∧ pathCost r = 0)
  ∧ (path r ≠ [] → found r = true ∧ last (path r) = Some goal).
Proof.
  intros (P & E & f & cm & Hr)%runAlgorithm_result.
  by eapply buildResult_shape.
Qed.

Lemma returned_path_simple_witness :
  ∃ r, runAlgorithm detour_graph 10 Astar "S" "G" = Done r
       ∧ NoDup (path r)
       ∧ nodesExplored r = length (exploredOrder r)
       ∧ (found r = false → path r = [] ∧ pathCost r = 0)
       ∧ (path r ≠ [] → found r = true ∧ last (path r) = Some "G").
Proof.
  eexists. split; [vm_compute; reflexivity|].
  apply (returned_path_simple detour_graph 10 Astar "S" "G").
  vm_compute. reflexivity.
Defined.
(** ** The returned cost, where the code adds without rounding *)

Lemma gentle_graph_small : small_numbers gentle_graph.
Proof. apply (bool_decide_unpack _). by vm_compute. Qed.

Lemma runAlgorithm_path_NoDup g fuel algoType start goal r :
  runAlgorithm g fuel algoType start goal = Done r → NoDup (path r).
Proof.
  intros (P & E & f & cm & Hr)%runAlgorithm_result.
  by destruct (buildResult_shape _ _ _ _ _ _ _ _ _ Hr) as [? _].
Qed.

Lemma is_path_prefix g l l' c :
  is_path g l c → l' `prefix_of` l → l' ≠ [] → ∃ c', is_path g l' c'.
Proof.
  intros Hp. revert l'. induction Hp as [v|a b l w c He Hp IH]; intros l' Hpre Hne.
  - destruct l' as [|x l']; [done|].
    apply prefix_cons_inv_1 in Hpre as Hx. subst x.
    apply prefix_cons_inv_2, prefix_nil_inv in Hpre as ->.
    exists 0. constructor.
  - destruct l' as [|x l']; [done|].
    apply prefix_cons_inv_1 in Hpre as Hx. subst x.
    apply prefix_cons_inv_2 in Hpre.
    destruct l' as [|y l']; [exists 0; constructor|].
    destruct (IH (y :: l') Hpre) as [c' Hc']; [done|].
    apply prefix_cons_inv_1 in Hpre as Hy. subst y.
    exists (w + c'). by constructor.
Qed.

(** X8: on a graph that keeps one adjacency entry per target (as every
    graph made by [addNode] and [addEdge] does) and whose costs and
    heuristics are integers of total magnitude at most [2 ^ 53], with
    costs as the strategy needs them and a consistent heuristic for
    [astar], the [pathCost] of a found result is the total cost of the
    returned path, which leads from [start] to [goal]; summing the edges
    of the path by the fallback loop of [buildResult] gives the same
    number, and every partial sum along the path is exact. *)
Theorem returned_cost_is_path_cost g algoType start goal fuel :
  graph_inv g → small_numbers g → costs_ok g algoType →
  (algoType = Astar → consistent g node_h) →
  is_Some (nodes g !! start) → (search_bound g ≤ fuel)%nat →
  ∃ r, runAlgorithm g fuel algoType start goal = Done r
       ∧ (found r = true →
          path_between g start goal (path r) (pathCost r)
          ∧ manualCost g (path r) 0 = Done (pathCost r)
          ∧ ∀ l' c', l' `prefix_of` path r → is_path g l' c' → exact c').
Proof.
  intros Hinv Hsmall Hcosts Hcons Hs Hfuel.
  pose proof (gi_wf _ Hinv) as Hwf.
  assert (∃ r, runAlgorithm g fuel algoType start goal = Done r
               ∧ search_post g start goal r
               ∧ (found r = true → is_path g (path r) (pathCost r)))
    as (r & Hrun & Hpost & Hpath).
  { destruct algoType; simpl.
    - destruct (bfs_correct g fuel start goal) as (r & ? & ? & ?); eauto.
    - destruct (dfs_correct g fuel start goal) as (r & ? & ? & ?); eauto.
    - assert (nonneg_costs g) as Hnn by (apply Hcosts; by left).
      destruct (ucs_correct g fuel start goal Hwf Hs Hfuel (or_introl Hnn))
        as (r & ? & ? & Ho).
      exists r. split_and!; [done..|]. intros Hf. by apply Ho.
    - assert (nonneg_costs g) as Hnn by (apply Hcosts; by right).
      destruct (astar_correct g fuel start goal Hwf Hs Hfuel (or_introl Hnn))
        as (r & ? & ? & Ho).
      exists r. split_and!; [done..|]. intros Hf. apply Ho; auto.
    - destruct (greedy_correct g fuel start goal) as (r & ? & ? & ?); eauto. }
  exists r. split; [done|]. intros Hf. specialize (Hpath Hf).
  destruct (sp_found _ _ _ _ Hpost Hf) as (_ & c & _ & Hh & Hl).
  split_and!; [by split_and!| |].
  - destruct (manualCost_path g (path r) (pathCost r) 0 Hwf Hpath)
      as (c' & -> & Hc').
    f_equal. rewrite (is_path_cost_unique g _ _ _ Hinv Hpath Hc'). lia.
  - intros l' c' [k Hk] Hl'. apply (simple_path_exact g l' c' Hsmall Hl').
    pose proof (runAlgorithm_path_NoDup _ _ _ _ _ _ Hrun) as Hnd.
    rewrite Hk in Hnd. by apply NoDup_app in Hnd as [? _].
Qed.

Lemma returned_cost_is_path_cost_witness :
  ∃ r, runAlgorithm gentle_graph 10 Astar "S" "G" = Done r
       ∧ (found r = true →
          path_between gentle_graph "S" "G" (path r) (pathCost r)
          ∧ manualCost gentle_graph (path r) 0 = Done (pathCost r)
          ∧ ∀ l' c', l' `prefix_of` path r → is_path gentle_graph l' c' →
                     exact c').
Proof.
  apply returned_cost_is_path_cost.
  - apply gentle_graph_inv.
  - apply gentle_graph_small.
  - intros _. apply (bool_decide_unpack _). by vm_compute.
  - intros _. apply (bool_decide_unpack _). by vm_compute.
  - solve_node.
  - vm_compute. lia.
Defined.

(** X17: on a well-formed graph whose costs are not negative and whose
    costs and heuristics are integers of total magnitude at most
    [2 ^ 53], for a goal reachable from start, [ucs] returns a path of
    the minimum total cost over all start-to-goal paths and reports that
    cost, an exact number; so does [astar] whenever the heuristic is
    consistent, that is, drops along no edge by more than the edge's
    cost. *)
Theorem ucs_astar_minimum g start goal fuel :
  wf_graph g → nonneg_costs g → small_numbers g →
  is_Some (nodes g !! start) →
  reachable g start goal → (search_bound g ≤ fuel)%nat →
  (∃ r, ucs g fuel start goal = Done r
        ∧ found r = true
        ∧ path_between g start goal (path r) (pathCost r)
        ∧ min_cost g start goal (pathCost r)
        ∧ exact (pathCost r))
  ∧ (consistent g node_h →
     ∃ r, astar g fuel start goal = Done r
          ∧ found r = true
          ∧ path_between g start goal (path r) (pathCost r)
          ∧ min_cost g start goal (pathCost r)
          ∧ exact (pathCost r)).
Proof.
  intros Hwf Hn Hsmall Hs Hr Hfuel.
  assert (∀ algoType r,
            runAlgorithm g fuel algoType start goal = Done r →
            search_post g start goal r → optimal_post g start goal r →
            found r = true
            ∧ path_between g start goal (path r) (pathCost r)
            ∧ min_cost g start goal (pathCost r)
            ∧ exact (pathCost r)) as Hfin.
  { intros algoType r Hrun Hpost Ho.
    pose proof (search_post_found _ _ _ _ Hpost Hr) as Hf.
    destruct (Ho Hf) as [Hp _].
    destruct (sp_found _ _ _ _ Hpost Hf) as (_ & c & _ & Hh & Hl).
    split_and!; [done|by split_and!|by apply optimal_min_cost|].
    apply (simple_path_exact g (path r)); [done..|].
    by eapply runAlgorithm_path_NoDup. }
  split.
  - destruct (ucs_correct g fuel start goal Hwf Hs Hfuel (or_introl Hn))
      as (r & Hrun & Hpost & Ho).
    exists r. split; [done|]. apply (Hfin Ucs); auto.
  - intros Hcons.
    destruct (astar_correct g fuel start goal Hwf Hs Hfuel (or_introl Hn))
      as (r & Hrun & Hpost & Ho).
    exists r. split; [done|]. apply (Hfin Astar); auto.
Qed.

Lemma ucs_astar_minimum_witness :
  consistent gentle_graph node_h
  ∧ (∃ r, ucs gentle_graph 10 "S" "G" = Done r
          ∧ found r = true
          ∧ path_between gentle_graph "S" "G" (path r) (pathCost r)
          ∧ min_cost gentle_graph "S" "G" (pathCost r)
          ∧ exact (pathCost r))
  ∧ (∃ r, astar gentle_graph 10 "S" "G" = Done r
          ∧ found r = true
          ∧ path_between gentle_graph "S" "G" (path r) (pathCost r)
          ∧ min_cost gentle_graph "S" "G" (pathCost r)
          ∧ exact (pathCost r)).
Proof.
  assert (consistent gentle_graph node_h) as Hc.
  { apply (bool_decide_unpack _). by vm_compute. }
  destruct (ucs_astar_minimum gentle_graph "S" "G" 10) as [Hu Ha].
  - apply gentle_graph_wf.
  - apply (bool_decide_unpack _). by vm_compute.
  - apply gentle_graph_small.
  - solve_node.
  - apply gentle_graph_reach.
  - vm_compute. lia.
  - split_and!; [done..|]. by apply Ha.
Defined.
(** ** The first and the last explored vertex *)

Lemma run_inv_partial {S R} (step : S → outcome (S + R)) (Inv : S → Prop)
    (Post : R → Prop) :
  (∀ s s', Inv s → step s = Done (inl s') → Inv s') →
  (∀ s r, Inv s → step s = Done (inr r) → Post r) →
  ∀ fuel s r, Inv s → run step fuel s = Done r → Post r.
Proof.
  intros Hinl Hinr. induction fuel as [|n IH]; intros s r Hs Hr; [done|].
  simpl in Hr. destruct (step s) as [[s'|r']| |] eqn:Hstep; [| |done..].
  - eapply IH; [|done]. by eapply Hinl.
  - simplify_eq. by eapply Hinr.
Qed.

Lemma for_each_preserve {S X A} (proj : S → A) (body : S → X → outcome S)
    xs s s' :
  (∀ s x s', body s x = Done s' → proj s' = proj s) →
  for_each body xs s = Done s' → proj s' = proj s.
Proof.
  intros Hb. revert s. induction xs as [|x xs IH]; intros s Hr; simpl in Hr.
  - by simplify_eq.
  - destruct (body s x) as [s1| |] eqn:H1; simpl in Hr; [|done..].
    rewrite (IH _ Hr). by eapply Hb.
Qed.

Lemma fmap_inl_Done_inv {S R} (o : outcome S) (s' : S) :
  (inl <$> o : outcome (S + R)) = Done (inl s') → o = Done s'.
Proof. destruct o; simpl; intros; by simplify_eq. Qed.

Lemma fmap_inr_Done_inl {S R} (o : outcome R) (s' : S) :
  (inr <$> o : outcome (S + R)) = Done (inl s') → False.
Proof. destruct o; simpl; intros; simplify_eq. Qed.

(** How a loop ends: with an empty frontier ([A]) and nothing found, or
    with the goal taken off the frontier ([B]) and explored last. *)
Definition finishes (goal : string) (E : list string) (A B : Prop)
    (r : Result) : Prop :=
  (A ∧ found r = false ∧ exploredOrder r = E)
  ∨ (B ∧ found r = true ∧ exploredOrder r = E ++ [goal]).

Definition explored_post (start goal : string) (r : Result) : Prop :=
  head (exploredOrder r) = Some start
  ∧ (found r = true → last (exploredOrder r) = Some goal).

Lemma finishes_post start goal E (A B : Prop) r :
  (E ≠ [] → head E = Some start) →
  (E = [] → ¬ A ∧ (B → goal = start)) →
  finishes goal E A B r → explored_post start goal r.
Proof.
  unfold explored_post.
  intros Hh H0 [(HA & Hf & ->)|(HB & Hf & ->)]; split.
  - destruct E as [|a E]; [by destruct (H0 eq_refl)|by apply Hh].
  - congruence.
  - destruct E as [|a E]; [|by apply Hh].
    destruct (H0 eq_refl) as [_ ->]; done.
  - intros _. by rewrite last_snoc.
Qed.

(** *** bfs *)

Lemma bfs_neighbor_explored cur st nb st' :
  bfs_neighbor cur st nb = Done st' →
  bfs_exploredOrder st' = bfs_exploredOrder st.
Proof.
  unfold bfs_neighbor. destruct (nb_node nb); simpl; [|done].
  case_decide; intros; by simplify_eq.
Qed.

Lemma bfs_step_inl g fuel start goal st st' :
  bfs_step g fuel start goal st = Done (inl st') →
  ∃ cur rest, bfs_queue st = cur :: rest
              ∧ bfs_exploredOrder st' = bfs_exploredOrder st ++ [cur].
Proof.
  unfold bfs_step. intros Hs. destruct (bfs_queue st) as [|cur rest].
  { by apply fmap_inr_Done_inl in Hs. }
  case_decide; [by apply fmap_inr_Done_inl in Hs|].
  apply fmap_inl_Done_inv in Hs. exists cur, rest. split; [done|].
  by rewrite (for_each_preserve bfs_exploredOrder _ _ _ _
                (bfs_neighbor_explored cur) Hs).
Qed.

Lemma bfs_step_inr g fuel start goal st r :
  bfs_step g fuel start goal st = Done (inr r) →
  finishes goal (bfs_exploredOrder st) (bfs_queue st = [])
           (∃ rest, bfs_queue st = goal :: rest) r.
Proof.
  unfold bfs_step. intros Hs. destruct (bfs_queue st) as [|cur rest].
  - apply fmap_inr_Done in Hs as (r' & [= <-] & Hr).
    apply buildResult_fields in Hr as (? & ? & _). by left.
  - case_decide as Hg; [|by apply fmap_inl_Done in Hs].
    apply fmap_inr_Done in Hs as (r' & [= <-] & Hr).
    apply buildResult_fields in Hr as (? & ? & _). subst cur.
    right. eauto.
Qed.

Lemma bfs_explored g fuel start goal r :
  bfs g fuel start goal = Done r → explored_post start goal r.
Proof.
  unfold bfs.
  apply (run_inv_partial _
           (λ st, (bfs_exploredOrder st = [] ∧ bfs_queue st = [start])
                  ∨ (bfs_exploredOrder st ≠ []
                     ∧ head (bfs_exploredOrder st) = Some start))).
  - intros st st' Hst (cur & rest & Hq & HE)%bfs_step_inl. right.
    rewrite HE. destruct Hst as [[-> Hq']|[Hne Hh]].
    + rewrite Hq' in Hq. by simplify_eq.
    + split; [by destruct (bfs_exploredOrder st)|].
      by destruct (bfs_exploredOrder st).
  - intros st r' Hst Hfin%bfs_step_inr.
    eapply finishes_post; [| |done].
    + intros Hne. destruct Hst as [[? _]|[_ ?]]; done.
    + intros HE. destruct Hst as [[_ Hq']|[? _]]; [|done].
      rewrite Hq'. split; [done|]. intros [rest ?]. by simplify_eq.
  - by left.
Qed.

(** *** dfs *)

Lemma dfs_neighbor_explored cur st nb st' :
  dfs_neighbor cur st nb = Done st' →
  dfs_exploredOrder st' = dfs_exploredOrder st
  ∧ dfs_visited st' = dfs_visited st.
Proof.
  unfold dfs_neighbor. destruct (nb_node nb); simpl; [|done].
  case_decide; intros; by simplify_eq.
Qed.

Lemma dfs_step_inl g fuel start goal st st' :
  dfs_step g fuel start goal st = Done (inl st') →
  ∃ cur rest, dfs_stack st = cur :: rest
    ∧ ((cur ∈ dfs_visited st
        ∧ dfs_exploredOrder st' = dfs_exploredOrder st
        ∧ dfs_visited st' = dfs_visited st)
       ∨ (dfs_exploredOrder st' = dfs_exploredOrder st ++ [cur])).
Proof.
  unfold dfs_step. intros Hs. destruct (dfs_stack st) as [|cur rest].
  { by apply fmap_inr_Done_inl in Hs. }
  exists cur, rest. split; [done|].
  case_decide; [left; by simplify_eq|].
  case_decide; [by apply fmap_inr_Done_inl in Hs|].
  apply fmap_inl_Done_inv in Hs. right.
  by rewrite (for_each_preserve dfs_exploredOrder _ _ _ _
                (λ s x s' H, proj1 (dfs_neighbor_explored cur s x s' H)) Hs).
Qed.

Lemma dfs_step_inr g fuel start goal st r :
  dfs_step g fuel start goal st = Done (inr r) →
  finishes goal (dfs_exploredOrder st) (dfs_stack st = [])
           (∃ rest, dfs_stack st = goal :: rest) r.
Proof.
  unfold dfs_step. intros Hs. destruct (dfs_stack st) as [|cur rest].
  - apply fmap_inr_Done in Hs as (r' & [= <-] & Hr).
    apply buildResult_fields in Hr as (? & ? & _). by left.
  - case_decide; [done|].
    case_decide as Hg; [|by apply fmap_inl_Done in Hs].
    apply fmap_inr_Done in Hs as (r' & [= <-] & Hr).
    apply buildResult_fields in Hr as (? & ? & _). subst cur.
    right. eauto.
Qed.

Lemma dfs_explored g fuel start goal r :
  dfs g fuel start goal = Done r → explored_post start goal r.
Proof.
  unfold dfs.
  apply (run_inv_partial _
           (λ st, (dfs_exploredOrder st = [] ∧ dfs_stack st = [start]
                   ∧ dfs_visited st = ∅)
                  ∨ (dfs_exploredOrder st ≠ []
                     ∧ head (dfs_exploredOrder st) = Some start))).
  - intros st st' Hst (cur & rest & Hq & Hcase)%dfs_step_inl.
    destruct Hst as [(HE & Hq' & HV)|[Hne Hh]].
    + rewrite Hq' in Hq. simplify_eq. right.
      destruct Hcase as [[Hin _]| ->]; [set_solver|]. by rewrite HE.
    + right. destruct Hcase as [(_ & -> & _)| ->]; [done|].
      by destruct (dfs_exploredOrder st).
  - intros st r' Hst Hfin%dfs_step_inr.
    eapply finishes_post; [| |done].
    + intros Hne. destruct Hst as [[? _]|[_ ?]]; done.
    + intros HE. destruct Hst as [(_ & Hq' & _)|[? _]]; [|done].
      rewrite Hq'. split; [done|]. intros [rest ?]. by simplify_eq.
  - by left.
Qed.

(** *** ucs and astar *)

Lemma relax_neighbor_explored hf cur st nb st' :
  relax_neighbor hf cur st nb = Done st' →
  ucs_exploredOrder st' = ucs_exploredOrder st.
Proof.
  unfold relax_neighbor. destruct (nb_node nb); simpl; [|done].
  destruct (ucs_cost st !! cur); simpl; [|done].
  destruct (if ucs_cost st !! _ is Some _ then _ else _); [|by intros [= ->]].
  destruct (enqueue _ _ _); simpl; [|done]. intros; by simplify_eq.
Qed.

Lemma relax_step_inl hf g fuel start goal st st' :
  relax_step hf g fuel start goal st = Done (inl st') →
  ∃ cur pq', dequeue (ucs_pQueue st) = Some (Some cur, pq')
    ∧ ((cur ∈ ucs_visited st
        ∧ ucs_exploredOrder st' = ucs_exploredOrder st)
       ∨ (ucs_exploredOrder st' = ucs_exploredOrder st ++ [cur])).
Proof.
  unfold relax_step. intros Hs. destruct (isEmpty _).
  { by apply fmap_inr_Done_inl in Hs. }
  destruct (dequeue _) as [[[cur|] pq']|]; simpl in Hs; try done.
  exists cur, pq'. split; [done|].
  case_decide; [left; by simplify_eq|].
  case_decide; [by apply fmap_inr_Done_inl in Hs|].
  apply fmap_inl_Done_inv in Hs. right.
  by rewrite (for_each_preserve ucs_exploredOrder _ _ _ _
                (relax_neighbor_explored hf cur) Hs).
Qed.

Lemma relax_step_inr hf g fuel start goal st r :
  relax_step hf g fuel start goal st = Done (inr r) →
  finishes goal (ucs_exploredOrder st) (isEmpty (ucs_pQueue st) = true)
           (∃ pq', dequeue (ucs_pQueue st) = Some (Some goal, pq')) r.
Proof.
  unfold relax_step. intros Hs. destruct (isEmpty _) eqn:Hemp.
  - apply fmap_inr_Done in Hs as (r' & [= <-] & Hr).
    apply buildResult_fields in Hr as (? & ? & _). by left.
  - destruct (dequeue _) as [[[cur|] pq']|]; simpl in Hs; try done.
    case_decide; [done|].
    case_decide as Hg; [|by apply fmap_inl_Done in Hs].
    apply fmap_inr_Done in Hs as (r' & [= <-] & Hr).
    apply buildResult_fields in Hr as (? & ? & _). subst cur.
    right. eauto.
Qed.

Lemma relax_explored hf g fuel start goal p0 r :
  run (relax_step hf g fuel start goal) fuel
      (UcsState [mkItem start p0] ∅ {[start := None]} {[start := 0]} [])
  = Done r →
  explored_post start goal r.
Proof.
  apply (run_inv_partial _
           (λ st, (ucs_exploredOrder st = []
                   ∧ (∃ p, ucs_pQueue st = [mkItem start p])
                   ∧ ucs_visited st = ∅)
                  ∨ (ucs_exploredOrder st ≠ []
                     ∧ head (ucs_exploredOrder st) = Some start))).
  - intros st st' Hst (cur & pq' & Hq & Hcase)%relax_step_inl.
    destruct Hst as [(HE & [p Hq'] & HV)|[Hne Hh]].
    + rewrite Hq', dequeue_singleton in Hq. simplify_eq. simpl. right.
      destruct Hcase as [[Hin _]| ->]; [set_solver|]. by rewrite HE.
    + right. destruct Hcase as [(_ & ->)| ->]; [done|].
      by destruct (ucs_exploredOrder st).
  - intros st r' Hst Hfin%relax_step_inr.
    eapply finishes_post; [| |done].
    + intros Hne. destruct Hst as [[? _]|[_ ?]]; done.
    + intros HE. destruct Hst as [(_ & [p Hq'] & _)|[? _]]; [|done].
      rewrite Hq'. split; [done|]. intros [rest Hd].
      rewrite dequeue_singleton in Hd. by simplify_eq.
  - left. eauto.
Qed.

(** *** greedy *)

Lemma greedy_neighbor_explored cur st nb st' :
  greedy_neighbor cur st nb = Done st' →
  greedy_exploredOrder st' = greedy_exploredOrder st.
Proof.
  unfold greedy_neighbor. destruct (nb_node nb); simpl; [|done].
  case_decide; [by intros [= ->]|].
  destruct (greedy_parent st !! _); simpl.
  - destruct (enqueue _ _ _); simpl; [|done]. intros; by simplify_eq.
  - destruct (greedy_cost st !! cur); simpl; [|done].
    destruct (enqueue _ _ _); simpl; [|done]. intros; by simplify_eq.
Qed.

Lemma greedy_step_inl g fuel start goal st st' :
  greedy_step g fuel start goal st = Done (inl st') →
  ∃ cur pq', dequeue (greedy_pQueue st) = Some (Some cur, pq')
    ∧ ((cur ∈ greedy_visited st
        ∧ greedy_exploredOrder st' = greedy_exploredOrder st)
       ∨ (greedy_exploredOrder st' = greedy_exploredOrder st ++ [cur])).
Proof.
  unfold greedy_step. intros Hs. destruct (isEmpty _).
  { by apply fmap_inr_Done_inl in Hs. }
  destruct (dequeue _) as [[[cur|] pq']|]; simpl in Hs; try done.
  exists cur, pq'. split; [done|].
  case_decide; [left; by simplify_eq|].
  case_decide; [by apply fmap_inr_Done_inl in Hs|].
  apply fmap_inl_Done_inv in Hs. right.
  by rewrite (for_each_preserve greedy_exploredOrder _ _ _ _
                (greedy_neighbor_explored cur) Hs).
Qed.

Lemma greedy_step_inr g fuel start goal st r :
  greedy_step g fuel start goal st = Done (inr r) →
  finishes goal (greedy_exploredOrder st)
           (isEmpty (greedy_pQueue st) = true)
           (∃ pq', dequeue (greedy_pQueue st) = Some (Some goal, pq')) r.
Proof.
  unfold greedy_step. intros Hs. destruct (isEmpty _) eqn:Hemp.
  - apply fmap_inr_Done in Hs as (r' & [= <-] & Hr).
    apply buildResult_fields in Hr as (? & ? & _). by left.
  - destruct (dequeue _) as [[[cur|] pq']|]; simpl in Hs; try done.
    case_decide; [done|].
    case_decide as Hg; [|by apply fmap_inl_Done in Hs].
    apply fmap_inr_Done in Hs as (r' & [= <-] & Hr).
    apply buildResult_fields in Hr as (? & ? & _). subst cur.
    right. eauto.
Qed.

Lemma greedy_explored g fuel start goal r :
  greedy g fuel start goal = Done r → explored_post start goal r.
Proof.
  unfold greedy, greedy_init.
  destruct (getNode g start) as [nd|]; simpl; [|done].
  rewrite enqueue_new. simpl.
  apply (run_inv_partial _
           (λ st, (greedy_exploredOrder st = []
                   ∧ (∃ p, greedy_pQueue st = [mkItem start p])
                   ∧ greedy_visited st = ∅)
                  ∨ (greedy_exploredOrder st ≠ []
                     ∧ head (greedy_exploredOrder st) = Some start))).
  - intros st st' Hst (cur & pq' & Hq & Hcase)%greedy_step_inl.
    destruct Hst as [(HE & [p Hq'] & HV)|[Hne Hh]].
    + rewrite Hq', dequeue_singleton in Hq. simplify_eq. simpl. right.
      destruct Hcase as [[Hin _]| ->]; [set_solver|]. by rewrite HE.
    + right. destruct Hcase as [(_ & ->)| ->]; [done|].
      by destruct (greedy_exploredOrder st).
  - intros st r' Hst Hfin%greedy_step_inr.
    eapply finishes_post; [| |done].
    + intros Hne. destruct Hst as [[? _]|[_ ?]]; done.
    + intros HE. destruct Hst as [(_ & [p Hq'] & _)|[? _]]; [|done].
      rewrite Hq'. split; [done|]. intros [rest Hd].
      rewrite dequeue_singleton in Hd. by simplify_eq.
  - left. eauto.
Qed.

(** X14: whatever the graph, a result that a strategy returns has an
    exploration order that begins with [start], and that ends with
    [goal] when the goal was found: the goal is the last
    vertex taken off the frontier. *)
Theorem explored_first_and_last g fuel algoType start goal r :
  runAlgorithm g fuel algoType start goal = Done r →
  head (exploredOrder r) = Some start
  ∧ (found r = true → last (exploredOrder r) = Some goal).
Proof.
  destruct algoType; simpl.
  - apply bfs_explored.
  - apply dfs_explored.
  - rewrite ucs_relax. apply relax_explored.
  - unfold astar at 1.
    destruct (astar_init g start) as [st0| |] eqn:Hinit; simpl; [|done..].
    unfold astar_init, getNode in Hinit.
    destruct (nodes g !! start) as [nd|] eqn:Hnd; simpl in Hinit; [|done].
    intros Hrun. apply (relax_explored node_h g fuel start goal (node_h nd)).
    rewrite <- (astar_relax g fuel start goal nd Hnd). unfold astar.
    unfold astar_init, getNode. rewrite Hnd. simpl. by rewrite Hinit.
  - apply greedy_explored.
Qed.

Lemma explored_first_and_last_witness :
  ∃ r, runAlgorithm default_graph 32 Dfs "A" "Goal" = Done r
       ∧ head (exploredOrder r) = Some "A"
       ∧ (found r = true → last (exploredOrder r) = Some "Goal").
Proof.
  eexists. split; [vm_compute; reflexivity|].
  apply (explored_first_and_last default_graph 32 Dfs "A" "Goal").
  vm_compute. reflexivity.
Defined.
(** ** What bfs, dfs and ucs do not read *)

(** Two graphs with the same edges and the same vertex names; positions
    and heuristics may differ. *)
Definition same_names (g g' : Graph) : Prop :=
  edges g = edges g'
  ∧ ∀ k, node_name <$> nodes g !! k = node_name <$> nodes g' !! k.

Definition nb_rel (a b : Neighbor) : Prop :=
  node_name <$> nb_node a = node_name <$> nb_node b ∧ nb_cost a = nb_cost b.

Lemma getNeighbors_rel g g' u :
  same_names g g' → Forall2 nb_rel (getNeighbors g u) (getNeighbors g' u).
Proof.
  intros [He Hn]. unfold getNeighbors. rewrite <- He.
  destruct (edges g !! u) as [es|]; [|constructor].
  induction es as [|e es IH]; simpl; constructor; [|done].
  split; [apply Hn|done].
Qed.

Lemma for_each_rel {S} (f : S → Neighbor → outcome S) xs ys s :
  (∀ s a b, nb_rel a b → f s a = f s b) →
  Forall2 nb_rel xs ys → for_each f xs s = for_each f ys s.
Proof.
  intros Hf Hall. revert s.
  induction Hall as [|a b xs ys Hab _ IH]; intros s; [done|].
  simpl. rewrite (Hf s a b Hab). destruct (f s b); simpl; auto.
Qed.

Ltac nb_rel_cases a b H :=
  destruct H as [?Hname ?Hcost];
  destruct (nb_node a) as [?nd|], (nb_node b) as [?nd|];
  simpl in *; simplify_eq; try done.

Lemma bfs_neighbor_rel cur st a b :
  nb_rel a b → bfs_neighbor cur st a = bfs_neighbor cur st b.
Proof.
  intros Hab. unfold bfs_neighbor. nb_rel_cases a b Hab.
  by rewrite Hname.
Qed.

Lemma dfs_neighbor_rel cur st a b :
  nb_rel a b → dfs_neighbor cur st a = dfs_neighbor cur st b.
Proof.
  intros Hab. unfold dfs_neighbor. nb_rel_cases a b Hab.
  by rewrite Hname.
Qed.

Lemma relax_neighbor_rel cur st a b :
  nb_rel a b →
  relax_neighbor (λ _, 0) cur st a = relax_neighbor (λ _, 0) cur st b.
Proof.
  intros Hab. unfold relax_neighbor. nb_rel_cases a b Hab.
  by rewrite Hname, Hcost.
Qed.

Lemma find_neighbor_rel xs ys target :
  Forall2 nb_rel xs ys →
  match find_neighbor xs target, find_neighbor ys target with
  | Done (Some a), Done (Some b) => nb_cost a = nb_cost b
  | Done None, Done None => True
  | Fail e, Fail e' => e = e'
  | OutOfFuel, OutOfFuel => True
  | _, _ => False
  end.
Proof.
  induction 1 as [|a b xs ys Hab _ IH]; simpl; [done|].
  pose proof Hab as [_ Hc]. nb_rel_cases a b Hab.
  rewrite Hname. by case_decide.
Qed.

Lemma manualCost_rel g g' l acc :
  same_names g g' → manualCost g l acc = manualCost g' l acc.
Proof.
  intros Hs. revert acc. induction l as [|a l IH]; intros acc; [done|].
  destruct l as [|b l]; [done|]. rewrite !manualCost_cons.
  pose proof (find_neighbor_rel _ _ b (getNeighbors_rel g g' a Hs)) as Hf.
  destruct (find_neighbor (getNeighbors g a) b) as [[x|]| |],
    (find_neighbor (getNeighbors g' a) b) as [[y|]| |];
    cbn [mbind outcome_mbind obind] in *; try done.
  - rewrite Hf. apply IH.
  - by rewrite Hf.
Qed.

Lemma buildResult_rel g g' fuel start goal P E f cm :
  same_names g g' →
  buildResult g fuel start goal P E f cm
  = buildResult g' fuel start goal P E f cm.
Proof.
  intros Hs. unfold buildResult.
  destruct (f && _); [|done].
  destruct (reconstruct fuel P goal []) as [l| |]; simpl; [|done..].
  destruct cm; [done|]. by rewrite (manualCost_rel g g').
Qed.

(** X15: [bfs], [dfs] and [ucs] read neither the heuristic nor the
    position of a vertex: on two graphs with the same edges and the same
    vertex names they return the same result. *)
Theorem uninformed_ignore_heuristic g g' fuel algoType start goal :
  same_names g g' → algoType ∈ [Bfs; Dfs; Ucs] →
  runAlgorithm g fuel algoType start goal
  = runAlgorithm g' fuel algoType start goal.
Proof.
  intros Hs Hin.
  repeat (apply elem_of_cons in Hin as [->|Hin]);
    [..|by apply elem_of_nil in Hin]; simpl.
  - unfold bfs. apply run_ext. intros st. unfold bfs_step.
    destruct (bfs_queue st) as [|cur queue];
      [by rewrite (buildResult_rel g g')|].
    case_decide; [by rewrite (buildResult_rel g g')|]. f_equal.
    apply for_each_rel; [apply bfs_neighbor_rel|by apply getNeighbors_rel].
  - unfold dfs. apply run_ext. intros st. unfold dfs_step.
    destruct (dfs_stack st) as [|cur stack];
      [by rewrite (buildResult_rel g g')|].
    case_decide; [done|].
    case_decide; [by rewrite (buildResult_rel g g')|]. f_equal.
    apply for_each_rel; [apply dfs_neighbor_rel|].
    apply Forall2_reverse. by apply getNeighbors_rel.
  - rewrite !ucs_relax. apply run_ext. intros st. unfold relax_step.
    destruct (isEmpty _); [by rewrite (buildResult_rel g g')|].
    destruct (dequeue _) as [[[cur|] pq']|]; simpl; try done.
    case_decide; [done|].
    case_decide; [by rewrite (buildResult_rel g g')|]. f_equal.
    apply for_each_rel; [apply relax_neighbor_rel|by apply getNeighbors_rel].
Qed.

Lemma uninformed_ignore_heuristic_witness :
  runAlgorithm detour_graph 10 Ucs "S" "G"
  = runAlgorithm gentle_graph 10 Ucs "S" "G".
Proof.
  apply uninformed_ignore_heuristic.
  - split; [reflexivity|]. intros k.
    destruct (decide (k ∈ ["S"; "A"; "C"; "G"])) as [Hk|Hk].
    + repeat (apply elem_of_cons in Hk as [->|Hk]);
        [..|by apply elem_of_nil in Hk]; reflexivity.
    + assert (nodes detour_graph !! k = None) as ->.
      { apply not_elem_of_dom. intros Hd. apply Hk.
        apply elem_of_elements in Hd. revert Hd. vm_compute.
        set_solver. }
      assert (nodes gentle_graph !! k = None) as ->; [|done].
      apply not_elem_of_dom. intros Hd. apply Hk.
      apply elem_of_elements in Hd. revert Hd. vm_compute. set_solver.
  - set_solver.
Defined.
(** ** Graphs with bidirectional edges only *)










(** ** Every sum of a run is exact *)

Lemma XInv_step g hf fuel start goal st st' :
  wf_graph g → is_Some (nodes g !! start) → (search_bound g ≤ fuel)%nat →
  nonneg_costs g → XInv g hf start goal st →
  relax_step hf g fuel start goal st = Done (inl st') →
  XInv g hf start goal st'.
Proof.
  intros Hwf Hs Hfuel Hn HX Hstep.
  destruct (relax_step_ok g hf fuel start goal st Hwf Hs Hfuel
              (or_introl Hn) HX) as [(st1 & Hst & HX' & _)|(r & Hr & _)];
    rewrite Hstep in *; by simplify_eq.
Qed.

(** What is exact in a state: the recorded costs, the queued priorities,
    and the sums that expanding a vertex not yet visited forms - the cost
    of each neighbour and, for [astar], its estimate. *)
Definition exact_state (g : Graph) (hf : Node → Z) (st : ucs_state) : Prop :=
  (∀ v c, ucs_cost st !! v = Some c → exact c)
  ∧ (∀ it, it ∈ ucs_pQueue st → exact (priority it))
  ∧ ∀ cur gc nb,
      ucs_cost st !! cur = Some gc → cur ∉ ucs_visited st →
      nb ∈ getNeighbors g cur →
      exact (gc + nb_cost nb)
      ∧ ∀ nd, nb_node nb = Some nd → exact (gc + nb_cost nb + hf nd).

Lemma getNeighbors_h_small g hf u nb nd :
  h_small g hf → nb ∈ getNeighbors g u → nb_node nb = Some nd →
  Z.abs (hf nd) ≤ h_mass g.
Proof.
  intros Hh Hnb Hnd. unfold getNeighbors in Hnb.
  destruct (edges g !! u) as [es|]; [|by apply elem_of_nil in Hnb].
  apply list_elem_of_fmap in Hnb as (e & -> & _). simpl in Hnd.
  by eapply Hh.
Qed.

Lemma getNeighbors_outabs g u nb :
  nb ∈ getNeighbors g u → Z.abs (nb_cost nb) ≤ outabs g u.
Proof.
  intros Hnb. rewrite <- outabs_getNeighbors. apply Zsum_elem.
  - apply Forall_fmap, Forall_forall. intros x _. simpl. lia.
  - apply list_elem_of_fmap. by exists nb.
Qed.

Lemma NInv_exact_state g hf st :
  small_numbers g → h_small g hf → NInv g st → exact_state g hf st.
Proof.
  intros Hs Hh [HB HP].
  pose proof (h_mass_nonneg g) as Hh0. unfold exact_state, exact.
  unfold small_numbers in Hs. split_and!.
  - intros v c Hv. specialize (HB _ _ Hv).
    pose proof (mass_cost_mass g (ucs_visited st)). lia.
  - intros it Hin. specialize (HP _ Hin).
    pose proof (mass_cost_mass g (ucs_visited st)). lia.
  - intros cur gc nb Hgc Hvis Hnb. specialize (HB _ _ Hgc).
    pose proof (mass_cost_mass g ({[cur]} ∪ ucs_visited st)) as Hm.
    rewrite mass_union_singleton in Hm by done.
    pose proof (getNeighbors_outabs g cur nb Hnb) as Hw.
    split; [lia|]. intros nd Hnd.
    pose proof (getNeighbors_h_small g hf cur nb nd Hh Hnb Hnd). lia.
Qed.

Definition relax_next (hf : Node → Z) (g : Graph) (fuel : nat)
    (start goal : string) (st st' : ucs_state) : Prop :=
  relax_step hf g fuel start goal st = Done (inl st').

Lemma relax_run_exact g hf fuel start goal st :
  wf_graph g → nonneg_costs g → small_numbers g → h_small g hf →
  is_Some (nodes g !! start) → (search_bound g ≤ fuel)%nat →
  rtc (relax_next hf g fuel start goal)
      (UcsState [mkItem start (hval g hf start)] ∅ {[start := None]}
                {[start := 0]} []) st →
  exact_state g hf st.
Proof.
  intros Hwf Hn Hsmall Hh Hs Hfuel Hrtc.
  apply NInv_exact_state; [done..|].
  enough (XInv g hf start goal st ∧ NInv g st) as [_ ?] by done.
  revert st Hrtc.
  apply (rtc_ind_r (λ st, XInv g hf start goal st ∧ NInv g st)).
  - split; [apply XInv_init|by apply NInv_init].
  - intros st2 st3 _ Hnext [HX HN]. split.
    + by apply (XInv_step g hf fuel start goal st2 st3).
    + by apply (NInv_step g hf fuel start goal st2 st3).
Qed.

(** One iteration of the loops of [ucs] and of [astar]. *)
Definition ucs_next (g : Graph) (fuel : nat) (start goal : string)
    (st st' : ucs_state) : Prop :=
  ucs_step g fuel start goal st = Done (inl st').

Definition astar_next (g : Graph) (fuel : nat) (start goal : string)
    (st st' : astar_state) : Prop :=
  astar_step g fuel start goal st = Done (inl st').

Lemma ucs_next_relax g fuel start goal st st' :
  rtc (ucs_next g fuel start goal) st st' →
  rtc (relax_next (λ _, 0) g fuel start goal) st st'.
Proof.
  induction 1 as [|st1 st2 st3 Hstep _ IH]; [done|].
  eapply rtc_l; [|done]. unfold relax_next, ucs_next in *.
  by rewrite <- ucs_step_relax.
Qed.

Lemma astar_next_relax g fuel start goal st st' :
  rtc (astar_next g fuel start goal) st st' →
  rtc (relax_next node_h g fuel start goal) (astar_proj st) (astar_proj st').
Proof.
  induction 1 as [|st1 st2 st3 Hstep _ IH]; [done|].
  eapply rtc_l; [|done]. unfold relax_next, astar_next in *.
  by rewrite <- astar_step_relax, Hstep.
Qed.

(** *** greedy *)

Lemma GInv_init g start goal p :
  GInv g start goal
    (GreedyState [mkItem start p] ∅ {[start := None]} {[start := 0]} []).
Proof.
  split; simpl.
  - apply heap_ok_singleton.
  - apply SInv_init.
  - apply parent_ok_init.
  - intros v [o Hv]. apply lookup_singleton_Some in Hv as [<- <-].
    exists [start], 0. split_and!.
    + constructor. apply lookup_singleton_eq.
    + constructor.
    + apply lookup_singleton_eq.
Qed.

Lemma GInv_step g fuel start goal st st' :
  wf_graph g → is_Some (nodes g !! start) → (search_bound g ≤ fuel)%nat →
  GInv g start goal st →
  greedy_step g fuel start goal st = Done (inl st') →
  GInv g start goal st'.
Proof.
  intros Hwf Hs Hfuel HG Hstep.
  destruct (greedy_step_ok g fuel start goal st Hwf Hs Hfuel HG)
    as [(st1 & Hst & HG' & _)|(r & Hr & _)];
    rewrite Hstep in *; by simplify_eq.
Qed.

(** The cost recorded for a vertex of the predecessor map is the cost of
    its chain, a path without a repeated vertex. *)
Lemma GInv_exact g start goal st v :
  small_numbers g → GInv g start goal st →
  is_Some (greedy_parent st !! v) →
  ∃ c, greedy_cost st !! v = Some c ∧ exact c
       ∧ ∀ nb, nb ∈ getNeighbors g v → exact (c + nb_cost nb).
Proof.
  intros Hsmall [_ _ _ Hcost] Hv.
  destruct (Hcost v Hv) as (l & c & Hl & Hp & Hc).
  pose proof (simple_path_mass g l c v Hp (chain_NoDup _ _ _ Hl)
                (chain_last _ _ _ Hl)) as Hm.
  pose proof (mass_cost_mass g (list_to_set l)).
  pose proof (outabs_nonneg g v). pose proof (h_mass_nonneg g).
  exists c. unfold exact, small_numbers in *. split_and!; [done|lia|].
  intros nb Hnb. pose proof (getNeighbors_outabs g v nb Hnb). lia.
Qed.

(** X18: on a well-formed graph whose costs are not negative and whose
    costs and heuristics are integers of total magnitude at most
    [2 ^ 53], every number that [ucs], [astar] and [greedy] form stays an
    integer of magnitude at most [2 ^ 53], which a double holds and adds
    without rounding: after any number of iterations of the loop, every
    recorded cost and every queued priority is exact, and so is every
    sum that expanding a vertex would form next. *)
Theorem sums_stay_exact g fuel start goal :
  wf_graph g → nonneg_costs g → small_numbers g →
  is_Some (nodes g !! start) → (search_bound g ≤ fuel)%nat →
  (∀ st0 st,
     ucs_init start = Done st0 →
     rtc (ucs_next g fuel start goal) st0 st →
     exact_state g (λ _, 0) st)
  ∧ (∀ st0 st,
       astar_init g start = Done st0 →
       rtc (astar_next g fuel start goal) st0 st →
       exact_state g node_h (astar_proj st))
  ∧ (∀ st0 st,
       greedy_init g start = Done st0 →
       rtc (greedy_next g fuel start goal) st0 st →
       ∀ v, is_Some (greedy_parent st !! v) →
            ∃ c, greedy_cost st !! v = Some c ∧ exact c
                 ∧ ∀ nb, nb ∈ getNeighbors g v → exact (c + nb_cost nb)).
Proof.
  intros Hwf Hn Hsmall Hs Hfuel. split_and!.
  - intros st0 st Hinit Hrtc. unfold ucs_init in Hinit.
    rewrite enqueue_new in Hinit. simpl in Hinit. simplify_eq.
    apply (relax_run_exact g (λ _, 0) fuel start goal); try done.
    { apply h_small_zero. }
    apply ucs_next_relax in Hrtc.
    assert (hval g (λ _, 0) start = 0) as ->; [|done].
    unfold hval. by destruct (nodes g !! start).
  - intros st0 st Hinit Hrtc. destruct Hs as [nd Hnd].
    unfold astar_init, getNode in Hinit. rewrite Hnd in Hinit.
    simpl in Hinit. rewrite lookup_singleton_eq in Hinit. simpl in Hinit.
    rewrite enqueue_new in Hinit. simpl in Hinit. simplify_eq.
    apply (relax_run_exact g node_h fuel start goal); eauto.
    { apply h_small_node_h. }
    apply astar_next_relax in Hrtc. simpl in Hrtc.
    assert (hval g node_h start = node_h nd) as ->; [|done].
    unfold hval. by rewrite Hnd.
  - intros st0 st Hinit Hrtc v Hv. destruct Hs as [nd Hnd].
    unfold greedy_init, getNode in Hinit. rewrite Hnd in Hinit.
    simpl in Hinit. rewrite enqueue_new in Hinit. simpl in Hinit.
    simplify_eq.
    apply (GInv_exact g start goal st v); [done| |done].
    clear Hv. revert st Hrtc. apply (rtc_ind_r (GInv g start goal)).
    + apply GInv_init.
    + intros st2 st3 _ Hnext HG.
      apply (GInv_step g fuel start goal st2 st3); eauto.
Qed.

Lemma sums_stay_exact_witness :
  (∀ st0 st,
     ucs_init "S" = Done st0 →
     rtc (ucs_next gentle_graph 10 "S" "G") st0 st →
     exact_state gentle_graph (λ _, 0) st)
  ∧ (∀ st0 st,
       astar_init gentle_graph "S" = Done st0 →
       rtc (astar_next gentle_graph 10 "S" "G") st0 st →
       exact_state gentle_graph node_h (astar_proj st))
  ∧ (∀ st0 st,
       greedy_init gentle_graph "S" = Done st0 →
       rtc (greedy_next gentle_graph 10 "S" "G") st0 st →
       ∀ v, is_Some (greedy_parent st !! v) →
            ∃ c, greedy_cost st !! v = Some c ∧ exact c
                 ∧ ∀ nb, nb ∈ getNeighbors gentle_graph v →
                         exact (c + nb_cost nb)).
Proof.
  apply sums_stay_exact.
  - apply gentle_graph_wf.
  - apply (bool_decide_unpack _). by vm_compute.
  - apply gentle_graph_small.
  - solve_node.
  - vm_compute. lia.
Defined.
